(** * micrograd: the scalar reverse-mode autodiff core ([Value])

    A shallow embedding of the class [Value] of [neurons_and_mlp.ipynb]:
    the node record, the operator methods that build the computation
    graph, and [Value.backward] with its inner [build_topo].

    Python objects live in an arena: a heap is the list of all [Value]
    objects created so far, and the identity of an object is its index.
    Creating an object appends to the arena, attribute assignment updates
    it in place, and two references are the same object exactly when the
    indices are equal. *)

From Stdlib Require Import ZArith Ring Reals Lra.
From stdpp Require Import base numbers option list sets gmap strings.

Set Default Proof Using "Type".
Set Warnings "-clear-no-such-hyp".

(** ** Exceptions *)

Inductive exn :=
| AssertionError
| TypeError
| RecursionError
| ZeroDivisionError
| OverflowError
| ValueError.

(** What evaluating an expression gives: a value, or an exception. *)
Inductive result (A : Type) :=
| Ok (a : A)
| Raise (e : exn).
Arguments Ok {A} a.
Arguments Raise {A} e.

Definition is_ok {A} (r : result A) : bool :=
  match r with Ok _ => true | Raise _ => false end.

(** The error taxonomy of the specification: [UnsupportedOperand] covers
    the failed [assert isinstance(other, (int, float))] of [__pow__] and
    the [TypeError] of an arithmetic operator applied to an operand it does
    not support. *)
Definition UnsupportedOperand (e : exn) : Prop :=
  e = AssertionError ∨ e = TypeError.

(** ** Numbers

    [data] and [grad] hold Python numbers.  The embedding reads [+], [-]
    and [*] in a commutative ring (arithmetic without rounding).  True
    division, [**] and [math.exp] are partial, as in Python: each returns
    a number or raises ([ZeroDivisionError] for [0 ** -1] and [x / 0],
    [OverflowError] for [math.exp(1000)]); the class leaves open which
    inputs raise and what is returned. *)

Class Num := {
  num : Type;
  zero : num;
  one : num;
  add : num → num → num;
  mul : num → num → num;
  sub : num → num → num;
  opp : num → num;
  truediv : num → num → result num;
  pow : num → num → result num;
  math_exp : num → result num;
  num_ring : ring_theory zero one add mul sub opp (@eq num)
}.

Declare Scope num_scope.
Delimit Scope num_scope with num.
Bind Scope num_scope with num.
Notation "x + y" := (add x y) : num_scope.
Notation "x * y" := (mul x y) : num_scope.
Notation "x - y" := (sub x y) : num_scope.
Notation "x / y" := (truediv x y) : num_scope.
Notation "x ** y" := (pow x y) (at level 30, right associativity) : num_scope.
Notation "- x" := (opp x) : num_scope.

(** The literals of the source: [0.0], [1.0] (and [1]), [2], [-1]. *)
Definition two `{Num} : num := (one + one)%num.
Definition minus_one `{Num} : num := (- one)%num.

(** The number an operation returned.  It is read only where the
    operation is known to have returned. *)
Definition value_of `{Num} (r : result num) : num :=
  match r with Ok x => x | Raise _ => zero end.

(** *** The real numbers, for the closed examples

    Python's [float] without rounding: the operations are those of the
    reals, and they raise where [float] raises.  A result of magnitude
    [2 ** 1024] or more is too large for a [float] ([OverflowError] in
    [**] and [math.exp]); [0] has no negative power and nothing is
    divided by [0] ([ZeroDivisionError]).  A negative number to a
    fractional power is a complex number in Python, which the reals do
    not hold: the instance has no result for it and stops with
    [ValueError], and no example goes there.  [+], [-], [*] and [/] are
    exact and never overflow. *)

Definition float_limit : R := IZR (2 ^ 1024).

Definition in_range (x : R) : result R :=
  if Rlt_dec (Rabs x) float_limit then Ok x else Raise OverflowError.

Definition real_truediv (a b : R) : result R :=
  if Req_dec_T b 0 then Raise ZeroDivisionError else Ok (a / b)%R.

Definition real_exp (x : R) : result R := in_range (Rtrigo_def.exp x).

Definition real_pow (a k : R) : result R :=
  if Req_dec_T (IZR (Int_part k)) k then
    if Req_dec_T a 0 then
      if Rlt_dec k 0 then Raise ZeroDivisionError
      else Ok (powerRZ a (Int_part k))
    else in_range (powerRZ a (Int_part k))
  else if Rlt_dec 0 a then in_range (Rpower a k)
  else if Req_dec_T a 0 then
    if Rlt_dec 0 k then Ok 0%R else Raise ZeroDivisionError
  else Raise ValueError.

#[export] Instance real_num : Num := {
  num := R;
  zero := 0%R;
  one := 1%R;
  add := Rplus;
  mul := Rmult;
  sub := Rminus;
  opp := Ropp;
  truediv := real_truediv;
  pow := real_pow;
  math_exp := real_exp;
  num_ring := RTheory
}.

(** References to [Value] objects: indices into the arena. *)
Abbreviation ref := nat (only parsing).

Section Model.
Context {N : Num}.
Local Open Scope num_scope.

(** The right operand of a binary operator: a [Value], a plain number
    ([int] or [float]), or an object that is neither and with which no
    arithmetic is defined, so that Python raises [TypeError] for
    [number + object], [number * object], [-object] and [object ** -1]:
    [None], for one.  Objects of other types that do take part in
    arithmetic with a number (a [str] times an [int], a [complex]) are
    not modelled. *)
Inductive operand :=
| ONode (v : ref)
| OConst (k : num)
| OOther.

(** The [_op] label: [''], ['+'], ['*'], [f'**{other}'], ['tanh'],
    ['exp'].  The formatted exponent is kept as the number itself. *)
Inductive op_tag :=
| op_none
| op_add
| op_mul
| op_pow (other : num)
| op_tanh
| op_exp.

(** The [_backward] attribute.  Every constructor is one of the closures
    of the source together with the variables it captures from the
    enclosing method ([self], [other], [out], and [t] in [tanh]);
    [lambda_None] is the default [lambda: None] of [__init__].  The
    closures read [data] and [grad] when they are called, not when they
    are created. *)
Inductive closure :=
| lambda_None
| add_backward (self : ref) (other : operand) (out : ref)
| mul_backward (self : ref) (other : operand) (out : ref)
| pow_backward (self : ref) (other : num) (out : ref)
| tanh_backward (self : ref) (t : num) (out : ref)
| exp_backward (self : ref) (out : ref).

Record Value := mkValue {
  data : num;
  grad : num;
  _backward : closure;
  _prev : gset ref;
  _op : op_tag;
  label : string
}.

#[export] Instance Value_inhabited : Inhabited Value :=
  populate (mkValue zero zero lambda_None ∅ op_none "").

Definition with_grad (g : num) (v : Value) : Value :=
  mkValue (data v) g (_backward v) (_prev v) (_op v) (label v).

Definition with_backward (c : closure) (v : Value) : Value :=
  mkValue (data v) (grad v) c (_prev v) (_op v) (label v).

Definition with_data (d : num) (v : Value) : Value :=
  mkValue d (grad v) (_backward v) (_prev v) (_op v) (label v).

(** *** The monad: a computation threads the heap and may raise. *)

Definition M (A : Type) := list Value → result A * list Value.

Definition ret {A} (a : A) : M A := λ h, (Ok a, h).

Definition raise {A} (e : exn) : M A := λ h, (Raise e, h).

Definition bind {A B} (m : M A) (k : A → M B) : M B :=
  λ h, match m h with
       | (Ok a, h') => k a h'
       | (Raise e, h') => (Raise e, h')
       end.

Definition fmapM {A B} (f : A → B) (m : M A) : M B :=
  bind m (λ a, ret (f a)).

(** An expression over numbers, evaluated where it stands: its exception,
    if it raises one, is the exception of the computation. *)
Definition lift {A} (r : result A) : M A := λ h, (r, h).

End Model.

(** The arena of all objects. *)
Abbreviation heap := (list Value) (only parsing).

Notation "'let*' x ':=' m 'in' k" := (bind m (λ x, k))
  (at level 10, x name, m at level 100, k at level 200,
   format "'[v' 'let*'  x  ':='  m  'in' '/' k ']'").

Section Operations.
Context {N : Num}.
Local Open Scope num_scope.

(** *** Attribute access *)

Definition get_data (v : ref) : M num := λ h, (Ok (data (h !!! v)), h).

Definition get_grad (v : ref) : M num := λ h, (Ok (grad (h !!! v)), h).

(** [v.grad = g] *)
Definition set_grad (v : ref) (g : num) : M unit :=
  λ h, (Ok tt, alter (with_grad g) v h).

(** [v.grad += x] *)
Definition add_grad (v : ref) (x : num) : M unit :=
  λ h, (Ok tt, alter (λ n, with_grad (grad n + x) n) v h).

(** [v.data = d], the write access the training loop uses. *)
Definition set_data (v : ref) (d : num) : M unit :=
  λ h, (Ok tt, alter (with_data d) v h).

(** [out._backward = c] *)
Definition set_backward (out : ref) (c : closure) : M unit :=
  λ h, (Ok tt, alter (with_backward c) out h).

(** [Value(data, _children, _op, label)]: [__init__] sets [grad = 0.0],
    [_backward = lambda: None] and [_prev = set(_children)]; the new object
    gets the next free index. *)
Definition Value_init (d : num) (_children : list ref) (o : op_tag)
    (l : string) : M ref :=
  λ h, (Ok (length h),
        h ++ [mkValue d zero lambda_None (list_to_set _children) o l]).

(** A number used where the source computes with [other] itself
    ([self.data + other], [other * out.grad]): with an object that takes
    no part in arithmetic Python raises [TypeError]. *)
Definition as_number (other : operand) : M num :=
  match other with
  | OConst k => ret k
  | _ => raise TypeError
  end.

(** *** The operator methods of [Value] *)

Definition __add__ (self : ref) (other : operand) : M ref :=
  match other with
  | ONode o =>
      let* a := get_data self in
      let* b := get_data o in
      let* out := Value_init (a + b) [self; o] op_add "" in
      let* _ := set_backward out (add_backward self other out) in
      ret out
  | _ =>
      let* a := get_data self in
      let* k := as_number other in
      let* out := Value_init (a + k) [self] op_add "" in
      let* _ := set_backward out (add_backward self other out) in
      ret out
  end.

Definition __radd__ (self : ref) (other : operand) : M ref :=
  __add__ self other.

Definition __mul__ (self : ref) (other : operand) : M ref :=
  match other with
  | ONode o =>
      let* a := get_data self in
      let* b := get_data o in
      let* out := Value_init (a * b) [self; o] op_mul "" in
      let* _ := set_backward out (mul_backward self other out) in
      ret out
  | _ =>
      let* a := get_data self in
      let* k := as_number other in
      let* out := Value_init (a * k) [self] op_mul "" in
      let* _ := set_backward out (mul_backward self other out) in
      ret out
  end.

Definition __rmul__ (self : ref) (other : operand) : M ref :=
  __mul__ self other.

(** [self * -1] *)
Definition __neg__ (self : ref) : M ref :=
  __mul__ self (OConst minus_one).

Definition __pow__ (self : ref) (other : operand) : M ref :=
  match other with
  | OConst k =>
      let* a := get_data self in
      let* p := lift (a ** k) in
      let* out := Value_init p [self] (op_pow k) "" in
      let* _ := set_backward out (pow_backward self k out) in
      ret out
  | _ => raise AssertionError
  end.

(** Unary minus applied to an arbitrary operand, [-other]: a [Value]
    answers with [__neg__], a number is negated, anything else has no
    [__neg__]. *)
Definition py_neg (other : operand) : M operand :=
  match other with
  | ONode o => fmapM ONode (__neg__ o)
  | OConst k => ret (OConst (- k))
  | OOther => raise TypeError
  end.

(** [other ** -1] for an arbitrary left operand. *)
Definition py_pow_minus_one (other : operand) : M operand :=
  match other with
  | ONode o => fmapM ONode (__pow__ o (OConst minus_one))
  | OConst k => fmapM OConst (lift (k ** minus_one))
  | OOther => raise TypeError
  end.

(** [self + (-other)]: the operand [-other] is evaluated first. *)
Definition __sub__ (self : ref) (other : operand) : M ref :=
  let* m := py_neg other in
  __add__ self m.

(** [self * (other ** -1)] *)
Definition __truediv__ (self : ref) (other : operand) : M ref :=
  let* p := py_pow_minus_one other in
  __mul__ self p.

(** The expression [(math.exp(2*x) - 1)/(math.exp(2*x) + 1)] of
    [tanh].  [math.exp(2*x)] is evaluated twice, to the same outcome. *)
Definition tanh_of (x : num) : result num :=
  match math_exp (two * x) with
  | Ok e => (e - one) / (e + one)
  | Raise err => Raise err
  end.

Definition tanh (self : ref) : M ref :=
  let* x := get_data self in
  let* t := lift (tanh_of x) in
  let* out := Value_init t [self] op_tanh "" in
  let* _ := set_backward out (tanh_backward self t out) in
  ret out.

Definition exp (self : ref) : M ref :=
  let* x := get_data self in
  let* e := lift (math_exp x) in
  let* out := Value_init e [self] op_exp "" in
  let* _ := set_backward out (exp_backward self out) in
  ret out.

(** *** Operator dispatch

    [lhs op rhs] in Python: when [lhs] is a [Value], its method [__op__]
    runs.  When [lhs] is a plain number and [rhs] a [Value], the number's
    own method returns [NotImplemented] and Python falls back on the
    reflected method [__rop__] of [Value], raising [TypeError] when the
    class does not define one.  [Value] defines [__radd__] and [__rmul__]
    only. *)

Inductive binop := Add | Sub | Mul | Div | Pow.

Definition Value_method (op : binop) : ref → operand → M ref :=
  match op with
  | Add => __add__
  | Sub => __sub__
  | Mul => __mul__
  | Div => __truediv__
  | Pow => __pow__
  end.

Definition Value_reflected (op : binop) : option (ref → operand → M ref) :=
  match op with
  | Add => Some __radd__
  | Mul => Some __rmul__
  | Sub | Div | Pow => None
  end.

Definition num_binop (op : binop) (a b : num) : result num :=
  match op with
  | Add => Ok (a + b)
  | Sub => Ok (a - b)
  | Mul => Ok (a * b)
  | Div => a / b
  | Pow => a ** b
  end.

Definition py_binop (op : binop) (lhs rhs : operand) : M operand :=
  match lhs, rhs with
  | ONode a, _ => fmapM ONode (Value_method op a rhs)
  | OConst k, ONode b =>
      match Value_reflected op with
      | Some rop => fmapM ONode (rop b (OConst k))
      | None => raise TypeError
      end
  | OConst a, OConst b => fmapM OConst (lift (num_binop op a b))
  | _, _ => raise TypeError
  end.

End Operations.

Section Backward.
Context {N : Num}.
Local Open Scope num_scope.

(** *** Calling a [_backward] closure

    Each branch is the body of the [_backward] function of the method that
    created the closure; [isinstance(other, Value)] is the test on the
    captured operand.  The right-hand side of a [+=] is evaluated before
    the attribute is written, so a power that raises leaves the arena as
    the closure found it. *)
Definition call (c : closure) : M unit :=
  match c with
  | lambda_None => ret tt
  | add_backward self other out =>
      match other with
      | ONode o =>
          let* g := get_grad out in
          let* _ := add_grad self (one * g) in
          let* g' := get_grad out in
          add_grad o (one * g')
      | _ =>
          let* g := get_grad out in
          add_grad self (one * g)
      end
  | mul_backward self other out =>
      match other with
      | ONode o =>
          let* b := get_data o in
          let* g := get_grad out in
          let* _ := add_grad self (b * g) in
          let* a := get_data self in
          let* g' := get_grad out in
          add_grad o (a * g')
      | _ =>
          let* k := as_number other in
          let* g := get_grad out in
          add_grad self (k * g)
      end
  | pow_backward self other out =>
      let* a := get_data self in
      let* p := lift (a ** (other - one)) in
      let* g := get_grad out in
      add_grad self ((other * p) * g)
  | tanh_backward self t out =>
      let* p := lift (t ** two) in
      let* g := get_grad out in
      add_grad self ((one - p) * g)
  | exp_backward self out =>
      let* d := get_data out in
      let* g := get_grad out in
      add_grad self (d * g)
  end.

(** *** [build_topo]

    The state of the traversal is the pair of the two variables the inner
    function closes over, [visited] and [topo].  Every call of
    [build_topo], also one on a node already visited, takes a frame of
    the Python call stack: the embedding counts the frames that are left
    down from [fuel], and [None] is the [RecursionError] of a stack that
    would grow past the interpreter's limit.  [elements] enumerates the
    set [v._prev]; Python leaves the order of that enumeration open, and
    nothing proved below depends on it. *)

Definition topo_state : Type := gset ref * list ref.

Fixpoint for_each {A S} (f : A → S → option S) (l : list A) (s : S)
    : option S :=
  match l with
  | [] => Some s
  | x :: l' =>
      match f x s with
      | Some s' => for_each f l' s'
      | None => None
      end
  end.

Fixpoint build_topo (fuel : nat) (h : heap) (v : ref) (s : topo_state)
    : option topo_state :=
  match fuel with
  | O => None
  | S fuel' =>
      if decide (v ∈ s.1) then Some s
      else
        match for_each (build_topo fuel' h) (elements (_prev (h !!! v)))
                       ({[v]} ∪ s.1, s.2) with
        | Some s' => Some (s'.1, s'.2 ++ [v])
        | None => None
        end
  end.

(** The list [topo] after [build_topo(self)], started from the empty
    [visited] and [topo].  [limit] is the number of frames the
    interpreter can still stack when [build_topo(self)] is called: what
    [sys.getrecursionlimit()], 1000 unless changed, leaves above the
    caller. *)
Definition topo_order (limit : nat) (h : heap) (self : ref)
    : option (list ref) :=
  snd <$> build_topo limit h self (∅, []).

(** [for node in reversed(topo): node._backward()] *)
Fixpoint run_backwards (nodes : list ref) : M unit :=
  match nodes with
  | [] => ret tt
  | node :: rest =>
      let* _ := (λ h, call (_backward (h !!! node)) h) in
      run_backwards rest
  end.

(** [Value.backward], with [limit] frames left for [build_topo].  The
    traversal comes first: when it raises, no gradient has been
    written. *)
Definition backward (limit : nat) (self : ref) : M unit :=
  λ h, match topo_order limit h self with
       | None => (Raise RecursionError, h)
       | Some topo =>
           (let* _ := set_grad self one in
            run_backwards (reverse topo)) h
       end.

End Backward.

(** ** The operation surface as data, and the invariants of the arena *)

Section Invariants.
Context {N : Num}.
Local Open Scope num_scope.

(** One application of the operation surface: the construction of a leaf
    and the methods of [Value] that build a node. *)
Inductive forward_op :=
| F_leaf (d : num) (l : string)
| F_add (self : ref) (other : operand)
| F_mul (self : ref) (other : operand)
| F_pow (self : ref) (other : operand)
| F_exp (self : ref)
| F_tanh (self : ref)
| F_neg (self : ref)
| F_sub (self : ref) (other : operand)
| F_truediv (self : ref) (other : operand).

Definition run_op (op : forward_op) : M ref :=
  match op with
  | F_leaf d l => Value_init d [] op_none l
  | F_add self other => __add__ self other
  | F_mul self other => __mul__ self other
  | F_pow self other => __pow__ self other
  | F_exp self => exp self
  | F_tanh self => tanh self
  | F_neg self => __neg__ self
  | F_sub self other => __sub__ self other
  | F_truediv self other => __truediv__ self other
  end.

Definition is_number (o : operand) : bool :=
  match o with OConst _ => true | _ => false end.

Definition is_supported (o : operand) : bool :=
  match o with OOther => false | _ => true end.

(** The operands an operation accepts: a [Value] or a plain number, and a
    plain number only as the exponent of [__pow__]. *)
Definition well_typed (op : forward_op) : bool :=
  match op with
  | F_leaf _ _ | F_exp _ | F_tanh _ | F_neg _ => true
  | F_add _ o | F_mul _ o | F_sub _ o | F_truediv _ o => is_supported o
  | F_pow _ o => is_number o
  end.

(** The primitive operations are those whose body calls [Value(...)]
    itself; [node_inputs] lists the [Value] arguments of such a call in the
    order of the call. *)
Definition primitive (op : forward_op) : bool :=
  match op with
  | F_neg _ | F_sub _ _ | F_truediv _ _ => false
  | _ => true
  end.

Definition operand_refs (o : operand) : list ref :=
  match o with ONode v => [v] | _ => [] end.

Definition node_inputs (op : forward_op) : list ref :=
  match op with
  | F_leaf _ _ => []
  | F_add self o | F_mul self o | F_sub self o | F_truediv self o =>
      self :: operand_refs o
  | F_pow self _ | F_exp self | F_tanh self | F_neg self => [self]
  end.

(** The objects a closure writes to when it is called. *)
Definition targets (c : closure) : list ref :=
  match c with
  | lambda_None => []
  | add_backward self other _ | mul_backward self other _ =>
      self :: operand_refs other
  | pow_backward self _ _ | tanh_backward self _ _ | exp_backward self _ =>
      [self]
  end.

(** The [out] a closure captured. *)
Definition captured_out (c : closure) : option ref :=
  match c with
  | lambda_None => None
  | add_backward _ _ out | mul_backward _ _ out | pow_backward _ _ out
  | tanh_backward _ _ out | exp_backward _ out => Some out
  end.

Definition captured_other (c : closure) : operand :=
  match c with
  | add_backward _ other _ | mul_backward _ other _ => other
  | _ => OConst zero
  end.

(** What holds of the object at index [i] in every arena the operations
    build: its operands were created before it, and its closure, when it
    has one, belongs to it, captured a supported operand, and writes to
    exactly the operands of the node. *)
Definition closure_ok (i : ref) (prev : gset ref) (c : closure) : Prop :=
  c = lambda_None ∨
  (captured_out c = Some i ∧ is_supported (captured_other c) = true ∧
   prev = list_to_set (targets c)).

Definition wf (h : heap) : Prop :=
  ∀ i v, h !! i = Some v →
    (∀ c, c ∈ _prev v → c < i) ∧ closure_ok i (_prev v) (_backward v).

(** Operand references point into the arena. *)
Definition closed (h : heap) : Prop :=
  ∀ i v c, h !! i = Some v → c ∈ _prev v → c < length h.

(** The operand relation admits a ranking: no node depends, directly or
    transitively, on itself. *)
Definition acyclic (h : heap) : Prop :=
  ∃ rank : ref → nat,
    ∀ i v c, h !! i = Some v → c ∈ _prev v → rank c < rank i.

(** [u] is reachable from [v] through operand edges. *)
Inductive reachable (h : heap) (v : ref) : ref → Prop :=
| reach_refl : reachable h v v
| reach_step u c : reachable h v u → c ∈ _prev (h !!! u) → reachable h v c.

(** [topo] lists every operand before each of its consumers. *)
Definition ordered (h : heap) (topo : list ref) : Prop :=
  ∀ j v c, topo !! j = Some v → c ∈ _prev (h !!! v) →
    ∃ i, i < j ∧ topo !! i = Some c.

(** A node is pending while [build_topo] is still inside its loop: it is
    in [visited] and not yet in [topo]. *)
Definition pending (s : topo_state) (p : ref) : Prop :=
  p ∈ s.1 ∧ p ∉ s.2.

Definition dfs_inv (h : heap) (s : topo_state) : Prop :=
  NoDup s.2 ∧ (∀ u, u ∈ s.2 → u ∈ s.1) ∧ ordered h s.2.

(** What a completed call of [build_topo] did to the state. *)
Definition dfs_post (h : heap) (s s' : topo_state) : Prop :=
  dfs_inv h s' ∧ s.1 ⊆ s'.1 ∧
  (∃ new, s'.2 = s.2 ++ new ∧ ∀ u, u ∈ new → u ∉ s.1) ∧
  (∀ p, pending s' p → pending s p).

(** Everything but the gradients. *)
Definition skeleton (h : heap) : list Value := with_grad zero <$> h.

(** [build_topo(v)] needs no more than [n] frames: [v] takes one, and
    each of its operands fits in what is left.  The chain of operands
    below [v] is then at most [n] nodes long. *)
Fixpoint fits (n : nat) (h : heap) (v : ref) : Prop :=
  match n with
  | O => False
  | S n' => ∀ c, c ∈ _prev (h !!! v) → fits n' h c
  end.

(** The power a closure computes when it is called returns:
    [self.data ** (other - 1)] in the closure of [__pow__], [t**2] in the
    closure of [tanh].  The other closures only add and multiply. *)
Definition closure_runs (h : heap) (c : closure) : bool :=
  match c with
  | pow_backward self other _ =>
      is_ok (data (h !!! self) ** (other - one))
  | tanh_backward _ t _ => is_ok (t ** two)
  | _ => true
  end.

(** No closure that [backward] on [root] calls raises. *)
Definition runs_below (h : heap) (root : ref) : Prop :=
  ∀ u, reachable h root u → closure_runs h (_backward (h !!! u)) = true.

(** What one call of the closure [c] on the arena [h] adds to [v.grad]
    when it returns: the terms of the [+=] statements of [c] whose target
    is [v]. *)
Definition share (v target : ref) (x : num) : num :=
  if decide (v = target) then x else zero.

Definition contrib (c : closure) (h : heap) (v : ref) : num :=
  match c with
  | lambda_None => zero
  | add_backward self other out =>
      match other with
      | ONode o =>
          share v self (one * grad (h !!! out)) +
          share v o (one * grad (h !!! out))
      | _ => share v self (one * grad (h !!! out))
      end
  | mul_backward self other out =>
      match other with
      | ONode o =>
          share v self (data (h !!! o) * grad (h !!! out)) +
          share v o (data (h !!! self) * grad (h !!! out))
      | OConst k => share v self (k * grad (h !!! out))
      | OOther => zero
      end
  | pow_backward self other out =>
      share v self
        ((other * value_of (data (h !!! self) ** (other - one))) *
         grad (h !!! out))
  | tanh_backward self t out =>
      share v self ((one - value_of (t ** two)) * grad (h !!! out))
  | exp_backward self out =>
      share v self (data (h !!! out) * grad (h !!! out))
  end.

(** The node a method creates: [Value(d, cs, o)] followed by
    [out._backward = c]. *)
Definition new_node (d : num) (c : closure) (cs : list ref) (o : op_tag)
    : Value :=
  mkValue d zero c (list_to_set cs) o "".

(** *** The derived operations as the specification words them *)

Definition spec_negate (a : ref) : M ref :=
  __mul__ a (OConst minus_one).

Definition spec_subtract (a b : ref) : M ref :=
  let* n := spec_negate b in
  __add__ a (ONode n).

Definition spec_divide (a b : ref) : M ref :=
  let* p := __pow__ b (OConst minus_one) in
  __mul__ a (ONode p).

(** The expression over numbers an operation evaluates before it calls
    [Value(...)], when it has one that can raise. *)
Definition arithmetic (op : forward_op) (h : heap) : result num :=
  match op with
  | F_pow self (OConst k) => data (h !!! self) ** k
  | F_truediv _ (ONode o) => data (h !!! o) ** minus_one
  | F_truediv _ (OConst k) => k ** minus_one
  | F_exp self => math_exp (data (h !!! self))
  | F_tanh self => tanh_of (data (h !!! self))
  | _ => Ok zero
  end.

End Invariants.

(** ** Closed examples over the reals *)

Module Examples.

Definition leaf (d : R) : M ref := Value_init d [] op_none "".

(** [x = Value(3.0)] *)
Definition one_leaf : heap :=
  [mkValue 3%R 0%R lambda_None ∅ op_none ""].

(** [x = Value(0.0)] *)
Definition zero_leaf : heap :=
  [mkValue 0%R 0%R lambda_None ∅ op_none ""].

(** [x = Value(3.0); y = x * x] *)
Definition square : M (ref * ref) :=
  let* x := leaf 3%R in
  let* y := __mul__ x (ONode x) in
  ret (x, y).

(** [x = Value(3.0); y = x * 2; z = y * 5] *)
Definition chain : M (ref * ref * ref) :=
  let* x := leaf 3%R in
  let* y := __mul__ x (OConst 2%R) in
  let* z := __mul__ y (OConst 5%R) in
  ret (x, y, z).

(** The arena after [chain]. *)
Definition chain_heap : heap :=
  [mkValue 3%R 0%R lambda_None ∅ op_none "";
   mkValue 6%R 0%R (mul_backward 0 (OConst 2%R) 1) {[0]} op_mul "";
   mkValue 30%R 0%R (mul_backward 1 (OConst 5%R) 2) {[1]} op_mul ""].

(** [x = Value(1000.0)] *)
Definition large_leaf : heap :=
  [mkValue 1000%R 0%R lambda_None ∅ op_none ""].

(** The arena after [a = Value(0.0); x = a ** 0; y = x * x]. *)
Definition zero_power_heap : heap :=
  [mkValue 0%R 0%R lambda_None ∅ op_none "";
   mkValue 1%R 0%R (pow_backward 0 0%R 1) {[0]} (op_pow 0%R) "";
   mkValue 1%R 0%R (mul_backward 1 (ONode 1) 2) {[1]} op_mul ""].

End Examples.

(** ** The backward pass as a sum of contributions *)

Section Adjoints.
Context {N : Num}.
Local Open Scope num_scope.

(** The contributions to [v.grad] of the closures of [nodes], each read
    on the arena [h]. *)
Fixpoint sum_contrib (h : heap) (nodes : list ref) (v : ref) : num :=
  match nodes with
  | [] => zero
  | u :: rest => contrib (_backward (h !!! u)) h v + sum_contrib h rest v
  end.

(** The gradient [backward] starts from: [1.0] for the root after
    [self.grad = 1.0], the gradient already there for any other node. *)
Definition seed (h : heap) (root v : ref) : num :=
  if decide (v = root) then one else grad (h !!! v).

(** [v.grad] after one call of the closure [c] that returns, when it was
    [g] before the call and the closure reads the rest from [h]: the
    [+=] statements of [c] with target [v], in the order of the source. *)
Definition bump (v target : ref) (g x : num) : num :=
  if decide (v = target) then g + x else g.

Definition accumulate (c : closure) (h : heap) (v : ref) (g : num) : num :=
  match c with
  | lambda_None => g
  | add_backward self other out =>
      match other with
      | ONode o =>
          bump v o (bump v self g (one * grad (h !!! out)))
            (one * grad (h !!! out))
      | _ => bump v self g (one * grad (h !!! out))
      end
  | mul_backward self other out =>
      match other with
      | ONode o =>
          bump v o
            (bump v self g (data (h !!! o) * grad (h !!! out)))
            (data (h !!! self) * grad (h !!! out))
      | OConst k => bump v self g (k * grad (h !!! out))
      | OOther => g
      end
  | pow_backward self other out =>
      bump v self g
        ((other * value_of (data (h !!! self) ** (other - one))) *
         grad (h !!! out))
  | tanh_backward self t out =>
      bump v self g ((one - value_of (t ** two)) * grad (h !!! out))
  | exp_backward self out =>
      bump v self g (data (h !!! out) * grad (h !!! out))
  end.

(** The gradient of [v] after the closures of [nodes] have been called
    one after the other, from the gradient [g]. *)
Definition accumulate_all (h : heap) (nodes : list ref) (v : ref)
    (g : num) : num :=
  foldl (λ g u, accumulate (_backward (h !!! u)) h v g) g nodes.

(** An order of calls in which no closure writes to a node whose own
    closure has already been called or is being called. *)
Fixpoint safe_order (h : heap) (nodes : list ref) : Prop :=
  match nodes with
  | [] => True
  | u :: rest =>
      (∀ w, w ∈ u :: rest → u ∉ _prev (h !!! w)) ∧ safe_order h rest
  end.

(** [v] is an operand neither of [a] nor of anything [a] depends on. *)
Definition unused_below (h : heap) (v a : ref) : Prop :=
  ∀ u, reachable h a u → v ∉ _prev (h !!! u).

End Adjoints.

(** ** [trace]: the nodes and edges below a root *)

Section Trace.
Context {N : Num}.

(** The two sets [nodes] and [edges] the inner function [build] closes
    over; an edge is the pair [(child, v)]. *)
Definition trace_state : Type := gset ref * gset (ref * ref).

(** [build(v)], with the frames of the call stack counted down from
    [fuel] as in [build_topo]. *)
Fixpoint build (fuel : nat) (h : heap) (v : ref) (s : trace_state)
    : option trace_state :=
  match fuel with
  | O => None
  | S fuel' =>
      if decide (v ∈ s.1) then Some s
      else
        for_each
          (λ child s', build fuel' h child (s'.1, {[(child, v)]} ∪ s'.2))
          (elements (_prev (h !!! v)))
          ({[v]} ∪ s.1, s.2)
  end.

(** [trace(root)] with [limit] frames left for [build]; [None] is the
    [RecursionError] of a graph too deep for them. *)
Definition trace (limit : nat) (h : heap) (root : ref)
    : option trace_state :=
  build limit h root (∅, ∅).

End Trace.

(** ** The training loop: resetting and updating the parameters *)

Section Training.
Context {N : Num}.
Local Open Scope num_scope.

(** [for p in params: p.grad = 0.0] *)
Fixpoint zero_grads (params : list ref) : M unit :=
  match params with
  | [] => ret tt
  | p :: rest =>
      let* _ := set_grad p zero in
      zero_grads rest
  end.

(** [for p in params: p.data -= learning_rate * p.grad] *)
Fixpoint update (learning_rate : num) (params : list ref) : M unit :=
  match params with
  | [] => ret tt
  | p :: rest =>
      let* d := get_data p in
      let* g := get_grad p in
      let* _ := set_data p (d - learning_rate * g) in
      update learning_rate rest
  end.

End Training.

(** ** [Neuron], [Layer] and [MLP] *)

Section Network.
Context {N : Num}.
Local Open Scope num_scope.

Record Neuron := mkNeuron { w : list ref; b : ref }.

Record Layer := mkLayer { neurons : list Neuron }.

Record MLP := mkMLP { layers : list Layer }.

(** What the classes are called with as [x]: a list (of numbers or of
    [Value]s), or a single [Value], which is what a layer of one neuron
    returns. *)
Inductive py_arg :=
| PyList (xs : list operand)
| PyValue (v : ref).

(** *** Construction

    [random.uniform(-1, 1)] is a stream of numbers the model takes as a
    parameter: [rnd k] is the [k]-th draw, and the constructors return the
    number of draws made so far along with the object. *)

(** [[Value(random.uniform(-1, 1), label='w') for _ in range(nin)]] *)
Fixpoint new_weights (rnd : nat → num) (nin : nat) (k : nat)
    : M (list ref * nat) :=
  match nin with
  | O => ret ([], k)
  | S n =>
      let* wi := Value_init (rnd k) [] op_none "w" in
      let* r := new_weights rnd n (S k) in
      ret (wi :: r.1, r.2)
  end.

(** [Neuron.__init__] *)
Definition Neuron_init (rnd : nat → num) (nin : nat) (k : nat)
    : M (Neuron * nat) :=
  let* r := new_weights rnd nin k in
  let* bi := Value_init (rnd r.2) [] op_none "b" in
  ret (mkNeuron r.1 bi, S r.2).

(** [[Neuron(nin) for _ in range(nout)]] *)
Fixpoint new_neurons (rnd : nat → num) (nin nout : nat) (k : nat)
    : M (list Neuron * nat) :=
  match nout with
  | O => ret ([], k)
  | S n =>
      let* r := Neuron_init rnd nin k in
      let* rs := new_neurons rnd nin n r.2 in
      ret (r.1 :: rs.1, rs.2)
  end.

(** [Layer.__init__] *)
Definition Layer_init (rnd : nat → num) (nin nout : nat) (k : nat)
    : M (Layer * nat) :=
  let* r := new_neurons rnd nin nout k in
  ret (mkLayer r.1, r.2).

(** [[Layer(sz[i], sz[i+1]) for i in range(len(nouts))]], by recursion on
    [sz]. *)
Fixpoint new_layers (rnd : nat → num) (sz : list nat) (k : nat)
    : M (list Layer * nat) :=
  match sz with
  | nin :: rest =>
      match rest with
      | nout :: _ =>
          let* r := Layer_init rnd nin nout k in
          let* rs := new_layers rnd rest r.2 in
          ret (r.1 :: rs.1, rs.2)
      | [] => ret ([], k)
      end
  | [] => ret ([], k)
  end.

(** [MLP.__init__]: [sz = [nin] + nouts] *)
Definition MLP_init (rnd : nat → num) (nin : nat) (nouts : list nat)
    (k : nat) : M (MLP * nat) :=
  let sz := nin :: nouts in
  let* r := new_layers rnd sz k in
  ret (mkMLP r.1, r.2).

(** *** [parameters] *)

Definition Neuron_parameters (n : Neuron) : list ref := w n ++ [b n].

(** [params.extend(n.parameters())] for each neuron in turn *)
Fixpoint extend_all (ns : list Neuron) : list ref :=
  match ns with
  | [] => []
  | n :: rest => Neuron_parameters n ++ extend_all rest
  end.

Definition Layer_parameters (l : Layer) : list ref := extend_all (neurons l).

(** [[p for layer in self.layers for p in layer.parameters()]] *)
Fixpoint MLP_layers_parameters (ls : list Layer) : list ref :=
  match ls with
  | [] => []
  | l :: rest => Layer_parameters l ++ MLP_layers_parameters rest
  end.

Definition MLP_parameters (m : MLP) : list ref :=
  MLP_layers_parameters (layers m).

(** *** [__call__] *)

(** [sum((wi * xi for wi, xi in pairs), start)]: the generator yields one
    product at a time, and [sum] adds it to the running total before it
    asks for the next. *)
Fixpoint py_sum (pairs : list (ref * operand)) (start : ref) : M ref :=
  match pairs with
  | [] => ret start
  | (wi, xi) :: rest =>
      let* p := __mul__ wi xi in
      let* acc := __add__ start (ONode p) in
      py_sum rest acc
  end.

(** [Neuron.__call__]: [zip(self.w, x)] raises [TypeError] when [x] is a
    [Value], which is not iterable. *)
Definition Neuron_call (n : Neuron) (x : py_arg) : M ref :=
  match x with
  | PyList xs =>
      let* act := py_sum (zip (w n) xs) (b n) in
      tanh act
  | PyValue _ => raise TypeError
  end.

(** [[n(x) for n in self.neurons]] *)
Fixpoint call_neurons (ns : list Neuron) (x : py_arg) : M (list ref) :=
  match ns with
  | [] => ret []
  | n :: rest =>
      let* o := Neuron_call n x in
      let* os := call_neurons rest x in
      ret (o :: os)
  end.

(** [Layer.__call__]: [outs[0] if len(outs) == 1 else outs] *)
Definition Layer_call (l : Layer) (x : py_arg) : M py_arg :=
  let* outs := call_neurons (neurons l) x in
  ret (match outs with
       | [o] => PyValue o
       | _ => PyList (ONode <$> outs)
       end).

(** [for layer in self.layers: x = layer(x)] *)
Fixpoint call_layers (ls : list Layer) (x : py_arg) : M py_arg :=
  match ls with
  | [] => ret x
  | l :: rest =>
      let* y := Layer_call l x in
      call_layers rest y
  end.

(** [MLP.__call__] *)
Definition MLP_call (m : MLP) (x : py_arg) : M py_arg :=
  call_layers (layers m) x.

(** The number of parameters of an [MLP] with layer sizes [sz]. *)
Fixpoint param_count (sz : list nat) : nat :=
  match sz with
  | nin :: rest =>
      match rest with
      | nout :: _ => (S nin * nout + param_count rest)%nat
      | [] => O
      end
  | [] => O
  end.

(** The number an operand stands for in a product. *)
Definition operand_value (h : heap) (o : operand) : num :=
  match o with
  | ONode v => data (h !!! v)
  | OConst k => k
  | OOther => zero
  end.

(** [b + w1*x1 + ... + wm*xm], added up in the order of [sum]. *)
Fixpoint weighted_sum (h : heap) (pairs : list (ref * operand))
    (start : num) : num :=
  match pairs with
  | [] => start
  | (wi, xi) :: rest =>
      weighted_sum h rest (start + data (h !!! wi) * operand_value h xi)
  end.

Definition operand_in (h : heap) (o : operand) : Prop :=
  match o with
  | ONode v => v < length h
  | OConst _ => True
  | OOther => False
  end.

(** A weight and the input [zip] pairs it with, both in the arena. *)
Definition pair_in (h : heap) (p : ref * operand) : Prop :=
  p.1 < length h ∧ operand_in h p.2.


End Network.

(** What the constructors of the network classes did to the arena: they
    appended [length ps] leaves, one per draw of [rnd] from the [k]-th on,
    and [ps] lists the new objects in the order of their creation. *)
Definition built `{Num} (rnd : nat → num) (k : nat) (h : heap)
    (ps : list ref) (k' : nat) (h' : heap) : Prop :=
  ps = seq (length h) (length ps) ∧
  k' = (k + length ps)%nat ∧
  ∃ l, h' = h ++ l ∧ length l = length ps ∧
       ∀ j v, l !! j = Some v →
         data v = rnd (k + j)%nat ∧ grad v = zero ∧
         _prev v = ∅ ∧ _backward v = lambda_None.


(** ** More closed examples over the reals *)

Module NetworkExamples.

(** [a = Value(3.0); b = Value(4.0)] *)
Definition two_leaves : heap :=
  [mkValue 3%R 0%R lambda_None ∅ op_none "";
   mkValue 4%R 0%R lambda_None ∅ op_none ""].

(** [x = Value(3.0)] with the gradient [10] of an earlier pass still on
    it, then [y = x * 2; z = y * 5] built anew. *)
Definition stale_chain_heap : heap :=
  [mkValue 3%R 10%R lambda_None ∅ op_none "";
   mkValue 6%R 0%R (mul_backward 0 (OConst 2%R) 1) {[0]} op_mul "";
   mkValue 30%R 0%R (mul_backward 1 (OConst 5%R) 2) {[1]} op_mul ""].

(** [w = Value(3.0); b = Value(-6.0)], the weight and the bias of a
    neuron. *)
Definition neuron_leaves : heap :=
  [mkValue 3%R 0%R lambda_None ∅ op_none "w";
   mkValue (-6)%R 0%R lambda_None ∅ op_none "b"].

(** A neuron with one weight, object [0], and the bias, object [1]. *)
Definition one_weight : Neuron := mkNeuron [0] 1.

(** The input [x = [2.0]], and a surplus entry [7.0]. *)
Definition x_in : list (@operand real_num) := [OConst 2%R].

Definition x_more : list (@operand real_num) := [OConst 7%R].

End NetworkExamples.


(** ** Properties *)

Section Properties.
Context {N : Num}.
Local Open Scope num_scope.

Add Ring num_ring_inst : num_ring.

(** *** The arena *)

Lemma alter_new (f : Value → Value) (h : heap) (v : Value) :
  alter f (length h) (h ++ [v]) = h ++ [f v].
Proof.
  rewrite alter_app_r_alt by lia. by rewrite Nat.sub_diag.
Qed.

Lemma lookup_total_new (h : heap) (v : Value) :
  (h ++ [v]) !!! length h = v.
Proof.
  apply list_lookup_total_correct.
  rewrite lookup_app_r by lia. by rewrite Nat.sub_diag.
Qed.

Lemma list_to_set_one (a : ref) : list_to_set [a] =@{gset ref} {[a]}.
Proof. simpl. by rewrite (right_id_L ∅ (∪)). Qed.

Lemma list_to_set_two (a b : ref) : list_to_set [a; b] =@{gset ref} {[a; b]}.
Proof. simpl. by rewrite (right_id_L ∅ (∪)). Qed.

(** *** The shape of the node each primitive creates *)

Lemma add_node_node self o h :
  __add__ self (ONode o) h =
  (Ok (length h),
   h ++ [new_node (data (h !!! self) + data (h !!! o))
           (add_backward self (ONode o) (length h)) [self; o] op_add]).
Proof. unfold __add__, bind; cbn. by rewrite alter_new. Qed.

Lemma add_node_const self k h :
  __add__ self (OConst k) h =
  (Ok (length h),
   h ++ [new_node (data (h !!! self) + k)
           (add_backward self (OConst k) (length h)) [self] op_add]).
Proof. unfold __add__, bind; cbn. by rewrite alter_new. Qed.

Lemma add_other self h : __add__ self OOther h = (Raise TypeError, h).
Proof. reflexivity. Qed.

Lemma mul_node_node self o h :
  __mul__ self (ONode o) h =
  (Ok (length h),
   h ++ [new_node (data (h !!! self) * data (h !!! o))
           (mul_backward self (ONode o) (length h)) [self; o] op_mul]).
Proof. unfold __mul__, bind; cbn. by rewrite alter_new. Qed.

Lemma mul_node_const self k h :
  __mul__ self (OConst k) h =
  (Ok (length h),
   h ++ [new_node (data (h !!! self) * k)
           (mul_backward self (OConst k) (length h)) [self] op_mul]).
Proof. unfold __mul__, bind; cbn. by rewrite alter_new. Qed.

Lemma mul_other self h : __mul__ self OOther h = (Raise TypeError, h).
Proof. reflexivity. Qed.

Lemma pow_const self k h :
  __pow__ self (OConst k) h =
  match data (h !!! self) ** k with
  | Ok p =>
      (Ok (length h),
       h ++ [new_node p (pow_backward self k (length h)) [self] (op_pow k)])
  | Raise e => (Raise e, h)
  end.
Proof.
  unfold __pow__, bind, lift; cbn.
  destruct (data (h !!! self) ** k); [|done]. by rewrite alter_new.
Qed.

Lemma exp_node self h :
  exp self h =
  match math_exp (data (h !!! self)) with
  | Ok e =>
      (Ok (length h),
       h ++ [new_node e (exp_backward self (length h)) [self] op_exp])
  | Raise err => (Raise err, h)
  end.
Proof.
  unfold exp, bind, lift; cbn.
  destruct (math_exp (data (h !!! self))); [|done]. by rewrite alter_new.
Qed.

Lemma tanh_node self h :
  tanh self h =
  match tanh_of (data (h !!! self)) with
  | Ok t =>
      (Ok (length h),
       h ++ [new_node t (tanh_backward self t (length h)) [self] op_tanh])
  | Raise err => (Raise err, h)
  end.
Proof.
  unfold tanh, bind, lift; cbn.
  destruct (tanh_of (data (h !!! self))); [|done]. by rewrite alter_new.
Qed.

Lemma neg_node self h :
  __neg__ self h =
  (Ok (length h),
   h ++ [new_node (data (h !!! self) * minus_one)
           (mul_backward self (OConst minus_one) (length h)) [self] op_mul]).
Proof. apply mul_node_const. Qed.

(** The ways a primitive can end, as one statement: it raises, for an
    operand it does not support or in its arithmetic, and leaves the arena
    alone, or it appends one node with zero gradient. *)
Lemma primitive_appends op h r h' :
  primitive op = true → run_op op h = (r, h') →
  (∃ e, r = Raise e ∧ h' = h ∧
        (well_typed op = false ∨ arithmetic op h = Raise e)) ∨
  (∃ d c o l, r = Ok (length h) ∧
     h' = h ++ [mkValue d zero c (list_to_set (node_inputs op)) o l] ∧
     (c = lambda_None ∨
      (captured_out c = Some (length h) ∧
       is_supported (captured_other c) = true ∧
       targets c = node_inputs op))).
Proof.
  intros Hp Hrun. destruct op as [d l|a o|a o|a o|a|a|a|a o|a o];
    try discriminate Hp; cbn [run_op] in Hrun.
  - inversion Hrun; subst. right. eexists _, _, _, _. eauto.
  - destruct o as [b|k|].
    + rewrite add_node_node in Hrun. inversion Hrun; subst.
      right. eexists _, _, _, _. split_and!; eauto.
    + rewrite add_node_const in Hrun. inversion Hrun; subst.
      right. eexists _, _, _, _. split_and!; eauto.
    + rewrite add_other in Hrun. inversion Hrun; subst. left. eauto.
  - destruct o as [b|k|].
    + rewrite mul_node_node in Hrun. inversion Hrun; subst.
      right. eexists _, _, _, _. split_and!; eauto.
    + rewrite mul_node_const in Hrun. inversion Hrun; subst.
      right. eexists _, _, _, _. split_and!; eauto.
    + rewrite mul_other in Hrun. inversion Hrun; subst. left. eauto.
  - destruct o as [b|k|].
    + inversion Hrun; subst. left. eauto.
    + rewrite pow_const in Hrun. cbn [arithmetic].
      destruct (data (h !!! a) ** k); inversion Hrun; subst.
      * right. eexists _, _, _, _. split_and!; eauto.
      * left. eauto.
    + inversion Hrun; subst. left. eauto.
  - rewrite exp_node in Hrun. cbn [arithmetic].
    destruct (math_exp (data (h !!! a))); inversion Hrun; subst.
    + right. eexists _, _, _, _. split_and!; eauto.
    + left. eauto.
  - rewrite tanh_node in Hrun. cbn [arithmetic].
    destruct (tanh_of (data (h !!! a))); inversion Hrun; subst.
    + right. eexists _, _, _, _. split_and!; eauto.
    + left. eauto.
Qed.

(** Every operation, derived ones included, only appends to the arena:
    nodes with zero gradient, at least one when it returns and none when
    it raises; and it raises only for an operand it does not support or
    in its arithmetic. *)
Lemma run_op_appends op h r h' :
  run_op op h = (r, h') →
  ∃ l, h' = h ++ l ∧ Forall (λ v, grad v = zero) l ∧
       (∀ out, r = Ok out → length h ≤ out < length h') ∧
       (∀ e, r = Raise e →
          l = [] ∧ (well_typed op = false ∨ arithmetic op h = Raise e)).
Proof.
  assert (Hprim : ∀ op h r h', primitive op = true →
    run_op op h = (r, h') →
    ∃ l, h' = h ++ l ∧ Forall (λ v, grad v = zero) l ∧
         (∀ out, r = Ok out → length h ≤ out < length h') ∧
         (∀ e, r = Raise e →
            l = [] ∧ (well_typed op = false ∨ arithmetic op h = Raise e))).
  { clear. intros op h r h' Hp Hrun.
    destruct (primitive_appends _ _ _ _ Hp Hrun)
      as [(e & -> & -> & Hty)|(d & c & o & l & -> & -> & _)].
    - exists []. rewrite app_nil_r. split_and!; [done|constructor|done|].
      by intros e' [= <-].
    - eexists [_]. split_and!; [done|by repeat constructor| |done].
      intros out [= <-]. rewrite length_app. simpl. lia. }
  intros Hrun. destruct op as [d l|a o|a o|a o|a|a|a|a o|a o];
    try (by apply Hprim).
  - destruct (Hprim (F_mul a (OConst minus_one)) h r h' eq_refl Hrun)
      as (l & -> & Hz & Hout & Hr).
    exists l. split_and!; [done..|].
    intros e He. destruct (Hr e He) as [-> [Hty|Hty]]; discriminate Hty.
  - cbn [run_op] in Hrun. unfold __sub__, bind in Hrun.
    destruct o as [b|k|]; cbn [py_neg] in Hrun.
    + unfold fmapM, bind in Hrun. rewrite neg_node in Hrun.
      cbn -[__add__] in Hrun.
      rewrite add_node_node in Hrun. inversion Hrun; subst.
      eexists [_; _]. rewrite <- app_assoc. split_and!;
        [done|by repeat constructor| |done].
      intros out [= <-]. rewrite !length_app. simpl. lia.
    + cbn -[__add__] in Hrun.
      destruct (Hprim (F_add a (OConst (- k))) h r h' eq_refl Hrun)
        as (l & -> & Hz & Hout & Hr).
      exists l. split_and!; [done..|].
      intros e He. destruct (Hr e He) as [-> [Hty|Hty]]; discriminate Hty.
    + inversion Hrun; subst. exists []. rewrite app_nil_r.
      split_and!; [done|constructor|done|]. intros e _. split; [done|by left].
  - cbn [run_op] in Hrun. unfold __truediv__, bind in Hrun.
    destruct o as [b|k|]; cbn [py_pow_minus_one arithmetic] in Hrun |- *.
    + unfold fmapM, bind in Hrun. rewrite pow_const in Hrun.
      destruct (data (h !!! b) ** minus_one) as [p|e0].
      * cbn -[__mul__] in Hrun.
        rewrite mul_node_node in Hrun. inversion Hrun; subst.
        eexists [_; _]. rewrite <- app_assoc. split_and!;
          [done|by repeat constructor| |done].
        intros out [= <-]. rewrite !length_app. simpl. lia.
      * inversion Hrun; subst. exists []. rewrite app_nil_r.
        split_and!; [done|constructor|done|].
        intros e [= <-]. split; [done|by right].
    + unfold fmapM, bind, lift in Hrun.
      destruct (k ** minus_one) as [p|e0].
      * cbn -[__mul__] in Hrun.
        destruct (Hprim (F_mul a (OConst p)) h r h' eq_refl Hrun)
          as (l & -> & Hz & Hout & Hr).
        exists l. split_and!; [done..|].
        intros e He. destruct (Hr e He) as [-> [Hty|Hty]]; discriminate Hty.
      * inversion Hrun; subst. exists []. rewrite app_nil_r.
        split_and!; [done|constructor|done|].
        intros e [= <-]. split; [done|by right].
    + inversion Hrun; subst. exists []. rewrite app_nil_r.
      split_and!; [done|constructor|done|]. intros e _. split; [done|by left].
Qed.

(** An operation whose arithmetic raises, raises with it, before any
    node is created. *)
Lemma arithmetic_raises op h e :
  arithmetic op h = Raise e → run_op op h = (Raise e, h).
Proof.
  intros Har.
  destruct op as [d l|a o|a o|a [b|k|]|a|a|a|a o|a [b|k|]];
    cbn [arithmetic] in Har; try discriminate Har; cbn [run_op].
  - by rewrite pow_const, Har.
  - by rewrite exp_node, Har.
  - by rewrite tanh_node, Har.
  - unfold __truediv__, bind, py_pow_minus_one, fmapM, bind.
    by rewrite pow_const, Har.
  - unfold __truediv__, bind, py_pow_minus_one, fmapM, bind, lift.
    by rewrite Har.
Qed.

(** *** Claims about the operation surface *)

Lemma const_add_node k a h :
  py_binop Add (OConst k) (ONode a) h =
    (Ok (ONode (length h)),
     h ++ [mkValue (data (h !!! a) + k) zero
             (add_backward a (OConst k) (length h)) {[a]} op_add ""]).
Proof.
  cbn [py_binop Value_reflected]. unfold fmapM, bind, __radd__.
  rewrite add_node_const. cbn [ret].
  unfold new_node. by rewrite list_to_set_one.
Qed.

Lemma const_mul_node k a h :
  py_binop Mul (OConst k) (ONode a) h =
    (Ok (ONode (length h)),
     h ++ [mkValue (data (h !!! a) * k) zero
             (mul_backward a (OConst k) (length h)) {[a]} op_mul ""]).
Proof.
  cbn [py_binop Value_reflected]. unfold fmapM, bind, __rmul__.
  rewrite mul_node_const. cbn [ret].
  unfold new_node. by rewrite list_to_set_one.
Qed.

(** C4. [power(a, exponent)] with an exponent that is not a plain number
    (another node, or an object of any other type) raises the
    [UnsupportedOperand] error of [__pow__], its failed assertion, and
    returns the arena exactly as it received it: no node was created and
    none was changed.  The same holds of the expression [a ** exponent]. *)
Theorem pow_rejects_non_constant (self : ref) (other : operand) (h : heap) :
  is_number other = false →
  UnsupportedOperand AssertionError ∧
  __pow__ self other h = (Raise AssertionError, h) ∧
  py_binop Pow (ONode self) other h = (Raise AssertionError, h).
Proof.
  intros Hn. split; [by left|].
  destruct other as [b|k|]; try discriminate Hn; done.
Qed.

(** C7. [constant + node] runs [__radd__], which is [node + constant],
    and [constant * node] runs [__rmul__], which is [node * constant]:
    from the same arena both orders return the same new node, with value
    [a.data + k] (resp. [a.data * k]), the operand set [{a}] and the
    closure of [__add__] (resp. [__mul__]) over [a] and [k]. *)
Theorem reflected_add_mul (k : num) (a : ref) (h : heap) :
  py_binop Add (OConst k) (ONode a) h = py_binop Add (ONode a) (OConst k) h ∧
  py_binop Add (OConst k) (ONode a) h =
    (Ok (ONode (length h)),
     h ++ [mkValue (data (h !!! a) + k) zero
             (add_backward a (OConst k) (length h)) {[a]} op_add ""]) ∧
  py_binop Mul (OConst k) (ONode a) h = py_binop Mul (ONode a) (OConst k) h ∧
  py_binop Mul (OConst k) (ONode a) h =
    (Ok (ONode (length h)),
     h ++ [mkValue (data (h !!! a) * k) zero
             (mul_backward a (OConst k) (length h)) {[a]} op_mul ""]).
Proof.
  split_and!; [reflexivity|apply const_add_node|reflexivity|
               apply const_mul_node].
Qed.

(** C8. The derived methods are the compositions the specification names:
    [__neg__] is [multiply(a, -1)], [__sub__] on two nodes is
    [add(a, negate(b))] and [__truediv__] on two nodes is
    [multiply(a, power(b, -1))]; they run the same computation, so they
    create the same nodes with the same values and closures. *)
Theorem derived_ops_are_compositions (a b : ref) (h : heap) :
  __neg__ a h = spec_negate a h ∧
  __sub__ a (ONode b) h = spec_subtract a b h ∧
  __truediv__ a (ONode b) h = spec_divide a b h.
Proof.
  split_and!.
  - reflexivity.
  - unfold __sub__, spec_subtract, spec_negate, py_neg, fmapM, bind.
    rewrite neg_node. unfold __neg__. rewrite mul_node_const. reflexivity.
  - unfold __truediv__, spec_divide, py_pow_minus_one, fmapM, bind.
    rewrite pow_const. by destruct (data (h !!! b) ** minus_one).
Qed.

(** C10. [Value] defines no [__rsub__] and no [__rtruediv__]: [k - a] and
    [k / a] raise [TypeError] and leave the arena untouched, while [k + a]
    and [k * a] return a node. *)
Theorem reflected_sub_div_missing (k : num) (a : ref) (h : heap) :
  py_binop Sub (OConst k) (ONode a) h = (Raise TypeError, h) ∧
  py_binop Div (OConst k) (ONode a) h = (Raise TypeError, h) ∧
  (∃ out h', py_binop Add (OConst k) (ONode a) h = (Ok (ONode out), h')) ∧
  (∃ out h', py_binop Mul (OConst k) (ONode a) h = (Ok (ONode out), h')).
Proof.
  split_and!; [reflexivity|reflexivity| |].
  - rewrite const_add_node. eauto.
  - rewrite const_mul_node. eauto.
Qed.

(** C5 (as amended). [_prev] is [set(_children)]: the node a primitive
    operation creates records the set of its [Value] inputs, without order
    and without repetition.  It has as many members as there are distinct
    inputs, at most two, so a binary operation applied to the same node
    twice records one operand; a leaf records none. *)
Theorem operands_are_input_set (op : forward_op) (h : heap) (out : ref)
    (h' : heap) :
  primitive op = true →
  run_op op h = (Ok out, h') →
  _prev (h' !!! out) = list_to_set (node_inputs op) ∧
  size (_prev (h' !!! out)) = length (remove_dups (node_inputs op)) ∧
  size (_prev (h' !!! out)) ≤ 2 ∧
  (∀ d l, op = F_leaf d l → _prev (h' !!! out) = ∅).
Proof.
  intros Hp Hrun.
  destruct (primitive_appends _ _ _ _ Hp Hrun)
    as [(e & [=] & _)|(d & c & o & l & [= ->] & -> & _)].
  rewrite lookup_total_new. cbn [_prev].
  assert (Hsize : size (list_to_set (C:=gset ref) (node_inputs op)) =
                  length (remove_dups (node_inputs op))).
  { rewrite <- (size_list_to_set (C:=gset ref))
      by apply NoDup_remove_dups.
    f_equal. apply set_eq. intros x.
    by rewrite !elem_of_list_to_set, elem_of_remove_dups. }
  split_and!; [done|done| |by intros ? ? ->].
  rewrite Hsize.
  transitivity (length (node_inputs op)).
  - clear. induction (node_inputs op) as [|x xs IH]; simpl; [lia|].
    case_decide; simpl; lia.
  - clear. destruct op as [? ?|? []|? []|? ?|?|?|?|? []|? []]; simpl; lia.
Qed.

(** C6. Whatever an operation does, every node that existed before is,
    at the same index, the very same record afterwards: [data], [grad],
    [_prev] and [_backward] are untouched.  No closure is called while the
    graph is built: the gradients of the old nodes are unchanged and those
    of the new nodes are still the [0.0] of [__init__].  An operation that
    returns, returns a node that did not exist before; one that raises
    leaves the arena as it was, and it raises only for an operand of a
    kind it does not support or when its arithmetic raises
    ([ZeroDivisionError], [OverflowError]): applied to supported operands
    on which its arithmetic returns, it returns a new node. *)
Theorem forward_frame (op : forward_op) (h : heap) (r : result ref)
    (h' : heap) :
  run_op op h = (r, h') →
  (∀ i v, h !! i = Some v → h' !! i = Some v) ∧
  (∀ i v, h' !! i = Some v → length h ≤ i → grad v = zero) ∧
  match r with
  | Ok out => length h ≤ out < length h'
  | Raise e =>
      h' = h ∧ (well_typed op = false ∨ arithmetic op h = Raise e)
  end ∧
  (well_typed op = true → is_ok (arithmetic op h) = true →
   ∃ out, r = Ok out) ∧
  (∀ e, arithmetic op h = Raise e → r = Raise e).
Proof.
  intros Hrun.
  assert (Hraise : ∀ e, arithmetic op h = Raise e → r = Raise e).
  { intros e He. rewrite (arithmetic_raises _ _ _ He) in Hrun. congruence. }
  destruct (run_op_appends _ _ _ _ Hrun) as (l & -> & Hz & Hout & Hr).
  split_and!; [| | | |done].
  - intros i v Hi. by apply lookup_app_l_Some.
  - intros i v Hi Hge. rewrite lookup_app_r in Hi by done.
    rewrite Forall_lookup in Hz. eauto.
  - destruct r as [out|e]; [by apply Hout|].
    destruct (Hr e eq_refl) as [-> Hwhy]. by rewrite app_nil_r.
  - intros Hty Har. destruct r as [out|e]; [by eauto|].
    destruct (Hr e eq_refl) as [_ [Hwhy|Hwhy]]; [congruence|].
    rewrite Hwhy in Har. discriminate.
Qed.

(** *** [build_topo] *)

Lemma ordered_snoc (h : heap) (topo : list ref) (v : ref) :
  ordered h topo →
  (∀ c, c ∈ _prev (h !!! v) → c ∈ topo) →
  ordered h (topo ++ [v]).
Proof.
  intros Ho Hc j u c Hj Hcu.
  destruct (decide (j < length topo)) as [Hlt|Hge].
  - rewrite lookup_app_l in Hj by done.
    destruct (Ho _ _ _ Hj Hcu) as (i & Hi & Hic).
    exists i. split; [done|]. by apply lookup_app_l_Some.
  - rewrite lookup_app_r in Hj by lia.
    destruct (j - length topo)%nat as [|k] eqn:E; [|by destruct k].
    injection Hj as <-. apply Hc in Hcu.
    apply list_elem_of_lookup in Hcu as [i Hi]. exists i. split.
    + apply lookup_lt_Some in Hi. lia.
    + by apply lookup_app_l_Some.
Qed.

(** The call stack never grows past the number of objects not yet
    visited, so [build_topo] returns on every closed arena, cyclic or
    not. *)
Lemma build_topo_total (h : heap) (D : gset ref) (fuel : nat) :
  closed h → (∀ v, v < length h → v ∈ D) →
  ∀ v s, v < length h → size (D ∖ s.1) < fuel →
  ∃ s', build_topo fuel h v s = Some s' ∧ s.1 ⊆ s'.1.
Proof.
  intros Hcl HD. induction fuel as [|n IH]; intros v s Hv Hsz; [lia|].
  cbn [build_topo]. case_decide as Hvis; [by eauto|].
  assert (Hloop : ∀ cs s0,
    (∀ c, c ∈ cs → c < length h) → size (D ∖ s0.1) < n →
    ∃ s', for_each (build_topo n h) cs s0 = Some s' ∧ s0.1 ⊆ s'.1).
  { induction cs as [|c cs IHcs]; intros s0 Hcs Hs0; cbn [for_each];
      [by eauto|].
    destruct (IH c s0) as (s1 & -> & Hsub); [apply Hcs; left|done|].
    destruct (IHcs s1) as (s2 & -> & Hsub2).
    - intros; apply Hcs; by right.
    - eapply Nat.le_lt_trans; [|exact Hs0].
      apply subseteq_size. set_solver.
    - eexists; split; [done|]. set_solver. }
  destruct (Hloop (elements (_prev (h !!! v))) ({[v]} ∪ s.1, s.2))
    as (s1 & -> & Hsub).
  - intros c Hc. apply elem_of_elements in Hc.
    eapply Hcl; [|exact Hc]. by apply list_lookup_lookup_total_lt.
  - cbn [fst]. pose proof (HD v Hv) as HvD.
    assert (size (D ∖ ({[v]} ∪ s.1)) < size (D ∖ s.1)); [|lia].
    apply subset_size. set_solver.
  - eexists; split; [done|]. cbn [fst] in *. set_solver.
Qed.

Lemma dfs_post_refl (h : heap) (s : topo_state) :
  dfs_inv h s → dfs_post h s s.
Proof.
  intros Hinv. split_and!; [done|done| |done].
  exists []. rewrite app_nil_r. split; [done|]. by intros u ?%elem_of_nil.
Qed.

Lemma dfs_post_trans (h : heap) (s0 s1 s2 : topo_state) :
  dfs_post h s0 s1 → dfs_post h s1 s2 → dfs_post h s0 s2.
Proof.
  intros (_ & Hsub1 & (new1 & Hn1 & Hf1) & Hp1)
         (Hinv & Hsub2 & (new2 & Hn2 & Hf2) & Hp2).
  split_and!; [done|set_solver| |by auto].
  exists (new1 ++ new2). split.
  - by rewrite Hn2, Hn1, app_assoc.
  - intros u [Hu|Hu]%elem_of_app; [by auto|]. apply Hf2 in Hu. set_solver.
Qed.

(** The depth-first traversal on an acyclic arena: a completed call has
    appended [v] (and whatever it still had to visit below [v]) to [topo],
    keeping [topo] duplicate-free and ordered, and left no new node
    pending. *)
Lemma build_topo_spec (h : heap) (rank : ref → nat) (fuel : nat) :
  (∀ u c, c ∈ _prev (h !!! u) → rank c < rank u) →
  ∀ v s s', build_topo fuel h v s = Some s' →
    dfs_inv h s → (∀ p, pending s p → rank v < rank p) →
    dfs_post h s s' ∧ v ∈ s'.2.
Proof.
  intros Hrank. induction fuel as [|n IH]; intros v s s' Hrun Hinv Hpend;
    [discriminate|].
  cbn [build_topo] in Hrun. case_decide as Hvis.
  { injection Hrun as <-. split; [by apply dfs_post_refl|].
    destruct (decide (v ∈ s.2)) as [|Hnot]; [done|].
    specialize (Hpend v (conj Hvis Hnot)). lia. }
  assert (Hloop : ∀ cs s0 s1,
    for_each (build_topo n h) cs s0 = Some s1 → dfs_inv h s0 →
    (∀ c p, c ∈ cs → pending s0 p → rank c < rank p) →
    dfs_post h s0 s1 ∧ ∀ c, c ∈ cs → c ∈ s1.2).
  { induction cs as [|c cs IHcs]; intros s0 s1 Hfor Hinv0 Hp0;
      cbn [for_each] in Hfor.
    - injection Hfor as <-. split; [by apply dfs_post_refl|].
      by intros c ?%elem_of_nil.
    - destruct (build_topo n h c s0) as [sa|] eqn:Hc; [|discriminate].
      destruct (IH _ _ _ Hc Hinv0) as [Hpa Hca].
      { intros p Hp. apply Hp0; [by left|done]. }
      destruct (IHcs _ _ Hfor) as [Hpb Hcb].
      { apply Hpa. }
      { intros c' p Hc' Hp. apply Hp0; [by right|]. by apply Hpa. }
      split; [by eapply dfs_post_trans|].
      intros c' [->|Hc']%elem_of_cons; [|by auto].
      destruct Hpb as (_ & _ & (new & -> & _) & _).
      apply elem_of_app. by left. }
  destruct (for_each (build_topo n h) (elements (_prev (h !!! v)))
              ({[v]} ∪ s.1, s.2)) as [s1|] eqn:Hfor; [|discriminate].
  injection Hrun as <-.
  destruct Hinv as (Hnd & Hsubs & Hord).
  destruct (Hloop _ _ _ Hfor) as [(Hinv1 & Hsub1 & (new & Hnew & Hfresh) & Hp1) Hch].
  { split_and!; cbn [fst snd]; [done|set_solver|done]. }
  { intros c p Hc [Hp1 Hp2]. cbn [fst snd] in *.
    apply elem_of_elements in Hc. pose proof (Hrank _ _ Hc) as Hlt.
    apply elem_of_union in Hp1 as [->%elem_of_singleton|Hp1]; [done|].
    specialize (Hpend p (conj Hp1 Hp2)). lia. }
  cbn [fst snd] in *.
  destruct Hinv1 as (Hnd1 & Hsubs1 & Hord1).
  assert (Hv1 : v ∉ s1.2).
  { rewrite Hnew. intros [Hv|Hv]%elem_of_app.
    - apply Hvis. by apply Hsubs.
    - apply Hfresh in Hv. set_solver. }
  split; [|apply elem_of_app; right; by left].
  split_and!; cbn [fst snd].
  - split_and!; cbn [fst snd].
    + apply NoDup_app. split_and!; [done| |apply NoDup_singleton].
      intros u Hu ->%list_elem_of_singleton. done.
    + intros u [Hu| ->%list_elem_of_singleton]%elem_of_app; [by auto|].
      set_solver.
    + apply ordered_snoc; [done|].
      intros c Hc. apply Hch. by apply elem_of_elements.
  - set_solver.
  - exists (new ++ [v]). split; [by rewrite Hnew, app_assoc|].
    intros u [Hu| ->%list_elem_of_singleton]%elem_of_app; [|done].
    apply Hfresh in Hu. set_solver.
  - intros p [Hp Hnp]. cbn [fst snd] in *.
    rewrite elem_of_app, list_elem_of_singleton in Hnp.
    destruct (Hp1 p) as [Hq Hnq]; [split; [done|tauto]|].
    cbn [fst snd] in *. split; [|done].
    apply elem_of_union in Hq as [->%elem_of_singleton|Hq]; [tauto|done].
Qed.

Lemma reachable_trans (h : heap) (a b c : ref) :
  reachable h a b → reachable h b c → reachable h a c.
Proof.
  intros Hab Hbc. induction Hbc as [|u c Hbu IH Hc]; [done|].
  by eapply reach_step.
Qed.

Lemma reachable_operand (h : heap) (v c u : ref) :
  c ∈ _prev (h !!! v) → reachable h c u → reachable h v u.
Proof.
  intros Hc Hcu. eapply reachable_trans; [|exact Hcu].
  eapply reach_step; [apply reach_refl|done].
Qed.

(** [build_topo(v)] only appends nodes reachable from [v]. *)
Lemma build_topo_reachable (h : heap) (fuel : nat) :
  ∀ v s s', build_topo fuel h v s = Some s' →
    ∀ u, u ∈ s'.2 → u ∈ s.2 ∨ reachable h v u.
Proof.
  induction fuel as [|n IH]; intros v s s' Hrun u Hu; [discriminate|].
  cbn [build_topo] in Hrun. case_decide as Hvis.
  { injection Hrun as <-. by left. }
  assert (Hloop : ∀ cs s0 s1,
    for_each (build_topo n h) cs s0 = Some s1 →
    ∀ u, u ∈ s1.2 → u ∈ s0.2 ∨ ∃ c, c ∈ cs ∧ reachable h c u).
  { clear -IH. induction cs as [|c cs IHcs]; intros s0 s1 Hfor u Hu;
      cbn [for_each] in Hfor.
    - injection Hfor as <-. by left.
    - destruct (build_topo n h c s0) as [sa|] eqn:Hc; [|discriminate].
      destruct (IHcs _ _ Hfor _ Hu) as [Hin|(c' & Hc' & Hr)].
      + destruct (IH _ _ _ Hc _ Hin) as [?|Hr]; [by left|].
        right. exists c. split; [by left|done].
      + right. exists c'. split; [by right|done]. }
  destruct (for_each (build_topo n h) (elements (_prev (h !!! v)))
              ({[v]} ∪ s.1, s.2)) as [s1|] eqn:Hfor; [|discriminate].
  injection Hrun as <-. cbn [snd] in Hu.
  apply elem_of_app in Hu as [Hu| ->%list_elem_of_singleton];
    [|right; apply reach_refl].
  destruct (Hloop _ _ _ Hfor _ Hu) as [?|(c & Hc & Hr)]; [by left|].
  right. apply elem_of_elements in Hc. by eapply reachable_operand.
Qed.

Lemma acyclic_total (h : heap) :
  acyclic h →
  ∃ rank : ref → nat, ∀ u c, c ∈ _prev (h !!! u) → rank c < rank u.
Proof.
  intros [rank Hr]. exists rank. intros u c Hc.
  destruct (h !! u) as [v|] eqn:E.
  - rewrite (list_lookup_total_correct _ _ _ E) in Hc. eauto.
  - rewrite list_lookup_total_alt, E in Hc. cbn in Hc. set_solver.
Qed.

Lemma wf_closed (h : heap) : wf h → closed h.
Proof.
  intros Hwf i v c Hi Hc. destruct (Hwf _ _ Hi) as [Hlt _].
  apply Hlt in Hc. apply lookup_lt_Some in Hi. lia.
Qed.

Lemma wf_acyclic (h : heap) : wf h → acyclic h.
Proof.
  intros Hwf. exists (λ i, i). intros i v c Hi Hc.
  destruct (Hwf _ _ Hi) as [Hlt _]. by apply Hlt.
Qed.

Lemma topo_order_last (limit : nat) (h : heap) (root : ref)
    (topo : list ref) :
  topo_order limit h root = Some topo → ∃ T, topo = T ++ [root].
Proof.
  unfold topo_order. destruct limit as [|n]; [discriminate|].
  cbn [build_topo].
  rewrite decide_False by set_solver.
  destruct (for_each _ _ _) as [s1|]; [|discriminate].
  intros [= <-]. by eexists.
Qed.

Lemma size_arena (h : heap) :
  size (list_to_set (C:=gset ref) (seq 0 (length h))) = length h.
Proof.
  rewrite size_list_to_set by apply NoDup_seq. apply length_seq.
Qed.

(** With a frame for every object and one more, [build_topo(self)]
    returns on every closed arena. *)
Lemma topo_order_total (h : heap) (root : ref) :
  closed h → root < length h →
  ∃ topo, topo_order (S (length h)) h root = Some topo.
Proof.
  intros Hcl Hroot. unfold topo_order.
  destruct (build_topo_total h (list_to_set (seq 0 (length h)))
              (S (length h)) Hcl) with (v := root) (s := (∅, []) : topo_state)
    as (s' & -> & _); [| |cbn [fst]|by eexists].
  - intros v Hv. apply elem_of_list_to_set, elem_of_seq. lia.
  - done.
  - pose proof (size_arena h) as Hsz.
    assert (Hle : size (list_to_set (C:=gset ref) (seq 0 (length h)) ∖ ∅)
                  ≤ size (list_to_set (C:=gset ref) (seq 0 (length h)))).
    { apply subseteq_size. set_solver. }
    lia.
Qed.

(** More frames change nothing for a traversal that returned. *)
Lemma build_topo_mono (h : heap) (n : nat) :
  ∀ m v s s', n ≤ m →
    build_topo n h v s = Some s' → build_topo m h v s = Some s'.
Proof.
  induction n as [|n IH]; intros m v s s' Hle Hrun; [discriminate|].
  destruct m as [|m]; [lia|]. cbn [build_topo] in *.
  case_decide; [done|].
  assert (Hloop : ∀ cs s0 s1,
    for_each (build_topo n h) cs s0 = Some s1 →
    for_each (build_topo m h) cs s0 = Some s1).
  { induction cs as [|c cs IHcs]; intros s0 s1 Hfor; cbn [for_each] in *;
      [done|].
    destruct (build_topo n h c s0) as [sa|] eqn:Hc; [|discriminate].
    rewrite (IH m c s0 sa) by (done || lia). by apply IHcs. }
  destruct (for_each (build_topo n h) _ _) as [s1|] eqn:Hfor;
    [|discriminate].
  by rewrite (Hloop _ _ _ Hfor).
Qed.

(** [build_topo(v)] returns when the graph below [v] fits in the frames
    that are left. *)
Lemma build_topo_fits (h : heap) (n : nat) :
  ∀ v s, fits n h v → ∃ s', build_topo n h v s = Some s'.
Proof.
  induction n as [|n IH]; intros v s Hfit; [done|].
  cbn [build_topo fits] in *. case_decide; [by eauto|].
  assert (Hloop : ∀ cs s0, (∀ c, c ∈ cs → fits n h c) →
    ∃ s1, for_each (build_topo n h) cs s0 = Some s1).
  { induction cs as [|c cs IHcs]; intros s0 Hcs; cbn [for_each];
      [by eauto|].
    destruct (IH c s0) as [sa ->]; [apply Hcs; by left|].
    apply IHcs. intros c' Hc'. apply Hcs. by right. }
  destruct (Hloop (elements (_prev (h !!! v))) ({[v]} ∪ s.1, s.2))
    as [s1 ->]; [|by eauto].
  intros c Hc. apply Hfit. by apply elem_of_elements.
Qed.

Lemma topo_order_fits (limit : nat) (h : heap) (root : ref) :
  fits limit h root → ∃ topo, topo_order limit h root = Some topo.
Proof.
  intros Hfit. unfold topo_order.
  destruct (build_topo_fits h limit root (∅, []) Hfit) as [s' ->].
  by eexists.
Qed.

(** A traversal that fits in [limit] frames builds the list it builds
    with a frame for every object. *)
Lemma topo_order_limit (limit : nat) (h : heap) (root : ref) :
  closed h → root < length h → fits limit h root →
  topo_order limit h root = topo_order (S (length h)) h root.
Proof.
  intros Hcl Hroot Hfit.
  destruct (topo_order_fits limit h root Hfit) as [t1 H1].
  destruct (topo_order_total h root Hcl Hroot) as [t2 H2].
  rewrite H1, H2. unfold topo_order in H1, H2.
  destruct (build_topo limit h root (∅, [])) as [s1|] eqn:E1;
    [|discriminate].
  destruct (build_topo (S (length h)) h root (∅, [])) as [s2|] eqn:E2;
    [|discriminate].
  apply (build_topo_mono h _ (limit `max` S (length h))) in E1; [|lia].
  apply (build_topo_mono h _ (limit `max` S (length h))) in E2; [|lia].
  congruence.
Qed.

Lemma fits_mono (h : heap) (n : nat) :
  ∀ m v, n ≤ m → fits n h v → fits m h v.
Proof.
  induction n as [|n IH]; intros m v Hle Hfit; [done|].
  destruct m as [|m]; [lia|]. cbn [fits] in *.
  intros c Hc. apply IH; [lia|by apply Hfit].
Qed.

(** In an arena built by the operations every operand is older than its
    node, so the graph below the object [v] fits in [v + 1] frames. *)
Lemma wf_fits (h : heap) (v : ref) : wf h → fits (S v) h v.
Proof.
  intros Hwf. induction v as [v IH] using lt_wf_ind. cbn [fits].
  intros c Hc. destruct (h !! v) as [n|] eqn:E.
  - rewrite (list_lookup_total_correct _ _ _ E) in Hc.
    destruct (Hwf _ _ E) as [Hlt _]. pose proof (Hlt c Hc).
    apply (fits_mono h (S c)); [lia|]. by apply IH.
  - rewrite list_lookup_total_alt, E in Hc. cbn in Hc. set_solver.
Qed.

(** The list [topo] of [backward] on a closed acyclic arena. *)
Lemma topo_order_spec (h : heap) (root : ref) :
  closed h → acyclic h → root < length h →
  ∃ topo,
    topo_order (S (length h)) h root = Some topo ∧
    NoDup topo ∧
    (∀ u, u ∈ topo ↔ reachable h root u) ∧
    ordered h topo.
Proof.
  intros Hcl Hac Hroot.
  destruct (topo_order_total h root Hcl Hroot) as [topo Htopo].
  exists topo. split; [done|].
  destruct (acyclic_total h Hac) as [rank Hrank].
  unfold topo_order in Htopo.
  destruct (build_topo (S (length h)) h root (∅, [])) as [s'|] eqn:Hrun;
    [|discriminate].
  injection Htopo as <-.
  destruct (build_topo_spec h rank _ Hrank _ _ _ Hrun)
    as [((Hnd & _ & Hord) & _) Hin].
  { split_and!; cbn [fst snd]; [constructor|by intros ? ?%elem_of_nil|].
    intros j v c Hj. by rewrite lookup_nil in Hj. }
  { intros p [Hp _]. cbn [fst] in Hp. set_solver. }
  split_and!; [done| |done].
  intros u. split.
  - intros Hu. destruct (build_topo_reachable _ _ _ _ _ Hrun _ Hu)
      as [Hnil|?]; [|done].
    cbn [snd] in Hnil. by apply elem_of_nil in Hnil.
  - intros Hreach. induction Hreach as [|v c _ IH Hc]; [done|].
    apply list_elem_of_lookup in IH as [j Hj].
    destruct (Hord _ _ _ Hj Hc) as (i & _ & Hi).
    apply list_elem_of_lookup. by exists i.
Qed.

Lemma topo_order_spec_limit (limit : nat) (h : heap) (root : ref) :
  closed h → acyclic h → root < length h → fits limit h root →
  ∃ topo,
    topo_order limit h root = Some topo ∧
    NoDup topo ∧
    (∀ u, u ∈ topo ↔ reachable h root u) ∧
    ordered h topo.
Proof.
  intros Hcl Hac Hroot Hfit. rewrite (topo_order_limit limit) by done.
  by apply topo_order_spec.
Qed.

(** C2. On a closed acyclic arena whose graph below the root fits in
    the [limit] frames the interpreter has left, the traversal of
    [backward] returns, and the list [topo] it builds holds every node at
    most once, holds exactly the nodes reachable from the root, and has
    every operand of a node at a smaller position than the node itself. *)
Theorem topo_order_valid (limit : nat) (h : heap) (root : ref) :
  closed h → acyclic h → root < length h → fits limit h root →
  ∃ topo,
    topo_order limit h root = Some topo ∧
    NoDup topo ∧
    (∀ u, u ∈ topo ↔ reachable h root u) ∧
    (∀ j v c, topo !! j = Some v → c ∈ _prev (h !!! v) →
       ∃ i, i < j ∧ topo !! i = Some c).
Proof. apply topo_order_spec_limit. Qed.


(** *** Gradient updates *)

Lemma skeleton_alter (f : Value → Value) (i : ref) (h : heap) :
  (∀ n, with_grad zero (f n) = with_grad zero n) →
  skeleton (alter f i h) = skeleton h.
Proof.
  intros Hf. unfold skeleton. revert i.
  induction h as [|n h IH]; intros [|i]; cbn; [done|done| |].
  - by rewrite Hf.
  - f_equal. apply IH.
Qed.

Lemma skeleton_length (h h' : heap) :
  skeleton h' = skeleton h → length h' = length h.
Proof.
  intros Hs. apply (f_equal length) in Hs.
  unfold skeleton in Hs. by rewrite !length_fmap in Hs.
Qed.

Lemma skeleton_lookup (h h' : heap) (i : ref) :
  skeleton h' = skeleton h →
  with_grad zero (h' !!! i) = with_grad zero (h !!! i).
Proof.
  intros Hs. pose proof (skeleton_length _ _ Hs) as Hlen.
  destruct (decide (i < length h)) as [Hlt|Hge].
  - unfold skeleton in Hs.
    rewrite <- (list_lookup_total_fmap (with_grad zero) h' i) by lia.
    rewrite <- (list_lookup_total_fmap (with_grad zero) h i) by lia.
    by rewrite Hs.
  - rewrite !list_lookup_total_alt.
    by rewrite !lookup_ge_None_2 by lia.
Qed.

Lemma skeleton_data (h h' : heap) (i : ref) :
  skeleton h' = skeleton h → data (h' !!! i) = data (h !!! i).
Proof. intros Hs. apply (f_equal data (skeleton_lookup h h' i Hs)). Qed.

Lemma skeleton_prev (h h' : heap) (i : ref) :
  skeleton h' = skeleton h → _prev (h' !!! i) = _prev (h !!! i).
Proof. intros Hs. apply (f_equal _prev (skeleton_lookup h h' i Hs)). Qed.

Lemma skeleton_closure (h h' : heap) (i : ref) :
  skeleton h' = skeleton h → _backward (h' !!! i) = _backward (h !!! i).
Proof. intros Hs. apply (f_equal _backward (skeleton_lookup h h' i Hs)). Qed.

(** The invariant read at every index: an index outside the arena reads
    the default object, which has no operands and no closure. *)
Lemma wf_total (h : heap) :
  wf h ↔
  ∀ i, (∀ c, c ∈ _prev (h !!! i) → c < i) ∧
       closure_ok i (_prev (h !!! i)) (_backward (h !!! i)).
Proof.
  split.
  - intros Hwf i. destruct (h !! i) as [v|] eqn:E.
    + rewrite (list_lookup_total_correct _ _ _ E). eauto.
    + rewrite list_lookup_total_alt, E. cbn. split; [set_solver|by left].
  - intros Hall i v Hi. specialize (Hall i).
    by rewrite (list_lookup_total_correct _ _ _ Hi) in Hall.
Qed.

Lemma wf_skeleton (h h' : heap) :
  skeleton h' = skeleton h → wf h → wf h'.
Proof.
  rewrite !wf_total. intros Hs Hwf i.
  rewrite (skeleton_prev _ _ i Hs), (skeleton_closure _ _ i Hs). apply Hwf.
Qed.

Lemma reachable_skeleton (h h' : heap) (v u : ref) :
  skeleton h' = skeleton h → reachable h v u → reachable h' v u.
Proof.
  intros Hs Hr. induction Hr as [|u c _ IH Hc]; [apply reach_refl|].
  eapply reach_step; [exact IH|]. by rewrite (skeleton_prev _ _ u Hs).
Qed.

Lemma reachable_le (h : heap) (v u : ref) :
  wf h → reachable h v u → u ≤ v.
Proof.
  rewrite wf_total. intros Hwf Hr.
  induction Hr as [|u c _ IH Hc]; [done|].
  destruct (Hwf u) as [Hlt _]. apply Hlt in Hc. lia.
Qed.

Lemma reachable_inv (h : heap) (v u : ref) :
  reachable h v u →
  u = v ∨ ∃ c, c ∈ _prev (h !!! v) ∧ reachable h c u.
Proof.
  intros Hr. induction Hr as [|u c Hvu IH Hc]; [by left|]. right.
  destruct IH as [->|(c0 & Hc0 & Hr0)].
  - exists c. split; [done|apply reach_refl].
  - exists c0. split; [done|]. by eapply reach_step.
Qed.

Lemma grad_add_grad (h : heap) (t : ref) (x : num) (v : ref) :
  t < length h →
  grad (alter (λ n, with_grad (grad n + x) n) t h !!! v) =
  grad (h !!! v) + share v t x.
Proof.
  intros Ht. rewrite list_lookup_total_alter. unfold share.
  destruct (decide (v = t)) as [->|Hne].
  - rewrite decide_True by done. done.
  - rewrite decide_False by naive_solver. ring.
Qed.

Lemma data_add_grad (h : heap) (t : ref) (x : num) (v : ref) :
  data (alter (λ n, with_grad (grad n + x) n) t h !!! v) = data (h !!! v).
Proof. apply skeleton_data, skeleton_alter. done. Qed.

Lemma grad_add_grad_ne (h : heap) (t : ref) (x : num) (v : ref) :
  v ≠ t →
  grad (alter (λ n, with_grad (grad n + x) n) t h !!! v) = grad (h !!! v).
Proof. intros Hne. by rewrite list_lookup_total_alter_ne. Qed.

(** A closure reads [data] and writes [grad]: whether its power returns
    does not depend on the gradients. *)
Lemma closure_runs_skeleton (h h' : heap) (c : closure) :
  skeleton h' = skeleton h → closure_runs h' c = closure_runs h c.
Proof.
  intros Hs. destruct c; cbn [closure_runs]; try done.
  by rewrite (skeleton_data _ _ _ Hs).
Qed.

Lemma runs_below_skeleton (h h' : heap) (root : ref) :
  skeleton h' = skeleton h → runs_below h root → runs_below h' root.
Proof.
  intros Hs Hruns u Hu.
  rewrite (closure_runs_skeleton _ _ _ Hs), (skeleton_closure _ _ u Hs).
  apply Hruns. apply (reachable_skeleton h' h); [done|exact Hu].
Qed.

(** One call of a closure, whatever its outcome: it changes gradients
    only, and only those of its targets; when it raises it has changed
    nothing. *)
Lemma call_frame (c : closure) (h : heap) (r : result unit) (h' : heap) :
  call c h = (r, h') →
  skeleton h' = skeleton h ∧
  (∀ v, v ∉ targets c → grad (h' !!! v) = grad (h !!! v)) ∧
  (∀ e, r = Raise e → h' = h).
Proof.
  intros Hcall.
  destruct c as [|s o out|s o out|s k out|s t out|s out];
    cbn [call targets] in *.
  - injection Hcall as <- <-. by split_and!.
  - destruct o as [b|k|];
      unfold bind, get_grad, add_grad in Hcall; injection Hcall as <- <-;
      cbn [operand_refs]; (split_and!; [by rewrite !skeleton_alter| |done]);
      intros v Hv; rewrite ?grad_add_grad_ne by set_solver; done.
  - destruct o as [b|k|];
      unfold bind, get_grad, get_data, add_grad, as_number, ret, raise
        in Hcall; injection Hcall as <- <-;
      cbn [operand_refs]; (split_and!; [by rewrite ?skeleton_alter| |done]);
      intros v Hv; rewrite ?grad_add_grad_ne by set_solver; done.
  - unfold bind, get_grad, get_data, add_grad, lift in Hcall.
    destruct (data (h !!! s) ** (k - one)); injection Hcall as <- <-;
      (split_and!; [by rewrite ?skeleton_alter| |done]);
      intros v Hv; rewrite ?grad_add_grad_ne by set_solver; done.
  - unfold bind, get_grad, get_data, add_grad, lift in Hcall.
    destruct (t ** two); injection Hcall as <- <-;
      (split_and!; [by rewrite ?skeleton_alter| |done]);
      intros v Hv; rewrite ?grad_add_grad_ne by set_solver; done.
  - unfold bind, get_grad, get_data, add_grad in Hcall.
    injection Hcall as <- <-.
    split_and!; [by rewrite ?skeleton_alter| |done].
    intros v Hv. rewrite ?grad_add_grad_ne by set_solver. done.
Qed.

(** One call of a closure whose power returns: it returns, it changes
    gradients only, and every gradient grows by the closure's contribution
    to it. *)
Lemma call_effect (c : closure) (h : heap) :
  is_supported (captured_other c) = true →
  closure_runs h c = true →
  (∀ t, t ∈ targets c → t < length h) →
  (∀ out, captured_out c = Some out → out ∉ targets c) →
  ∃ h', call c h = (Ok tt, h') ∧ skeleton h' = skeleton h ∧
        ∀ v, grad (h' !!! v) = grad (h !!! v) + contrib c h v.
Proof.
  intros Hsup Hruns Htgt Hout.
  destruct c as [|s o out|s o out|s k out|s t out|s out];
    cbn [call contrib targets captured_out captured_other closure_runs]
      in *.
  - exists h. split_and!; [done|done|]. intros v. ring.
  - specialize (Hout out eq_refl).
    destruct o as [b|k|]; [| |discriminate];
      unfold bind, get_grad, add_grad; cbn [operand_refs] in *;
      (eexists; split_and!; [reflexivity|by rewrite !skeleton_alter|]);
      intros v.
    + rewrite grad_add_grad by (rewrite length_alter; set_solver).
      rewrite (grad_add_grad_ne h s _ out) by set_solver.
      rewrite grad_add_grad by set_solver. ring.
    + rewrite grad_add_grad by set_solver. ring.
  - specialize (Hout out eq_refl).
    destruct o as [b|k|]; [| |discriminate];
      unfold bind, get_grad, get_data, add_grad, as_number, ret;
      cbn [operand_refs] in *;
      (eexists; split_and!; [reflexivity|by rewrite !skeleton_alter|]);
      intros v.
    + rewrite grad_add_grad by (rewrite length_alter; set_solver).
      rewrite (grad_add_grad_ne h s _ out) by set_solver.
      rewrite data_add_grad.
      rewrite grad_add_grad by set_solver. ring.
    + rewrite grad_add_grad by set_solver. ring.
  - unfold bind, get_grad, get_data, add_grad, lift.
    destruct (data (h !!! s) ** (k - one)) as [p|]; [|discriminate].
    cbn [value_of].
    eexists; split_and!; [reflexivity|by rewrite !skeleton_alter|].
    intros v. rewrite grad_add_grad by set_solver. ring.
  - unfold bind, get_grad, get_data, add_grad, lift.
    destruct (t ** two) as [p|]; [|discriminate]. cbn [value_of].
    eexists; split_and!; [reflexivity|by rewrite !skeleton_alter|].
    intros v. rewrite grad_add_grad by set_solver. ring.
  - unfold bind, get_grad, get_data, add_grad.
    eexists; split_and!; [reflexivity|by rewrite !skeleton_alter|].
    intros v. rewrite grad_add_grad by set_solver. ring.
Qed.

Lemma contrib_not_target (c : closure) (h : heap) (v : ref) :
  v ∉ targets c → contrib c h v = zero.
Proof.
  intros Hv. unfold share.
  destruct c as [|s [b|k|] out|s [b|k|] out|s k out|s t out|s out];
    cbn [contrib targets operand_refs] in *; unfold share;
    repeat (rewrite decide_False by set_solver); try done; ring.
Qed.

(** The contribution reads the [data] of the operands and the gradient of
    [out], nothing else. *)
Lemma contrib_ext (c : closure) (h h' : heap) (v : ref) :
  skeleton h' = skeleton h →
  (∀ out, captured_out c = Some out → grad (h' !!! out) = grad (h !!! out)) →
  contrib c h' v = contrib c h v.
Proof.
  intros Hs Hg.
  destruct c as [|s [b|k|] out|s [b|k|] out|s k out|s t out|s out];
    cbn [contrib captured_out] in *; try done;
    rewrite ?(Hg out eq_refl), ?(skeleton_data _ _ _ Hs); done.
Qed.

(** Calling the closure of a node of a well-formed arena. *)
Lemma call_node_effect (h : heap) (node : ref) :
  wf h → closure_runs h (_backward (h !!! node)) = true →
  ∃ h1, call (_backward (h !!! node)) h = (Ok tt, h1) ∧
        skeleton h1 = skeleton h ∧
        (∀ v, grad (h1 !!! v) =
              grad (h !!! v) + contrib (_backward (h !!! node)) h v) ∧
        (∀ v, v ∉ _prev (h !!! node) →
              contrib (_backward (h !!! node)) h v = zero).
Proof.
  intros Hwf Hruns. rewrite wf_total in Hwf.
  destruct (Hwf node) as [Hlt [Hnone|(Hout & Hsup & Hprev)]].
  - rewrite Hnone. exists h. split_and!; [done|done| |done].
    intros v. cbn [contrib]. ring.
  - assert (node < length h) as Hnode.
    { destruct (decide (node < length h)) as [|Hge]; [done|].
      rewrite list_lookup_total_alt, lookup_ge_None_2 in Hout by lia.
      discriminate. }
    destruct (call_effect (_backward (h !!! node)) h Hsup Hruns)
      as (h1 & Hcall & Hs1 & Hg1).
    + intros t Ht. apply (elem_of_list_to_set (C:=gset ref)) in Ht.
      rewrite <- Hprev in Ht. apply Hlt in Ht. lia.
    + intros out Ho Hin. rewrite Hout in Ho. injection Ho as <-.
      apply (elem_of_list_to_set (C:=gset ref)) in Hin.
      rewrite <- Hprev in Hin. apply Hlt in Hin. lia.
    + exists h1. split_and!; [done|done|done|].
      intros v Hv. apply contrib_not_target.
      by rewrite <- (elem_of_list_to_set (C:=gset ref)), <- Hprev.
Qed.

(** The loop of [backward] over a list of nodes of a well-formed arena
    returns, changes gradients only, and leaves alone the gradient of a
    node that is an operand of none of them. *)
Lemma run_backwards_effect (l : list ref) :
  ∀ h, wf h →
  (∀ u, u ∈ l → closure_runs h (_backward (h !!! u)) = true) →
  ∃ h', run_backwards l h = (Ok tt, h') ∧ skeleton h' = skeleton h ∧
        ∀ v, (∀ u, u ∈ l → v ∉ _prev (h !!! u)) →
             grad (h' !!! v) = grad (h !!! v).
Proof.
  induction l as [|node rest IH]; intros h Hwf Hruns; cbn [run_backwards].
  { exists h. by split_and!. }
  destruct (call_node_effect h node Hwf) as (h1 & Hcall & Hs1 & Hg1 & Hz1);
    [apply Hruns; by left|].
  destruct (IH h1 (wf_skeleton _ _ Hs1 Hwf)) as (h' & Hrun & Hs' & Hg').
  { intros u Hu.
    rewrite (closure_runs_skeleton _ _ _ Hs1), (skeleton_closure _ _ u Hs1).
    apply Hruns. by right. }
  exists h'. unfold bind. rewrite Hcall. split_and!; [done|congruence|].
  intros v Hv. rewrite Hg', Hg1, Hz1; [ring|apply Hv; by left|].
  intros u Hu. rewrite (skeleton_prev _ _ u Hs1). apply Hv. by right.
Qed.

(** *** [backward] *)

Lemma wf_nil : wf [].
Proof. intros i v Hi. by rewrite lookup_nil in Hi. Qed.

Lemma wf_snoc (h : heap) (v : Value) :
  wf h →
  (∀ c, c ∈ _prev v → c < length h) →
  closure_ok (length h) (_prev v) (_backward v) →
  wf (h ++ [v]).
Proof.
  intros Hwf Hlt Hok i w Hi.
  apply lookup_app_Some in Hi as [Hi|[Hge Hi]]; [by apply Hwf|].
  destruct (i - length h)%nat as [|k] eqn:E; [|by destruct k].
  injection Hi as <-. assert (i = length h) as -> by lia. done.
Qed.

(** The operations keep the arena well formed. *)
Lemma run_op_wf (op : forward_op) (h : heap) (r : result ref) (h' : heap) :
  wf h → (∀ a, a ∈ node_inputs op → a < length h) →
  run_op op h = (r, h') → wf h'.
Proof.
  assert (Hprim : ∀ op h r h', primitive op = true → wf h →
    (∀ a, a ∈ node_inputs op → a < length h) →
    run_op op h = (r, h') → wf h').
  { clear. intros op h r h' Hp Hwf Hin Hrun.
    destruct (primitive_appends _ _ _ _ Hp Hrun)
      as [(e & -> & -> & _)|(d & c & o & l & -> & -> & Hc)]; [done|].
    apply wf_snoc; [done| |]; cbn [_prev _backward].
    - intros a Ha. apply Hin. by apply elem_of_list_to_set in Ha.
    - destruct Hc as [->|(Hout & Hsup & Htg)]; [by left|right].
      by rewrite Htg. }
  intros Hwf Hin Hrun.
  destruct op as [d l|a o|a o|a o|a|a|a|a o|a o];
    try (by refine (Hprim _ h r h' _ Hwf Hin Hrun)).
  - by refine (Hprim (F_mul a (OConst minus_one)) h r h' _ Hwf Hin Hrun).
  - cbn [run_op] in Hrun. unfold __sub__, bind in Hrun.
    destruct o as [b|k|]; cbn [py_neg] in Hrun.
    + unfold fmapM, bind in Hrun.
      destruct (__neg__ b h) as [[n|e] h1] eqn:Hneg; cbn [ret] in Hrun.
      * assert (wf h1) as Hwf1.
        { eapply (Hprim (F_mul b (OConst minus_one))); [done|exact Hwf| |
            exact Hneg].
          intros x Hx. apply Hin. cbn in *. set_solver. }
        rewrite neg_node in Hneg. injection Hneg as <- <-.
        eapply (Hprim (F_add a (ONode (length h)))); [done|exact Hwf1| |
          exact Hrun].
        intros x Hx. rewrite length_app. cbn in *.
        apply elem_of_cons in Hx as [->|Hx].
        -- assert (a < length h) by (apply Hin; set_solver). lia.
        -- apply list_elem_of_singleton in Hx as ->. lia.
      * rewrite neg_node in Hneg. discriminate.
    + eapply (Hprim (F_add a (OConst (- k)))); [done|exact Hwf| |exact Hrun].
      intros x Hx. apply Hin. cbn in *. set_solver.
    + by injection Hrun as _ <-.
  - cbn [run_op] in Hrun. unfold __truediv__, bind in Hrun.
    destruct o as [b|k|]; cbn [py_pow_minus_one] in Hrun.
    + unfold fmapM, bind in Hrun.
      destruct (__pow__ b (OConst minus_one) h) as [[n|e] h1] eqn:Hpow;
        cbn [ret] in Hrun.
      * assert (wf h1) as Hwf1.
        { eapply (Hprim (F_pow b (OConst minus_one))); [done|exact Hwf| |
            exact Hpow].
          intros x Hx. apply Hin. cbn in *. set_solver. }
        rewrite pow_const in Hpow.
        destruct (data (h !!! b) ** minus_one); [|discriminate].
        injection Hpow as <- <-.
        eapply (Hprim (F_mul a (ONode (length h)))); [done|exact Hwf1| |
          exact Hrun].
        intros x Hx. rewrite length_app. cbn in *.
        apply elem_of_cons in Hx as [->|Hx].
        -- assert (a < length h) by (apply Hin; set_solver). lia.
        -- apply list_elem_of_singleton in Hx as ->. lia.
      * rewrite pow_const in Hpow.
        destruct (data (h !!! b) ** minus_one); [discriminate|].
        injection Hpow as _ <-. by injection Hrun as _ <-.
    + unfold fmapM, bind, lift in Hrun.
      destruct (k ** minus_one) as [p|e]; cbn [ret] in Hrun.
      * eapply (Hprim (F_mul a (OConst p))); [done|exact Hwf| |exact Hrun].
        intros x Hx. apply Hin. cbn in *. set_solver.
      * by injection Hrun as _ <-.
    + by injection Hrun as _ <-.
Qed.

(** One run of [backward] on a well-formed arena: it returns, it changes
    gradients only, the root ends with gradient [1.0], and a node whose
    only consumer below the root is the root itself gains exactly the
    contribution of the root's closure. *)
Lemma backward_effect (h : heap) (root : ref) :
  wf h → root < length h → runs_below h root →
  ∃ h', backward (S (length h)) root h = (Ok tt, h') ∧
        skeleton h' = skeleton h ∧
        grad (h' !!! root) = one ∧
        ∀ v, v ≠ root →
          (∀ u, reachable h root u → u ≠ root → v ∉ _prev (h !!! u)) →
          grad (h' !!! v) =
          grad (h !!! v) +
          contrib (_backward (h !!! root)) (alter (with_grad one) root h) v.
Proof.
  intros Hwf Hroot Hruns.
  destruct (topo_order_spec h root (wf_closed h Hwf) (wf_acyclic h Hwf) Hroot)
    as (topo & Htopo & Hnd & Hreach & _).
  destruct (topo_order_last _ _ _ _ Htopo) as [T ->].
  unfold backward. rewrite Htopo, reverse_snoc. cbn [run_backwards].
  unfold bind at 1. unfold set_grad.
  set (h0 := alter (with_grad one) root h).
  assert (Hs0 : skeleton h0 = skeleton h) by by apply skeleton_alter.
  pose proof (wf_skeleton _ _ Hs0 Hwf) as Hwf0.
  assert (HT : ∀ u, u ∈ T → reachable h root u ∧ u ≠ root).
  { intros u Hu. split.
    - apply Hreach, elem_of_app. by left.
    - intros ->. apply NoDup_app in Hnd as (_ & Hdis & _).
      apply (Hdis root Hu). by left. }
  destruct (call_node_effect h0 root Hwf0) as (h1 & Hcall & Hs1 & Hg1 & Hz1).
  { rewrite (closure_runs_skeleton _ _ _ Hs0), (skeleton_closure _ _ _ Hs0).
    apply Hruns, reach_refl. }
  destruct (run_backwards_effect (reverse T) h1 (wf_skeleton _ _ Hs1 Hwf0))
    as (h' & Hrun & Hs' & Hg').
  { intros u Hu. rewrite elem_of_reverse in Hu.
    rewrite (closure_runs_skeleton _ _ _ Hs1), (skeleton_closure _ _ u Hs1).
    rewrite (closure_runs_skeleton _ _ _ Hs0), (skeleton_closure _ _ u Hs0).
    apply Hruns. by apply HT. }
  exists h'. unfold bind. rewrite Hcall, Hrun.
  pose proof Hwf as Hall. rewrite wf_total in Hall.
  split_and!; [done|congruence| |].
  - rewrite Hg', Hg1, Hz1.
    + unfold h0. rewrite list_lookup_total_alter_eq by done. cbn. ring.
    + rewrite (skeleton_prev _ _ root Hs0). intros Hin.
      destruct (Hall root) as [Hlt _]. apply Hlt in Hin. lia.
    + intros u Hu. rewrite elem_of_reverse in Hu.
      rewrite (skeleton_prev _ _ u Hs1), (skeleton_prev _ _ u Hs0).
      intros Hin. destruct (Hall u) as [Hlt _]. apply Hlt in Hin.
      destruct (HT u Hu) as [Hr _]. apply (reachable_le h) in Hr; [lia|done].
  - intros v Hv Hcons. rewrite Hg', Hg1.
    + rewrite (skeleton_closure _ _ root Hs0).
      unfold h0 at 1. by rewrite list_lookup_total_alter_ne.
    + intros u Hu. rewrite elem_of_reverse in Hu.
      rewrite (skeleton_prev _ _ u Hs1), (skeleton_prev _ _ u Hs0).
      destruct (HT u Hu) as [Hr Hne]. by apply Hcons.
Qed.

Lemma leaf_closure (h : heap) (v : ref) :
  wf h → _prev (h !!! v) = ∅ → _backward (h !!! v) = lambda_None.
Proof.
  rewrite wf_total. intros Hwf Hprev.
  destruct (Hwf v) as [_ [Hnone|(Hout & _ & Htg)]]; [done|].
  rewrite Hprev in Htg.
  destruct (_backward (h !!! v)) as [|s o ?|s o ?|s ? ?|s ? ?|s ?];
    [done|..]; cbn [targets] in Htg; set_solver.
Qed.

Lemma value_eq (a b : Value) :
  with_grad zero a = with_grad zero b → grad a = grad b → a = b.
Proof.
  destruct a, b. unfold with_grad. cbn. intros [= -> -> -> -> ->] ->. done.
Qed.

Lemma heap_eq (h h' : heap) :
  skeleton h' = skeleton h →
  (∀ i, grad (h' !!! i) = grad (h !!! i)) →
  h' = h.
Proof.
  intros Hs Hg. pose proof (skeleton_length _ _ Hs) as Hlen.
  apply list_eq. intros i.
  destruct (decide (i < length h)) as [Hlt|Hge].
  - rewrite (list_lookup_lookup_total_lt h' i) by lia.
    rewrite (list_lookup_lookup_total_lt h i) by lia.
    f_equal. apply value_eq; [by apply skeleton_lookup|apply Hg].
  - by rewrite !lookup_ge_None_2 by lia.
Qed.

(** Writing [data] or [grad], the two attributes a caller may assign,
    keeps the arena well formed, and so does a run of [backward]. *)
Lemma set_data_wf (h : heap) (v : ref) (d : num) :
  wf h → wf (set_data v d h).2.
Proof.
  rewrite !wf_total. intros Hwf i. cbn [set_data snd].
  rewrite list_lookup_total_alter. case_decide as Hi; [|apply Hwf].
  destruct Hi as [-> _]. apply Hwf.
Qed.

Lemma set_grad_wf (h : heap) (v : ref) (g : num) :
  wf h → wf (set_grad v g h).2.
Proof.
  intros Hwf. apply (wf_skeleton h); [|done].
  by apply skeleton_alter.
Qed.

Lemma backward_wf (h : heap) (root : ref) :
  wf h → root < length h → runs_below h root →
  ∃ h', backward (S (length h)) root h = (Ok tt, h') ∧ wf h' ∧
        length h' = length h.
Proof.
  intros Hwf Hroot Hruns.
  destruct (backward_effect h root Hwf Hroot Hruns) as (h' & Hrun & Hs & _).
  exists h'. split_and!; [done|by apply (wf_skeleton h)|].
  by apply skeleton_length.
Qed.

(** *** The stack limit and the closures that can raise

    The lemmas on [backward] are proved with a frame for every object of
    the arena and one more, where the traversal always returns, and carry
    over to every limit the graph below the root fits in. *)

Lemma backward_limit (limit : nat) (h : heap) (root : ref) :
  wf h → root < length h → fits limit h root →
  backward limit root h = backward (S (length h)) root h.
Proof.
  intros Hwf Hroot Hfit. unfold backward.
  by rewrite (topo_order_limit limit h root (wf_closed h Hwf) Hroot Hfit).
Qed.

Lemma fits_skeleton (h h' : heap) (n : nat) :
  skeleton h' = skeleton h → ∀ v, fits n h v → fits n h' v.
Proof.
  intros Hs. induction n as [|n IH]; intros v Hfit; [done|].
  cbn [fits] in *. intros c Hc. rewrite (skeleton_prev _ _ v Hs) in Hc.
  by apply IH, Hfit.
Qed.

Lemma reachable_old (h : heap) (l : list Value) (c u : ref) :
  wf h → c < length h → reachable (h ++ l) c u →
  reachable h c u ∧ u < length h.
Proof.
  intros Hwf Hc Hr. induction Hr as [|u c' _ [IH Hu] Hc'].
  - split; [apply reach_refl|done].
  - rewrite lookup_total_app_l in Hc' by done. split.
    + by eapply reach_step.
    + eapply (wf_closed h Hwf); [|exact Hc'].
      by apply list_lookup_lookup_total_lt.
Qed.

(** Appending to the arena changes nothing below an old node. *)
Lemma fits_old (h : heap) (l : list Value) (n : nat) :
  wf h → ∀ v, v < length h → fits n h v → fits n (h ++ l) v.
Proof.
  intros Hwf. pose proof Hwf as Hall. rewrite wf_total in Hall.
  induction n as [|n IH]; intros v Hv Hfit; [done|].
  cbn [fits] in *. intros c Hc. rewrite lookup_total_app_l in Hc by done.
  destruct (Hall v) as [Hlt _]. apply IH; [|by apply Hfit].
  apply Hlt in Hc. lia.
Qed.

Lemma fits_new (h : heap) (n : Value) (k : nat) :
  (∀ c, c ∈ _prev n → fits k (h ++ [n]) c) →
  fits (S k) (h ++ [n]) (length h).
Proof. intros Hc. cbn [fits]. by rewrite lookup_total_new. Qed.

Lemma closure_runs_old (h : heap) (l : list Value) (u : ref) :
  wf h → u < length h →
  closure_runs (h ++ l) (_backward (h !!! u)) =
  closure_runs h (_backward (h !!! u)).
Proof.
  intros Hwf Hu. rewrite wf_total in Hwf.
  destruct (Hwf u) as [Hlt [Hnone|(_ & _ & Hprev)]]; [by rewrite Hnone|].
  destruct (_backward (h !!! u)) as [|s o out|s o out|s k out|s t out|s out];
    cbn [closure_runs targets] in *; try done.
  rewrite lookup_total_app_l; [done|].
  assert (s < u); [|lia]. apply Hlt. rewrite Hprev. set_solver.
Qed.

Lemma runs_below_old (h : heap) (l : list Value) (v : ref) :
  wf h → v < length h → runs_below h v → runs_below (h ++ l) v.
Proof.
  intros Hwf Hv Hruns u Hu.
  destruct (reachable_old h l v u Hwf Hv Hu) as [Hr Hlt].
  rewrite lookup_total_app_l by done.
  rewrite closure_runs_old by done. by apply Hruns.
Qed.

Lemma runs_below_new (h : heap) (n : Value) :
  closure_runs (h ++ [n]) (_backward n) = true →
  (∀ c, c ∈ _prev n → runs_below (h ++ [n]) c) →
  runs_below (h ++ [n]) (length h).
Proof.
  intros Hn Hc u Hu.
  apply reachable_inv in Hu as [->|(c & Hin & Hr)].
  - by rewrite lookup_total_new.
  - rewrite lookup_total_new in Hin. by apply (Hc c).
Qed.

(** Below a leaf there is nothing to traverse and no closure to call. *)
Lemma leaf_fits (h : heap) (v : ref) (limit : nat) :
  _prev (h !!! v) = ∅ → 0 < limit → fits limit h v.
Proof.
  intros Hleaf Hpos. destruct limit as [|n]; [lia|]. cbn [fits].
  rewrite Hleaf. set_solver.
Qed.

Lemma leaf_runs (h : heap) (v : ref) :
  wf h → _prev (h !!! v) = ∅ → runs_below h v.
Proof.
  intros Hwf Hleaf u Hu.
  apply reachable_inv in Hu as [->|(c & Hc & _)].
  - by rewrite (leaf_closure h v Hwf Hleaf).
  - rewrite Hleaf in Hc. set_solver.
Qed.

(** C1. For any node [x] of a well-formed arena whose gradient is zero,
    building [y = x * x] and running [backward] on [y] leaves [x.grad]
    equal to [2 * x.data]: the closure of [__mul__] adds
    [x.data * y.grad] to [x.grad] once for each of the two operands.
    [backward] returns when the interpreter has a frame for [y] above
    those the graph below [x] needs, and no power in a closure below [x]
    raises. *)
Theorem square_gradient (limit : nat) (h : heap) (x : ref) :
  wf h → x < length h → grad (h !!! x) = zero →
  fits limit h x → runs_below h x →
  ∃ y h1 h2,
    __mul__ x (ONode x) h = (Ok y, h1) ∧
    backward (S limit) y h1 = (Ok tt, h2) ∧
    grad (h2 !!! x) = two * data (h2 !!! x) ∧
    data (h2 !!! x) = data (h !!! x).
Proof.
  intros Hwf Hx Hzero Hfit Hruns. rewrite mul_node_node.
  set (y := length h).
  set (n := new_node (data (h !!! x) * data (h !!! x))
              (mul_backward x (ONode x) y) [x; x] op_mul).
  assert (Hwf1 : wf (h ++ [n])).
  { apply wf_snoc; [done| |].
    - intros c Hc. cbn in Hc. set_solver.
    - right. by split_and!. }
  assert (Hy : y < length (h ++ [n])).
  { rewrite length_app. cbn. lia. }
  assert (Hfit1 : fits (S limit) (h ++ [n]) y).
  { apply fits_new. intros c Hc. cbn in Hc.
    assert (c = x) as -> by set_solver. by apply fits_old. }
  assert (Hruns1 : runs_below (h ++ [n]) y).
  { apply runs_below_new; [done|]. intros c Hc. cbn in Hc.
    assert (c = x) as -> by set_solver. by apply runs_below_old. }
  destruct (backward_effect (h ++ [n]) y Hwf1 Hy Hruns1)
    as (h2 & Hrun & Hs & _ & Hg).
  rewrite <- (backward_limit (S limit)) in Hrun by done.
  assert (Hyn : (h ++ [n]) !!! y = n) by apply lookup_total_new.
  assert (Hdata : data (h2 !!! x) = data (h !!! x)).
  { rewrite (skeleton_data _ _ x Hs). by rewrite lookup_total_app_l. }
  exists y, (h ++ [n]), h2. split_and!; [done|done| |done].
  rewrite Hdata, (Hg x).
  - rewrite Hyn. cbn [_backward n new_node contrib]. unfold share.
    rewrite !decide_True by done.
    rewrite list_lookup_total_alter_ne by (unfold y; lia).
    rewrite list_lookup_total_alter_eq by done.
    rewrite Hyn. cbn [grad with_grad n new_node].
    rewrite lookup_total_app_l by done. rewrite Hzero. unfold two. ring.
  - unfold y. lia.
  - intros u Hu Hne Hin.
    apply reachable_inv in Hu as [->|(c & Hc & Hr)]; [done|].
    rewrite Hyn in Hc. cbn in Hc. assert (c = x) as -> by set_solver.
    apply (reachable_le _ _ _ Hwf1) in Hr.
    rewrite wf_total in Hwf1. destruct (Hwf1 u) as [Hlt _].
    apply Hlt in Hin. lia.
Qed.

(** C3 (as amended). Take a node other than the root that no node
    reachable from the root, other than the root itself, has as an
    operand, and whose gradient is zero.  Two successive runs of
    [backward] on the root, with no reset in between, leave it with
    exactly twice the gradient that one run leaves; the root itself
    has gradient [1.0] after the first run and after the second.  Both
    runs return when the graph below the root fits in the frames the
    interpreter has left and no power in a closure below the root
    raises. *)
Theorem backward_twice_doubles_operands_of_root (limit : nat) (h : heap)
    (root v : ref) :
  wf h → root < length h → v ≠ root →
  (∀ u, reachable h root u → u ≠ root → v ∉ _prev (h !!! u)) →
  grad (h !!! v) = zero →
  fits limit h root → runs_below h root →
  ∃ h1 h2,
    backward limit root h = (Ok tt, h1) ∧
    backward limit root h1 = (Ok tt, h2) ∧
    grad (h2 !!! v) = two * grad (h1 !!! v) ∧
    grad (h1 !!! root) = one ∧
    grad (h2 !!! root) = one.
Proof.
  intros Hwf Hroot Hv Hcons Hzero Hfit Hruns.
  destruct (backward_effect h root Hwf Hroot Hruns)
    as (h1 & Hrun1 & Hs1 & Hr1 & Hg1).
  pose proof (wf_skeleton _ _ Hs1 Hwf) as Hwf1.
  assert (Hroot1 : root < length h1) by by rewrite (skeleton_length _ _ Hs1).
  destruct (backward_effect h1 root Hwf1 Hroot1)
    as (h2 & Hrun2 & Hs2 & Hr2 & Hg2); [by apply (runs_below_skeleton h)|].
  exists h1, h2.
  rewrite !(backward_limit limit)
    by (done || by apply (fits_skeleton h)).
  split_and!; [done|done| |done|done].
  rewrite (Hg2 v Hv), (Hg1 v Hv Hcons), Hzero.
  - rewrite (skeleton_closure _ _ root Hs1).
    rewrite (contrib_ext (_backward (h !!! root))
               (alter (with_grad one) root h) (alter (with_grad one) root h1)).
    + unfold two. ring.
    + rewrite !skeleton_alter by done. done.
    + intros out Hout.
      assert (out = root) as ->.
      { rewrite wf_total in Hwf.
        destruct (Hwf root) as [_ [Hnone|(Ho & _)]]; [|congruence].
        rewrite Hnone in Hout. discriminate. }
      rewrite !list_lookup_total_alter_eq by done. done.
  - intros u Hu Hne. rewrite (skeleton_prev _ _ u Hs1).
    apply Hcons; [|done]. by apply (reachable_skeleton h1 h).
Qed.

(** C9. [backward] on a leaf of a well-formed arena, with a frame left
    for the one call of [build_topo], returns the arena with the leaf's
    gradient set to [1.0] and nothing else changed: the leaf keeps its
    [data], and every other node is the same record as before. *)
Theorem backward_leaf (limit : nat) (h : heap) (root : ref) :
  wf h → root < length h → _prev (h !!! root) = ∅ → 0 < limit →
  backward limit root h = (Ok tt, alter (with_grad one) root h) ∧
  grad (alter (with_grad one) root h !!! root) = one ∧
  data (alter (with_grad one) root h !!! root) = data (h !!! root) ∧
  ∀ i, i ≠ root → alter (with_grad one) root h !! i = h !! i.
Proof.
  intros Hwf Hroot Hleaf Hpos.
  rewrite (backward_limit limit) by (done || by apply leaf_fits).
  destruct (backward_effect h root Hwf Hroot (leaf_runs h root Hwf Hleaf))
    as (h' & Hrun & Hs & Hr & Hg).
  assert (h' = alter (with_grad one) root h) as ->.
  { apply heap_eq; [by rewrite Hs, skeleton_alter|].
    intros i. destruct (decide (i = root)) as [->|Hne].
    - rewrite Hr. by rewrite list_lookup_total_alter_eq.
    - rewrite (Hg i Hne).
      + rewrite (leaf_closure h root Hwf Hleaf). cbn [contrib].
        rewrite list_lookup_total_alter_ne by done. ring.
      + intros u Hu Hu'.
        apply reachable_inv in Hu as [->|(c & Hc & _)]; [done|].
        rewrite Hleaf in Hc. set_solver. }
  split_and!; [done|done| |].
  - by rewrite list_lookup_total_alter_eq.
  - intros i Hne. by rewrite list_lookup_alter_ne.
Qed.

End Properties.

(** ** The claims on closed arenas

    The interpreter of the examples stacks 1000 frames, the default of
    [sys.getrecursionlimit()]. *)

Section Closed.
Import Examples.

(** Two results that agree node by node. *)
Ltac same_arena :=
  cbn; unfold with_backward, ret; cbn;
  repeat match goal with
  | |- (_, _) = (_, _) => f_equal
  | |- _ :: _ = _ :: _ => f_equal
  | |- mkValue _ _ _ _ _ _ = mkValue _ _ _ _ _ _ => f_equal
  end; first [lra | set_solver].

Lemma one_leaf_wf : wf one_leaf.
Proof.
  intros [|i] v Hv; [|by destruct i].
  injection Hv as <-. split; [set_solver|by left].
Qed.

Lemma chain_heap_wf : wf chain_heap.
Proof.
  intros [|[|[|i]]] v Hv; [| | |by destruct i]; injection Hv as <-; cbn.
  - split; [set_solver|by left].
  - split; [|right; split_and!; [done|done|set_solver]].
    intros c ->%elem_of_singleton. lia.
  - split; [|right; split_and!; [done|done|set_solver]].
    intros c ->%elem_of_singleton. lia.
Qed.

(** [chain_heap] is the arena the program [chain] builds from nothing. *)
Example chain_builds : chain [] = (Ok (0, 1, 2), chain_heap).
Proof. unfold chain, chain_heap, leaf, bind, Value_init. same_arena. Qed.

(** In [chain], [y] is an operand of [z] and of nothing else. *)
Lemma chain_y_consumed_by_root (u : ref) :
  reachable chain_heap 2 u → u ≠ 2 → 1 ∉ _prev (chain_heap !!! u).
Proof.
  intros Hu Hne. apply (reachable_le _ _ _ chain_heap_wf) in Hu.
  destruct u as [|[|u]]; cbn; [set_solver|set_solver|lia].
Qed.

Lemma chain_x_reachable : reachable chain_heap 2 0.
Proof.
  apply (reach_step _ _ 1); [|cbn; set_solver].
  apply (reach_step _ _ 2); [apply reach_refl|cbn; set_solver].
Qed.

(** The three nodes of [chain] take three frames, and its closures only
    multiply. *)
Lemma chain_fits (v : ref) : v < 3 → fits 1000 chain_heap v.
Proof.
  intros Hv. apply (fits_mono _ (S v)); [lia|apply wf_fits, chain_heap_wf].
Qed.

Lemma chain_runs (v : ref) : runs_below chain_heap v.
Proof. intros u _. by destruct u as [|[|[|u]]]. Qed.

Lemma square_gradient_witness :
  ∃ y h1 h2,
    __mul__ 0 (ONode 0) one_leaf = (Ok y, h1) ∧
    backward 1000 y h1 = (Ok tt, h2) ∧
    grad (h2 !!! 0) = (two * data (h2 !!! 0))%num ∧
    data (h2 !!! 0) = data (one_leaf !!! 0).
Proof.
  apply (square_gradient 999 one_leaf 0);
    [apply one_leaf_wf|cbn; lia|reflexivity|
     apply leaf_fits; [reflexivity|lia]|
     apply leaf_runs; [apply one_leaf_wf|reflexivity]].
Defined.

Lemma topo_order_valid_witness :
  ∃ topo,
    topo_order 1000 chain_heap 2 = Some topo ∧
    NoDup topo ∧
    (∀ u, u ∈ topo ↔ reachable chain_heap 2 u) ∧
    (∀ j v c, topo !! j = Some v → c ∈ _prev (chain_heap !!! v) →
       ∃ i, i < j ∧ topo !! i = Some c).
Proof.
  apply (topo_order_valid 1000 chain_heap 2);
    [apply wf_closed, chain_heap_wf|apply wf_acyclic, chain_heap_wf|
     cbn; lia|apply chain_fits; lia].
Defined.

(** The order [backward] builds on [chain]: [x], [y], [z]. *)
Example chain_topo : topo_order 1000 chain_heap 2 = Some [0; 1; 2].
Proof. vm_compute. reflexivity. Qed.

(** The traversal of [chain] needs three frames: with two left it raises
    [RecursionError], and no gradient is written. *)
Example chain_too_deep :
  topo_order 2 chain_heap 2 = None ∧
  backward 2 2 chain_heap = (Raise RecursionError, chain_heap).
Proof. split; vm_compute; reflexivity. Qed.

(** C3 as stated fails on [chain]: starting from zero gradients, one run
    of [backward] on [z] leaves [x.grad = 10], two runs leave
    [x.grad = 30], which is not twice [10]; and [z.grad] is [1] after
    either, not doubled. *)
Lemma backward_twice_not_double :
  ∃ h1 h2,
    Forall (λ v, grad v = 0%R) chain_heap ∧
    reachable chain_heap 2 0 ∧
    backward 1000 2 chain_heap = (Ok tt, h1) ∧
    backward 1000 2 h1 = (Ok tt, h2) ∧
    grad (h1 !!! 0) = 10%R ∧ grad (h2 !!! 0) = 30%R ∧
    grad (h2 !!! 0) ≠ (2 * grad (h1 !!! 0%nat))%R ∧
    grad (h1 !!! 2) = 1%R ∧ grad (h2 !!! 2) = 1%R ∧
    grad (h2 !!! 2) ≠ (2 * grad (h1 !!! 2%nat))%R.
Proof.
  exists (snd (backward 1000 2 chain_heap)),
         (snd (backward 1000 2 (snd (backward 1000 2 chain_heap)))).
  split_and!; [by repeat constructor|apply chain_x_reachable|
               by vm_compute|by vm_compute|vm_compute; lra..].
Qed.

Lemma backward_twice_doubles_witness :
  ∃ h1 h2,
    backward 1000 2 chain_heap = (Ok tt, h1) ∧
    backward 1000 2 h1 = (Ok tt, h2) ∧
    grad (h2 !!! 1) = (two * grad (h1 !!! 1))%num ∧
    grad (h1 !!! 2) = 1%R ∧
    grad (h2 !!! 2) = 1%R.
Proof.
  apply (backward_twice_doubles_operands_of_root 1000 chain_heap 2 1);
    [apply chain_heap_wf|cbn; lia|lia|apply chain_y_consumed_by_root|
     reflexivity|apply chain_fits; lia|apply chain_runs].
Defined.

Lemma pow_rejects_witness :
  UnsupportedOperand AssertionError ∧
  __pow__ 0 (ONode 0) one_leaf = (Raise AssertionError, one_leaf) ∧
  py_binop Pow (ONode 0) (ONode 0) one_leaf =
    (Raise AssertionError, one_leaf).
Proof.
  apply (pow_rejects_non_constant 0 (ONode 0) one_leaf).
  reflexivity.
Defined.

(** C5 as stated fails on [x + x]: the new node records one operand. *)
Lemma same_node_twice_records_one_operand :
  ∃ out h',
    run_op (F_add 0 (ONode 0)) one_leaf = (Ok out, h') ∧
    _prev (h' !!! out) = {[0]} ∧
    size (_prev (h' !!! out)) = 1 ∧
    size (_prev (h' !!! out)) ≠ 2.
Proof.
  exists 1, (snd (run_op (F_add 0 (ONode 0)) one_leaf)).
  split_and!; by vm_compute.
Qed.

Lemma operands_are_input_set_witness :
  let op := F_add 0 (ONode 0) in
  let h' := snd (run_op op one_leaf) in
  _prev (h' !!! 1) = list_to_set (node_inputs op) ∧
  size (_prev (h' !!! 1)) = length (remove_dups (node_inputs op)) ∧
  size (_prev (h' !!! 1)) ≤ 2 ∧
  (∀ d l, op = F_leaf d l → _prev (h' !!! 1) = ∅).
Proof.
  intros op h'.
  apply (operands_are_input_set op one_leaf 1 h'); reflexivity.
Defined.

Lemma forward_frame_witness :
  let op := F_sub 0 (ONode 0) in
  let h' := snd (run_op op one_leaf) in
  (∀ i v, one_leaf !! i = Some v → h' !! i = Some v) ∧
  (∀ i v, h' !! i = Some v → length one_leaf ≤ i → grad v = 0%R) ∧
  length one_leaf ≤ 2 < length h' ∧
  (well_typed op = true → is_ok (arithmetic op one_leaf) = true →
   ∃ out, Ok 2 = Ok out) ∧
  (∀ e, arithmetic op one_leaf = Raise e → Ok 2 = Raise e).
Proof.
  intros op h'.
  apply (forward_frame op one_leaf (Ok 2) h'). reflexivity.
Defined.

Lemma backward_leaf_witness :
  backward 1000 0 one_leaf = (Ok tt, alter (with_grad 1%R) 0 one_leaf) ∧
  grad (alter (with_grad 1%R) 0 one_leaf !!! 0) = 1%R ∧
  data (alter (with_grad 1%R) 0 one_leaf !!! 0) =
    data (one_leaf !!! 0) ∧
  ∀ i, i ≠ 0 → alter (with_grad 1%R) 0 one_leaf !! i = one_leaf !! i.
Proof.
  apply (backward_leaf 1000 one_leaf 0);
    [apply one_leaf_wf|cbn; lia|reflexivity|lia].
Defined.

(** [x = Value(3.0); y = x * x; y.backward()] leaves [x.grad = 6]. *)
Example square_runs :
  ∃ g, fst ((let* r := square in
             let* _ := backward 1000 r.2 in
             get_grad r.1) []) = Ok g ∧ g = 6%R.
Proof. eexists. split; [by vm_compute|vm_compute; lra]. Qed.

End Closed.

(** ** The backward pass as a sum of contributions *)

Section AdjointProperties.
Context {N : Num}.
Local Open Scope num_scope.

Add Ring num_ring_adjoint : num_ring.

Lemma contrib_not_operand (h : heap) (u v : ref) :
  wf h → v ∉ _prev (h !!! u) → contrib (_backward (h !!! u)) h v = zero.
Proof.
  intros Hwf Hv. rewrite wf_total in Hwf.
  destruct (Hwf u) as [_ [Hnone|(_ & _ & Hprev)]]; [by rewrite Hnone|].
  apply contrib_not_target.
  by rewrite <- (elem_of_list_to_set (C:=gset ref)), <- Hprev.
Qed.

Lemma sum_contrib_zero (h : heap) (nodes : list ref) (v : ref) :
  wf h → (∀ u, u ∈ nodes → v ∉ _prev (h !!! u)) →
  sum_contrib h nodes v = zero.
Proof.
  intros Hwf. induction nodes as [|u rest IH]; intros Hv; cbn; [done|].
  rewrite contrib_not_operand, IH; [ring| |done|].
  - intros w Hw. apply Hv. by right.
  - apply Hv. by left.
Qed.

Lemma sum_contrib_single (h : heap) (nodes : list ref) (u0 v : ref) :
  wf h → NoDup nodes → u0 ∈ nodes →
  (∀ u, u ∈ nodes → u ≠ u0 → v ∉ _prev (h !!! u)) →
  sum_contrib h nodes v = contrib (_backward (h !!! u0)) h v.
Proof.
  intros Hwf. induction nodes as [|u rest IH]; intros Hnd Hin Hv.
  { by apply elem_of_nil in Hin. }
  apply NoDup_cons in Hnd as [Hu Hnd]. cbn.
  apply elem_of_cons in Hin as [->|Hin].
  - rewrite sum_contrib_zero; [ring|done|].
    intros w Hw. apply Hv; [by right|]. by intros ->.
  - rewrite IH, contrib_not_operand; [ring|done| |done|done|].
    + apply Hv; [by left|]. by intros ->.
    + intros w Hw Hne. apply Hv; [by right|done].
Qed.

Lemma safe_order_skeleton (h h' : heap) (nodes : list ref) :
  skeleton h' = skeleton h → safe_order h nodes → safe_order h' nodes.
Proof.
  intros Hs. induction nodes as [|u rest IH]; cbn; [done|].
  intros [Hu Hrest]. split; [|by apply IH].
  intros w Hw. rewrite (skeleton_prev _ _ w Hs). by apply Hu.
Qed.

Lemma sum_contrib_ext (h h' : heap) (nodes : list ref) (v : ref) :
  skeleton h' = skeleton h →
  (∀ u, u ∈ nodes → grad (h' !!! u) = grad (h !!! u)) →
  wf h →
  sum_contrib h' nodes v = sum_contrib h nodes v.
Proof.
  intros Hs Hg Hwf. induction nodes as [|u rest IH]; cbn; [done|].
  rewrite IH by (intros w Hw; apply Hg; by right). f_equal.
  rewrite (skeleton_closure _ _ u Hs). apply contrib_ext; [done|].
  intros out Hout. rewrite wf_total in Hwf.
  destruct (Hwf u) as [_ [Hnone|(Ho & _)]].
  - rewrite Hnone in Hout. discriminate.
  - assert (out = u) as -> by congruence. apply Hg. by left.
Qed.

(** The loop of [backward] in a safe order: when it is over, every
    gradient has grown by the contributions of all the closures called,
    each computed from the final gradient of the node it belongs to. *)
Lemma run_backwards_sum (nodes : list ref) :
  ∀ h, wf h → NoDup nodes → safe_order h nodes →
  (∀ u, u ∈ nodes → closure_runs h (_backward (h !!! u)) = true) →
  ∃ h', run_backwards nodes h = (Ok tt, h') ∧ skeleton h' = skeleton h ∧
        ∀ v, grad (h' !!! v) = grad (h !!! v) + sum_contrib h' nodes v.
Proof.
  induction nodes as [|u rest IH]; intros h Hwf Hnd Hsafe Hruns;
    cbn [run_backwards].
  { exists h. split_and!; [done|done|]. intros v. cbn. ring. }
  apply NoDup_cons in Hnd as [Hu Hnd]. destruct Hsafe as [Hself Hsafe].
  destruct (call_node_effect h u Hwf) as (h1 & Hcall & Hs1 & Hg1 & Hz1);
    [apply Hruns; by left|].
  pose proof (wf_skeleton _ _ Hs1 Hwf) as Hwf1.
  assert (Hruns1 : ∀ w, w ∈ rest →
            closure_runs h1 (_backward (h1 !!! w)) = true).
  { intros w Hw.
    rewrite (closure_runs_skeleton _ _ _ Hs1), (skeleton_closure _ _ w Hs1).
    apply Hruns. by right. }
  destruct (IH h1 Hwf1 Hnd (safe_order_skeleton _ _ _ Hs1 Hsafe) Hruns1)
    as (h' & Hrun & Hs' & Hg').
  destruct (run_backwards_effect rest h1 Hwf1 Hruns1)
    as (h'' & Hrun' & _ & Hfr).
  rewrite Hrun in Hrun'. injection Hrun' as <-.
  exists h'. unfold bind. rewrite Hcall. split_and!; [done|congruence|].
  intros v. rewrite Hg', Hg1. cbn [sum_contrib].
  assert (Hsk : skeleton h' = skeleton h) by congruence.
  rewrite (skeleton_closure _ _ u Hsk).
  rewrite (contrib_ext (_backward (h !!! u)) h h' v Hsk); [ring|].
  intros out Hout.
  assert (out = u) as ->.
  { pose proof Hwf as Hall. rewrite wf_total in Hall.
    destruct (Hall u) as [_ [Hnone|(Ho & _)]]; [|congruence].
    rewrite Hnone in Hout. discriminate. }
  rewrite Hfr, Hg1, Hz1; [ring|apply Hself; by left|].
  intros w Hw. rewrite (skeleton_prev _ _ w Hs1). apply Hself. by right.
Qed.

Lemma safe_order_reverse (h : heap) (topo : list ref) :
  NoDup topo → ordered h topo → safe_order h (reverse topo).
Proof.
  induction topo as [|x T IH] using rev_ind; intros Hnd Hord; [done|].
  rewrite reverse_snoc. cbn [safe_order].
  apply NoDup_app in Hnd as (HndT & Hdis & _).
  assert (Hx : x ∉ T).
  { intros Hx. apply (Hdis x Hx). by left. }
  split.
  - intros w Hw Hin.
    assert (∃ j, (T ++ [x]) !! j = Some w) as [j Hj].
    { apply list_elem_of_lookup. rewrite elem_of_cons, elem_of_reverse in Hw.
      apply elem_of_app. destruct Hw as [->|Hw]; [right; by left|by left]. }
    destruct (Hord _ _ _ Hj Hin) as (i & Hi & Hix).
    pose proof (lookup_lt_Some _ _ _ Hj) as Hlen.
    rewrite length_app in Hlen. cbn in Hlen.
    rewrite lookup_app_l in Hix by lia.
    apply Hx. apply list_elem_of_lookup. by exists i.
  - apply IH; [done|].
    intros j v c Hj Hc.
    destruct (Hord j v c) as (i & Hi & Hic); [by apply lookup_app_l_Some|done|].
    exists i. split; [done|].
    pose proof (lookup_lt_Some _ _ _ Hj) as Hlen.
    by rewrite lookup_app_l in Hic by lia.
Qed.

(** One run of [backward] on a well-formed arena, in full: [topo] lists
    the reachable nodes once each, nothing but gradients changes, and every
    gradient is its seed plus the contributions of the closures of the
    nodes of [topo], each read on the final arena. *)
Lemma backward_sum (h : heap) (root : ref) :
  wf h → root < length h → runs_below h root →
  ∃ topo h',
    topo_order (S (length h)) h root = Some topo ∧
    NoDup topo ∧ (∀ u, u ∈ topo ↔ reachable h root u) ∧
    backward (S (length h)) root h = (Ok tt, h') ∧
    skeleton h' = skeleton h ∧
    ∀ v, grad (h' !!! v) =
         seed h root v + sum_contrib h' (reverse topo) v.
Proof.
  intros Hwf Hroot Hruns.
  destruct (topo_order_spec h root (wf_closed h Hwf) (wf_acyclic h Hwf) Hroot)
    as (topo & Htopo & Hnd & Hreach & Hord).
  exists topo. unfold backward. rewrite Htopo.
  unfold bind at 1. unfold set_grad.
  set (h0 := alter (with_grad one) root h).
  assert (Hs0 : skeleton h0 = skeleton h) by by apply skeleton_alter.
  pose proof (wf_skeleton _ _ Hs0 Hwf) as Hwf0.
  destruct (run_backwards_sum (reverse topo) h0 Hwf0) as (h' & Hrun & Hs & Hg).
  { by rewrite reverse_Permutation. }
  { apply (safe_order_skeleton h); [done|]. by apply safe_order_reverse. }
  { intros u Hu. rewrite elem_of_reverse in Hu.
    rewrite (closure_runs_skeleton _ _ _ Hs0), (skeleton_closure _ _ u Hs0).
    by apply Hruns, Hreach. }
  exists h'. split_and!; [done|done|done|done|congruence|].
  intros v. rewrite Hg. f_equal. unfold seed, h0.
  rewrite list_lookup_total_alter. destruct (decide (v = root)) as [->|Hne].
  - by rewrite decide_True.
  - rewrite decide_False; [done|]. intros [-> _]. done.
Qed.

(** The [+=] statements of a closure, taken in their order, add up to its
    contribution. *)
Lemma accumulate_contrib (c : closure) (h : heap) (v : ref) (g : num) :
  accumulate c h v g = g + contrib c h v.
Proof.
  destruct c as [|s [b|k|] out|s [b|k|] out|s k out|s t out|s out];
    cbn [accumulate contrib]; unfold bump, share;
    repeat case_decide; ring.
Qed.

Lemma accumulate_all_sum (h : heap) (nodes : list ref) (v : ref) :
  ∀ g, accumulate_all h nodes v g = g + sum_contrib h nodes v.
Proof.
  unfold accumulate_all.
  induction nodes as [|u rest IH]; intros g; cbn [foldl sum_contrib];
    [ring|].
  rewrite IH, accumulate_contrib. ring.
Qed.

(** X1. The adjoint equation of [backward].  On a well-formed arena
    whose graph below the root fits in the frames that are left and in
    which no power in a closure below the root raises, the run returns,
    and afterwards the gradient of every node is what the closures of
    the nodes of [topo], called from the last to the first, make of its
    seed ([1.0] for the root, the gradient it had before for any other
    node): each closure adds what it computes from the final gradient of
    its own node. *)
Theorem backward_adjoint (limit : nat) (h : heap) (root : ref) :
  wf h → root < length h → fits limit h root → runs_below h root →
  ∃ topo h',
    topo_order limit h root = Some topo ∧
    backward limit root h = (Ok tt, h') ∧
    ∀ v, grad (h' !!! v) =
         accumulate_all h' (reverse topo) v (seed h root v).
Proof.
  intros Hwf Hroot Hfit Hruns.
  destruct (backward_sum h root Hwf Hroot Hruns)
    as (topo & h' & Htopo & _ & _ & Hrun & _ & Hg).
  exists topo, h'.
  rewrite (backward_limit limit), (topo_order_limit limit)
    by (done || by apply wf_closed).
  split_and!; [done|done|]. intros v. by rewrite accumulate_all_sum.
Qed.

(** A node with a single consumer among the nodes reachable from the
    root. *)
Lemma backward_single (h : heap) (root u0 v : ref) :
  wf h → root < length h → runs_below h root →
  reachable h root u0 → v ≠ root →
  (∀ u, reachable h root u → u ≠ u0 → v ∉ _prev (h !!! u)) →
  ∃ h', backward (S (length h)) root h = (Ok tt, h') ∧
        skeleton h' = skeleton h ∧
        grad (h' !!! root) = one ∧
        grad (h' !!! v) =
          grad (h !!! v) + contrib (_backward (h !!! u0)) h' v.
Proof.
  intros Hwf Hroot Hruns Hu0 Hv Hcons.
  destruct (backward_sum h root Hwf Hroot Hruns)
    as (topo & h' & Htopo & Hnd & Hreach & Hrun & Hs & Hg).
  pose proof (wf_skeleton _ _ Hs Hwf) as Hwf'.
  exists h'. split_and!; [done|done| |].
  - rewrite Hg. unfold seed. rewrite decide_True by done.
    rewrite sum_contrib_zero; [ring|done|].
    intros u Hu Hin. rewrite elem_of_reverse, Hreach in Hu.
    rewrite (skeleton_prev _ _ u Hs) in Hin.
    apply (reachable_le h) in Hu; [|done].
    rewrite wf_total in Hwf. destruct (Hwf u) as [Hlt _].
    apply Hlt in Hin. lia.
  - rewrite Hg. unfold seed. rewrite decide_False by done.
    rewrite (sum_contrib_single h' (reverse topo) u0 v).
    + by rewrite (skeleton_closure _ _ u0 Hs).
    + done.
    + by rewrite reverse_Permutation.
    + rewrite elem_of_reverse. by apply Hreach.
    + intros u Hu Hne. rewrite elem_of_reverse, Hreach in Hu.
      rewrite (skeleton_prev _ _ u Hs). by apply Hcons.
Qed.

(** X2. The chain rule for a node with one consumer: if, among the nodes
    reachable from the root, only [u0] has [v] as an operand, a run of
    [backward] that fits in the frames that are left and in which no
    power raises does to [v.grad] exactly what the [+=] statements of the
    closure of [u0] do to it when they read the final gradient of
    [u0]. *)
Theorem backward_chain_rule (limit : nat) (h : heap) (root u0 v : ref) :
  wf h → root < length h → fits limit h root → runs_below h root →
  reachable h root u0 → v ≠ root →
  (∀ u, reachable h root u → u ≠ u0 → v ∉ _prev (h !!! u)) →
  ∃ h', backward limit root h = (Ok tt, h') ∧
        grad (h' !!! v) =
          accumulate (_backward (h !!! u0)) h' v (grad (h !!! v)).
Proof.
  intros Hwf Hroot Hfit Hruns Hu0 Hv Hcons.
  destruct (backward_single h root u0 v Hwf Hroot Hruns Hu0 Hv Hcons)
    as (h' & Hrun & _ & _ & Hg).
  exists h'. rewrite (backward_limit limit) by done.
  split; [done|]. by rewrite accumulate_contrib.
Qed.

(** The loop of [backward], whatever its outcome: it changes gradients
    only, and only those of the targets of the closures it called. *)
Lemma run_backwards_frame (l : list ref) :
  ∀ h r h', run_backwards l h = (r, h') →
    skeleton h' = skeleton h ∧
    ∀ v, (∀ u, u ∈ l → v ∉ targets (_backward (h !!! u))) →
         grad (h' !!! v) = grad (h !!! v).
Proof.
  induction l as [|node rest IH]; intros h r h' Hrun;
    cbn [run_backwards] in Hrun.
  { injection Hrun as <- <-. by split. }
  unfold bind in Hrun.
  destruct (call (_backward (h !!! node)) h) as [[[]|e] h1] eqn:Hcall;
    destruct (call_frame _ _ _ _ Hcall) as (Hs1 & Hg1 & _).
  - destruct (IH _ _ _ Hrun) as [Hs' Hg']. split; [congruence|].
    intros v Hv. rewrite Hg', Hg1; [done|apply Hv; by left|].
    intros u Hu. rewrite (skeleton_closure _ _ u Hs1). apply Hv. by right.
  - injection Hrun as <- <-. split; [done|].
    intros v Hv. apply Hg1, Hv. by left.
Qed.

(** X3. [backward] writes gradients only, and only those of nodes
    reachable from the root, whether it returns or raises: the arena
    keeps its length, every node keeps its [data], [_prev], [_backward],
    [_op] and [label], and a node that is not reachable from the root is
    the same record afterwards.  When the traversal runs out of frames
    the run raises [RecursionError] and the arena is untouched. *)
Theorem backward_touches_reachable_gradients_only (limit : nat) (h : heap)
    (root : ref) (r : result unit) (h' : heap) :
  wf h → backward limit root h = (r, h') →
  length h' = length h ∧
  (∀ i, with_grad zero (h' !!! i) = with_grad zero (h !!! i)) ∧
  (∀ i, ¬ reachable h root i → h' !! i = h !! i) ∧
  (topo_order limit h root = None → r = Raise RecursionError ∧ h' = h).
Proof.
  intros Hwf Hrun. unfold backward in Hrun.
  destruct (topo_order limit h root) as [topo|] eqn:Htopo.
  2:{ injection Hrun as <- <-. split_and!; try done. }
  unfold bind at 1 in Hrun. unfold set_grad in Hrun.
  set (h0 := alter (with_grad one) root h) in Hrun.
  assert (Hs0 : skeleton h0 = skeleton h) by by apply skeleton_alter.
  destruct (run_backwards_frame _ _ _ _ Hrun) as [Hs1 Hg1].
  assert (Hs : skeleton h' = skeleton h) by congruence.
  pose proof (skeleton_length _ _ Hs) as Hlen.
  assert (Hin : ∀ u, u ∈ topo → reachable h root u).
  { intros u Hu. unfold topo_order in Htopo.
    destruct (build_topo limit h root (∅, [])) as [s'|] eqn:Hb;
      [|discriminate].
    injection Htopo as <-.
    destruct (build_topo_reachable _ _ _ _ _ Hb _ Hu) as [Hnil|?]; [|done].
    cbn [snd] in Hnil. by apply elem_of_nil in Hnil. }
  split_and!; [done|by intros i; apply skeleton_lookup| |done].
  intros i Hi.
  assert (Hgi : grad (h' !!! i) = grad (h !!! i)).
  { rewrite Hg1.
    - unfold h0. rewrite list_lookup_total_alter_ne; [done|].
      intros ->. apply Hi, reach_refl.
    - intros u Hu Htg. rewrite elem_of_reverse in Hu. apply Hin in Hu.
      rewrite (skeleton_closure _ _ u Hs0) in Htg.
      apply Hi. eapply reach_step; [exact Hu|].
      pose proof Hwf as Hall. rewrite wf_total in Hall.
      destruct (Hall u) as [_ [Hnone|(_ & _ & Hprev)]].
      + rewrite Hnone in Htg. by apply elem_of_nil in Htg.
      + rewrite Hprev. by apply elem_of_list_to_set. }
  destruct (decide (i < length h)) as [Hlt|Hge].
  - rewrite (list_lookup_lookup_total_lt h' i) by lia.
    rewrite (list_lookup_lookup_total_lt h i) by lia.
    f_equal. apply value_eq; [by apply skeleton_lookup|done].
  - by rewrite !lookup_ge_None_2 by lia.
Qed.

End AdjointProperties.

(** ** Local derivatives: one operation, then [backward] on its result *)

Section LocalGradients.
Context {N : Num}.
Local Open Scope num_scope.

Add Ring num_ring_local : num_ring.

Lemma unused_self (h : heap) (a : ref) : wf h → unused_below h a a.
Proof.
  intros Hwf u Hu Hin. apply (reachable_le h) in Hu; [|done].
  rewrite wf_total in Hwf. destruct (Hwf u) as [Hlt _].
  apply Hlt in Hin. lia.
Qed.

Lemma fresh_root_lt (h : heap) (n : Value) (c : ref) :
  wf (h ++ [n]) → c ∈ _prev n → c < length h.
Proof.
  intros Hwf1 Hc. rewrite wf_total in Hwf1.
  destruct (Hwf1 (length h)) as [Hlt _]. apply Hlt.
  by rewrite lookup_total_new.
Qed.

(** The node just appended takes one frame more than its operands. *)
Lemma fresh_root_fits (limit : nat) (h : heap) (n : Value) :
  wf h → wf (h ++ [n]) →
  (∀ c, c ∈ _prev n → fits limit h c) →
  fits (S limit) (h ++ [n]) (length h).
Proof.
  intros Hwf Hwf1 Hfit. apply fits_new. intros c Hc.
  apply fits_old; [done|by apply (fresh_root_lt h n)|by apply Hfit].
Qed.

Lemma fresh_root_runs (h : heap) (n : Value) :
  wf h → wf (h ++ [n]) →
  closure_runs (h ++ [n]) (_backward n) = true →
  (∀ c, c ∈ _prev n → runs_below h c) →
  runs_below (h ++ [n]) (length h).
Proof.
  intros Hwf Hwf1 Hn Hruns. apply runs_below_new; [done|]. intros c Hc.
  apply runs_below_old; [done|by apply (fresh_root_lt h n)|by apply Hruns].
Qed.

Lemma length_new (h : heap) (n : Value) : length h < length (h ++ [n]).
Proof. rewrite length_app. cbn. lia. Qed.

(** [backward] on the node just appended to a well-formed arena. *)
Lemma fresh_root_gradient (limit : nat) (h : heap) (n : Value) (v : ref) :
  wf h → wf (h ++ [n]) → v < length h →
  (∀ c, c ∈ _prev n → unused_below h v c) →
  (∀ c, c ∈ _prev n → fits limit h c) →
  closure_runs (h ++ [n]) (_backward n) = true →
  (∀ c, c ∈ _prev n → runs_below h c) →
  ∃ h2, backward (S limit) (length h) (h ++ [n]) = (Ok tt, h2) ∧
        grad (h2 !!! length h) = one ∧
        grad (h2 !!! v) =
          grad (h !!! v) +
          contrib (_backward n)
            (alter (with_grad one) (length h) (h ++ [n])) v.
Proof.
  intros Hwf Hwf1 Hv Hunused Hfit Hn Hruns.
  pose proof (length_new h n) as Hz.
  rewrite (backward_limit (S limit))
    by (done || by apply fresh_root_fits).
  destruct (backward_effect (h ++ [n]) (length h) Hwf1 Hz)
    as (h2 & Hrun & _ & Hroot & Hg); [by apply fresh_root_runs|].
  exists h2. split_and!; [done|done|].
  rewrite (Hg v); [|lia|].
  - by rewrite lookup_total_new, lookup_total_app_l.
  - intros u Hu Hne.
    apply reachable_inv in Hu as [->|(c & Hc & Hr)]; [done|].
    rewrite lookup_total_new in Hc.
    pose proof (fresh_root_lt h n c Hwf1 Hc) as Hclt.
    destruct (reachable_old h [n] c u Hwf Hclt Hr) as [Hr' Hu'].
    rewrite lookup_total_app_l by done. by apply (Hunused c).
Qed.

(** [backward] on the node just appended when the power in its closure
    raises: the closure of the root is the first to be called, so the
    run ends there, with the gradient of the root set and no other
    written. *)
Lemma fresh_root_raises (limit : nat) (h : heap) (n : Value) (e : exn) :
  wf h → wf (h ++ [n]) →
  (∀ c, c ∈ _prev n → fits limit h c) →
  call (_backward n) (alter (with_grad one) (length h) (h ++ [n])) =
    (Raise e, alter (with_grad one) (length h) (h ++ [n])) →
  backward (S limit) (length h) (h ++ [n]) =
    (Raise e, alter (with_grad one) (length h) (h ++ [n])).
Proof.
  intros Hwf Hwf1 Hfit Hcall.
  pose proof (length_new h n) as Hz.
  rewrite (backward_limit (S limit))
    by (done || by apply fresh_root_fits).
  destruct (topo_order_total (h ++ [n]) (length h) (wf_closed _ Hwf1) Hz)
    as [topo Htopo].
  destruct (topo_order_last _ _ _ _ Htopo) as [T ->].
  unfold backward. rewrite Htopo, reverse_snoc. cbn [run_backwards].
  unfold bind at 1. unfold set_grad. unfold bind.
  rewrite list_lookup_total_alter_eq by done.
  rewrite lookup_total_new. cbn [_backward with_grad].
  by rewrite Hcall.
Qed.

Lemma seeded_data (h : heap) (n : Value) (a : ref) :
  a < length h →
  data (alter (with_grad one) (length h) (h ++ [n]) !!! a) = data (h !!! a).
Proof.
  intros Ha. rewrite list_lookup_total_alter_ne by lia.
  by rewrite lookup_total_app_l.
Qed.

Lemma seeded_grad (h : heap) (n : Value) (a : ref) :
  a < length h →
  grad (alter (with_grad one) (length h) (h ++ [n]) !!! a) = grad (h !!! a).
Proof.
  intros Ha. rewrite list_lookup_total_alter_ne by lia.
  by rewrite lookup_total_app_l.
Qed.

Lemma seeded_root (h : heap) (n : Value) :
  alter (with_grad one) (length h) (h ++ [n]) !!! length h = with_grad one n.
Proof.
  rewrite list_lookup_total_alter_eq by (rewrite length_app; cbn; lia).
  by rewrite lookup_total_new.
Qed.

Ltac read_contrib :=
  cbn [_backward new_node contrib]; unfold share;
  repeat case_decide; try congruence;
  rewrite ?seeded_root, ?seeded_data by done;
  cbn [grad data with_grad new_node]; try ring.

(** X4. [z = a + b] on two distinct nodes, neither used below the other,
    then [z.backward()] with a frame for [z] above those the graphs below
    [a] and [b] need, and no power raising below them: both runs return,
    and [a.grad] and [b.grad] have each grown by [1.0]. *)
Theorem add_gradient (limit : nat) (h : heap) (a b : ref) :
  wf h → a < length h → b < length h → a ≠ b →
  unused_below h a b → unused_below h b a →
  fits limit h a → fits limit h b → runs_below h a → runs_below h b →
  ∃ z h1 h2,
    __add__ a (ONode b) h = (Ok z, h1) ∧
    data (h1 !!! z) = data (h !!! a) + data (h !!! b) ∧
    backward (S limit) z h1 = (Ok tt, h2) ∧
    grad (h2 !!! z) = one ∧
    grad (h2 !!! a) = grad (h !!! a) + one ∧
    grad (h2 !!! b) = grad (h !!! b) + one.
Proof.
  intros Hwf Ha Hb Hab Hua Hub Hfa Hfb Hra Hrb.
  rewrite add_node_node. set (n := new_node _ _ _ _).
  assert (Hwf1 : wf (h ++ [n])).
  { apply (run_op_wf (F_add a (ONode b)) h (Ok (length h))); [done| |].
    - intros x Hx. cbn in Hx. set_solver.
    - cbn [run_op]. by rewrite add_node_node. }
  assert (Hprev : ∀ c, c ∈ _prev n → c = a ∨ c = b).
  { intros c Hc. cbn in Hc. set_solver. }
  assert (Hfit : ∀ c, c ∈ _prev n → fits limit h c).
  { by intros c [->| ->]%Hprev. }
  assert (Hruns : ∀ c, c ∈ _prev n → runs_below h c).
  { by intros c [->| ->]%Hprev. }
  destruct (fresh_root_gradient limit h n a Hwf Hwf1 Ha)
    as (h2 & Hrun & Hz & Hga); [|done..|].
  { intros c [->| ->]%Hprev; [by apply unused_self|done]. }
  destruct (fresh_root_gradient limit h n b Hwf Hwf1 Hb)
    as (h2' & Hrun' & _ & Hgb); [|done..|].
  { intros c [->| ->]%Hprev; [done|by apply unused_self]. }
  rewrite Hrun in Hrun'. injection Hrun' as <-.
  exists (length h), (h ++ [n]), h2.
  split_and!; [done|by rewrite lookup_total_new|done|done| |].
  - rewrite Hga. subst n. read_contrib.
  - rewrite Hgb. subst n. read_contrib.
Qed.

(** X5. [z = a * b] on two distinct nodes, neither used below the other,
    then [z.backward()] with a frame for [z] above those the graphs below
    [a] and [b] need, and no power raising below them: [a.grad] has grown
    by [b.data] and [b.grad] by [a.data]. *)
Theorem mul_gradient (limit : nat) (h : heap) (a b : ref) :
  wf h → a < length h → b < length h → a ≠ b →
  unused_below h a b → unused_below h b a →
  fits limit h a → fits limit h b → runs_below h a → runs_below h b →
  ∃ z h1 h2,
    __mul__ a (ONode b) h = (Ok z, h1) ∧
    data (h1 !!! z) = data (h !!! a) * data (h !!! b) ∧
    backward (S limit) z h1 = (Ok tt, h2) ∧
    grad (h2 !!! z) = one ∧
    grad (h2 !!! a) = grad (h !!! a) + data (h !!! b) ∧
    grad (h2 !!! b) = grad (h !!! b) + data (h !!! a).
Proof.
  intros Hwf Ha Hb Hab Hua Hub Hfa Hfb Hra Hrb.
  rewrite mul_node_node. set (n := new_node _ _ _ _).
  assert (Hwf1 : wf (h ++ [n])).
  { apply (run_op_wf (F_mul a (ONode b)) h (Ok (length h))); [done| |].
    - intros x Hx. cbn in Hx. set_solver.
    - cbn [run_op]. by rewrite mul_node_node. }
  assert (Hprev : ∀ c, c ∈ _prev n → c = a ∨ c = b).
  { intros c Hc. cbn in Hc. set_solver. }
  assert (Hfit : ∀ c, c ∈ _prev n → fits limit h c).
  { by intros c [->| ->]%Hprev. }
  assert (Hruns : ∀ c, c ∈ _prev n → runs_below h c).
  { by intros c [->| ->]%Hprev. }
  destruct (fresh_root_gradient limit h n a Hwf Hwf1 Ha)
    as (h2 & Hrun & Hz & Hga); [|done..|].
  { intros c [->| ->]%Hprev; [by apply unused_self|done]. }
  destruct (fresh_root_gradient limit h n b Hwf Hwf1 Hb)
    as (h2' & Hrun' & _ & Hgb); [|done..|].
  { intros c [->| ->]%Hprev; [done|by apply unused_self]. }
  rewrite Hrun in Hrun'. injection Hrun' as <-.
  exists (length h), (h ++ [n]), h2.
  split_and!; [done|by rewrite lookup_total_new|done|done| |].
  - rewrite Hga. subst n. read_contrib.
  - rewrite Hgb. subst n. read_contrib.
Qed.

(** [backward] on a fresh node with a single operand. *)
Lemma one_input_gradient (limit : nat) (h : heap) (n : Value) (a : ref) :
  wf h → wf (h ++ [n]) → a < length h → _prev n = list_to_set [a] →
  fits limit h a → runs_below h a →
  closure_runs (h ++ [n]) (_backward n) = true →
  ∃ h2, backward (S limit) (length h) (h ++ [n]) = (Ok tt, h2) ∧
        grad (h2 !!! length h) = one ∧
        grad (h2 !!! a) =
          grad (h !!! a) +
          contrib (_backward n)
            (alter (with_grad one) (length h) (h ++ [n])) a.
Proof.
  intros Hwf Hwf1 Ha Hprev Hfit Hruns Hn.
  assert (Hc : ∀ c, c ∈ _prev n → c = a).
  { intros c Hc. rewrite Hprev in Hc. set_solver. }
  apply fresh_root_gradient; [done|done|done| | |done|].
  - intros c ->%Hc. by apply unused_self.
  - by intros c ->%Hc.
  - by intros c ->%Hc.
Qed.

(** The same when the power in the closure of the fresh node raises. *)
Lemma one_input_raises (limit : nat) (h : heap) (n : Value) (a : ref)
    (e : exn) :
  wf h → wf (h ++ [n]) → a < length h → _prev n = list_to_set [a] →
  fits limit h a →
  call (_backward n) (alter (with_grad one) (length h) (h ++ [n])) =
    (Raise e, alter (with_grad one) (length h) (h ++ [n])) →
  ∃ h2, backward (S limit) (length h) (h ++ [n]) = (Raise e, h2) ∧
        grad (h2 !!! length h) = one ∧
        grad (h2 !!! a) = grad (h !!! a).
Proof.
  intros Hwf Hwf1 Ha Hprev Hfit Hcall.
  eexists. split_and!.
  - apply fresh_root_raises; [done|done| |done].
    intros c Hc. rewrite Hprev in Hc. by assert (c = a) as -> by set_solver.
  - by rewrite seeded_root.
  - by rewrite seeded_grad.
Qed.

Lemma one_input_wf (op : forward_op) (h : heap) (n : Value) (a : ref) :
  wf h → a < length h → node_inputs op = [a] →
  run_op op h = (Ok (length h), h ++ [n]) → wf (h ++ [n]).
Proof.
  intros Hwf Ha Hin Hrun.
  apply (run_op_wf op h (Ok (length h)) (h ++ [n]) Hwf); [|exact Hrun].
  intros x Hx. rewrite Hin in Hx. by apply list_elem_of_singleton in Hx as ->.
Qed.

(** X6. An operation with a plain number: after [z = a + k] and
    [z.backward()], [a.grad] has grown by [1.0]; after [z = a * k] and
    [z.backward()], by [k].  The number itself receives nothing: only [a]
    is recorded as an operand.  [backward] has a frame for [z] above
    those the graph below [a] needs, and no power raises below [a]. *)
Theorem const_operand_gradient (limit : nat) (h : heap) (a : ref)
    (k : num) :
  wf h → a < length h → fits limit h a → runs_below h a →
  (∃ z h1 h2,
     __add__ a (OConst k) h = (Ok z, h1) ∧
     data (h1 !!! z) = data (h !!! a) + k ∧
     _prev (h1 !!! z) = {[a]} ∧
     backward (S limit) z h1 = (Ok tt, h2) ∧
     grad (h2 !!! a) = grad (h !!! a) + one) ∧
  (∃ z h1 h2,
     __mul__ a (OConst k) h = (Ok z, h1) ∧
     data (h1 !!! z) = data (h !!! a) * k ∧
     _prev (h1 !!! z) = {[a]} ∧
     backward (S limit) z h1 = (Ok tt, h2) ∧
     grad (h2 !!! a) = grad (h !!! a) + k).
Proof.
  intros Hwf Ha Hfit Hruns. split.
  - rewrite add_node_const. set (n := new_node _ _ _ _).
    assert (Hwf1 : wf (h ++ [n])).
    { apply (one_input_wf (F_add a (OConst k)) h n a); [done|done|done|].
      cbn [run_op]. by rewrite add_node_const. }
    destruct (one_input_gradient limit h n a Hwf Hwf1 Ha eq_refl Hfit Hruns)
      as (h2 & Hrun & _ & Hg); [done|].
    exists (length h), (h ++ [n]), h2. rewrite lookup_total_new.
    split_and!; [done|done|apply list_to_set_one|done|].
    rewrite Hg. subst n. read_contrib.
  - rewrite mul_node_const. set (n := new_node _ _ _ _).
    assert (Hwf1 : wf (h ++ [n])).
    { apply (one_input_wf (F_mul a (OConst k)) h n a); [done|done|done|].
      cbn [run_op]. by rewrite mul_node_const. }
    destruct (one_input_gradient limit h n a Hwf Hwf1 Ha eq_refl Hfit Hruns)
      as (h2 & Hrun & _ & Hg); [done|].
    exists (length h), (h ++ [n]), h2. rewrite lookup_total_new.
    split_and!; [done|done|apply list_to_set_one|done|].
    rewrite Hg. subst n. read_contrib.
Qed.

(** X7. [z = a ** k] when [a.data ** k] returns [p], then
    [z.backward()]: [z.data] is [p], and the closure of [z] computes
    [a.data ** (k - 1)].  When that power returns [d], [backward] returns
    and [a.grad] has grown by [k * d]; when it raises, as [0 ** -1] does
    after [a = Value(0); z = a ** 0], [backward] raises the same
    exception after [z.grad = 1.0], with [a.grad] as it was. *)
Theorem pow_gradient (limit : nat) (h : heap) (a : ref) (k p : num) :
  wf h → a < length h → fits limit h a → runs_below h a →
  data (h !!! a) ** k = Ok p →
  ∃ z h1 r h2,
    __pow__ a (OConst k) h = (Ok z, h1) ∧
    data (h1 !!! z) = p ∧
    backward (S limit) z h1 = (r, h2) ∧
    grad (h2 !!! z) = one ∧
    match data (h !!! a) ** (k - one) with
    | Ok d => r = Ok tt ∧ grad (h2 !!! a) = grad (h !!! a) + k * d
    | Raise e => r = Raise e ∧ grad (h2 !!! a) = grad (h !!! a)
    end.
Proof.
  intros Hwf Ha Hfit Hruns Hp. rewrite pow_const, Hp.
  set (n := new_node _ _ _ _).
  assert (Hwf1 : wf (h ++ [n])).
  { apply (one_input_wf (F_pow a (OConst k)) h n a); [done|done|done|].
    cbn [run_op]. by rewrite pow_const, Hp. }
  destruct (data (h !!! a) ** (k - one)) as [d|e] eqn:Hd.
  - destruct (one_input_gradient limit h n a Hwf Hwf1 Ha eq_refl Hfit Hruns)
      as (h2 & Hrun & Hz & Hg).
    { cbn [n new_node _backward closure_runs].
      by rewrite lookup_total_app_l, Hd. }
    exists (length h), (h ++ [n]), (Ok tt), h2. rewrite lookup_total_new.
    split_and!; [done|done|done|done|done|].
    rewrite Hg. subst n. cbn [_backward new_node contrib]. unfold share.
    rewrite decide_True by done.
    rewrite seeded_root, seeded_data, Hd by done.
    cbn [grad with_grad value_of]. ring.
  - destruct (one_input_raises limit h n a e Hwf Hwf1 Ha eq_refl Hfit)
      as (h2 & Hrun & Hz & Hg).
    { cbn [n new_node _backward call]. unfold bind, get_data, lift.
      by rewrite seeded_data, Hd. }
    exists (length h), (h ++ [n]), (Raise e), h2. rewrite lookup_total_new.
    by split_and!.
Qed.

(** X8. [z = a.exp()] when [math.exp(a.data)] returns [e], then
    [z.backward()]: [z.data] is [e] and [a.grad] has grown by that same
    number. *)
Theorem exp_gradient (limit : nat) (h : heap) (a : ref) (e : num) :
  wf h → a < length h → fits limit h a → runs_below h a →
  math_exp (data (h !!! a)) = Ok e →
  ∃ z h1 h2,
    exp a h = (Ok z, h1) ∧
    data (h1 !!! z) = e ∧
    backward (S limit) z h1 = (Ok tt, h2) ∧
    grad (h2 !!! a) = grad (h !!! a) + e.
Proof.
  intros Hwf Ha Hfit Hruns He. rewrite exp_node, He.
  set (n := new_node _ _ _ _).
  assert (Hwf1 : wf (h ++ [n])).
  { apply (one_input_wf (F_exp a) h n a); [done|done|done|].
    cbn [run_op]. by rewrite exp_node, He. }
  destruct (one_input_gradient limit h n a Hwf Hwf1 Ha eq_refl Hfit Hruns)
    as (h2 & Hrun & _ & Hg); [done|].
  exists (length h), (h ++ [n]), h2. rewrite lookup_total_new.
  split_and!; [done|done|done|].
  rewrite Hg. subst n. read_contrib.
Qed.

(** X9. [z = a.tanh()] when [(exp(2x) - 1) / (exp(2x) + 1)] returns [t]
    for [x = a.data], then [z.backward()]: [z.data] is [t], and the
    closure of [z] computes [t ** 2].  When that power returns [p],
    [backward] returns and [a.grad] has grown by [1 - p]; when it raises,
    [backward] raises the same exception after [z.grad = 1.0], with
    [a.grad] as it was. *)
Theorem tanh_gradient (limit : nat) (h : heap) (a : ref) (t : num) :
  wf h → a < length h → fits limit h a → runs_below h a →
  tanh_of (data (h !!! a)) = Ok t →
  ∃ z h1 r h2,
    tanh a h = (Ok z, h1) ∧
    data (h1 !!! z) = t ∧
    backward (S limit) z h1 = (r, h2) ∧
    grad (h2 !!! z) = one ∧
    match t ** two with
    | Ok p => r = Ok tt ∧ grad (h2 !!! a) = grad (h !!! a) + (one - p)
    | Raise e => r = Raise e ∧ grad (h2 !!! a) = grad (h !!! a)
    end.
Proof.
  intros Hwf Ha Hfit Hruns Ht. rewrite tanh_node, Ht.
  set (n := new_node _ _ _ _).
  assert (Hwf1 : wf (h ++ [n])).
  { apply (one_input_wf (F_tanh a) h n a); [done|done|done|].
    cbn [run_op]. by rewrite tanh_node, Ht. }
  destruct (t ** two) as [p|e] eqn:Hp.
  - destruct (one_input_gradient limit h n a Hwf Hwf1 Ha eq_refl Hfit Hruns)
      as (h2 & Hrun & Hz & Hg).
    { cbn [n new_node _backward closure_runs]. by rewrite Hp. }
    exists (length h), (h ++ [n]), (Ok tt), h2. rewrite lookup_total_new.
    split_and!; [done|done|done|done|done|].
    rewrite Hg. subst n. cbn [_backward new_node contrib]. unfold share.
    rewrite decide_True by done.
    rewrite seeded_root, Hp by done.
    cbn [grad with_grad value_of]. ring.
  - destruct (one_input_raises limit h n a e Hwf Hwf1 Ha eq_refl Hfit)
      as (h2 & Hrun & Hz & Hg).
    { cbn [n new_node _backward call]. unfold bind, lift.
      by rewrite Hp. }
    exists (length h), (h ++ [n]), (Raise e), h2. rewrite lookup_total_new.
    by split_and!.
Qed.

End LocalGradients.

(** ** The derived operations under [backward] *)

Section DerivedGradients.
Context {N : Num}.
Local Open Scope num_scope.

Add Ring num_ring_derived : num_ring.

(** An operation that builds an inner node [n] over [b] and returns an
    outer node [z] over [a] and [n]: the shape of [a - b] and [a / b]. *)
Lemma two_node_gradients (limit : nat) (h : heap) (n z : Value)
    (a b : ref) :
  let H := (h ++ [n]) ++ [z] in
  let L := length h in
  wf h → wf H → a < L → b < L → a ≠ b →
  unused_below h a b → unused_below h b a →
  _prev n = list_to_set [b] → _prev z = list_to_set [a; L] →
  fits limit h a → fits limit h b → runs_below h a → runs_below h b →
  closure_runs H (_backward n) = true →
  closure_runs H (_backward z) = true →
  ∃ h2, backward (S (S limit)) (length (h ++ [n])) H = (Ok tt, h2) ∧
        skeleton h2 = skeleton H ∧
        grad (h2 !!! length (h ++ [n])) = one ∧
        grad (h2 !!! L) = grad n + contrib (_backward z) h2 L ∧
        grad (h2 !!! a) = grad (h !!! a) + contrib (_backward z) h2 a ∧
        grad (h2 !!! b) = grad (h !!! b) + contrib (_backward n) h2 b.
Proof.
  intros H L Hwf HwfH Ha Hb Hab Hua Hub Hpn Hpz Hfa Hfb Hra Hrb Hcn Hcz.
  assert (HL1 : length (h ++ [n]) = S L) by (rewrite length_app; cbn; lia).
  assert (HlenH : length H = S (S L)).
  { unfold H. rewrite length_app, HL1. cbn. lia. }
  assert (Hz : H !!! length (h ++ [n]) = z) by apply lookup_total_new.
  assert (Hn : H !!! L = n).
  { unfold H. rewrite lookup_total_app_l by lia. apply lookup_total_new. }
  assert (Hold : ∀ i, i < L → H !!! i = h !!! i).
  { intros i Hi. unfold H. rewrite <- app_assoc.
    by rewrite lookup_total_app_l. }
  assert (Hreach : ∀ u, reachable H (length (h ++ [n])) u →
    u = length (h ++ [n]) ∨ u = L ∨
    (u < L ∧ (reachable h a u ∨ reachable h b u))).
  { intros u Hu.
    apply reachable_inv in Hu as [->|(c & Hc & Hr)]; [by left|right].
    rewrite Hz, Hpz in Hc.
    assert (Hfrom_old : ∀ c, c < L → reachable H c u →
              u < L ∧ reachable h c u).
    { intros c' Hc' Hr'. unfold H in Hr'. rewrite <- app_assoc in Hr'.
      destruct (reachable_old h _ c' u Hwf Hc' Hr'). done. }
    assert (c = a ∨ c = L) as [->| ->] by set_solver.
    - right. destruct (Hfrom_old a Ha Hr). split; [done|by left].
    - apply reachable_inv in Hr as [->|(c & Hc' & Hr)]; [by left|right].
      rewrite Hn, Hpn in Hc'. assert (c = b) as -> by set_solver.
      destruct (Hfrom_old b Hb Hr). split; [done|by right]. }
  assert (Hprev_old : ∀ u v, u < L → v ∈ _prev (H !!! u) → v < u).
  { intros u v Hu Hv. rewrite wf_total in HwfH.
    destruct (HwfH u) as [Hlt _]. by apply Hlt. }
  assert (Hrz : reachable H (length (h ++ [n])) (length (h ++ [n])))
    by apply reach_refl.
  assert (Hrn : reachable H (length (h ++ [n])) L).
  { eapply reach_step; [exact Hrz|]. rewrite Hz, Hpz. set_solver. }
  assert (Hroot : length (h ++ [n]) < length H) by lia.
  assert (HH : H = h ++ [n; z]) by (unfold H; by rewrite <- app_assoc).
  assert (Hfit : fits (S (S limit)) H (length (h ++ [n]))).
  { apply fits_new. fold H. intros c Hc. rewrite Hpz in Hc.
    assert (c = a ∨ c = L) as [->| ->] by set_solver.
    - rewrite HH. apply fits_old; [done|done|].
      apply (fits_mono h limit); [lia|done].
    - cbn [fits]. intros c Hc'. rewrite Hn, Hpn in Hc'.
      assert (c = b) as -> by set_solver.
      rewrite HH. by apply fits_old. }
  assert (HrunsH : runs_below H (length (h ++ [n]))).
  { intros u Hu.
    destruct (Hreach u Hu) as [->| [->|[Hlt Hr]]].
    - by rewrite Hz.
    - by rewrite Hn.
    - rewrite Hold by done. rewrite HH, closure_runs_old by done.
      destruct Hr as [Hr|Hr]; [by apply Hra|by apply Hrb]. }
  rewrite (backward_limit (S (S limit))) by done.
  destruct (backward_single H _ (length (h ++ [n])) L HwfH Hroot HrunsH Hrz)
    as (h2 & Hrun & Hs & Hgz & HgL); [lia| |].
  { intros u Hu Hne Hin.
    destruct (Hreach u Hu) as [->| [->|[Hlt _]]]; [done| |].
    - rewrite Hn, Hpn in Hin. set_solver by lia.
    - apply Hprev_old in Hin; [lia|done]. }
  destruct (backward_single H _ (length (h ++ [n])) a HwfH Hroot HrunsH Hrz)
    as (h2' & Hrun' & _ & _ & Hga); [lia| |].
  { intros u Hu Hne Hin.
    destruct (Hreach u Hu) as [->| [->|[Hlt [Hr|Hr]]]]; [done| | |].
    - rewrite Hn, Hpn in Hin. set_solver.
    - rewrite Hold in Hin by done. by apply (unused_self h a Hwf u).
    - rewrite Hold in Hin by done. by apply (Hua u). }
  rewrite Hrun in Hrun'. injection Hrun' as <-.
  destruct (backward_single H _ L b HwfH Hroot HrunsH Hrn)
    as (h2' & Hrun' & _ & _ & Hgb); [lia| |].
  { intros u Hu Hne Hin.
    destruct (Hreach u Hu) as [->| [->|[Hlt [Hr|Hr]]]]; [|done| |].
    - rewrite Hz, Hpz in Hin. set_solver by lia.
    - rewrite Hold in Hin by done. by apply (Hub u).
    - rewrite Hold in Hin by done. by apply (unused_self h b Hwf u). }
  rewrite Hrun in Hrun'. injection Hrun' as <-.
  exists h2. rewrite Hz in Hga, HgL. rewrite Hn in HgL, Hgb.
  rewrite !Hold in * by done. by split_and!.
Qed.

Lemma sub_nodes (a b : ref) (h : heap) :
  a < length h →
  __sub__ a (ONode b) h =
  (let n := new_node (data (h !!! b) * minus_one)
              (mul_backward b (OConst minus_one) (length h)) [b] op_mul in
   let z := new_node (data (h !!! a) + data (h !!! b) * minus_one)
              (add_backward a (ONode (length h)) (length (h ++ [n])))
              [a; length h] op_add in
   (Ok (length (h ++ [n])), (h ++ [n]) ++ [z])).
Proof.
  intros Ha. unfold __sub__, py_neg, fmapM, bind. rewrite neg_node.
  cbn [ret]. rewrite add_node_node.
  by rewrite lookup_total_new, lookup_total_app_l.
Qed.

Lemma truediv_nodes (a b : ref) (h : heap) (p : num) :
  a < length h → data (h !!! b) ** minus_one = Ok p →
  __truediv__ a (ONode b) h =
  (let n := new_node p (pow_backward b minus_one (length h)) [b]
              (op_pow minus_one) in
   let z := new_node (data (h !!! a) * p)
              (mul_backward a (ONode (length h)) (length (h ++ [n])))
              [a; length h] op_mul in
   (Ok (length (h ++ [n])), (h ++ [n]) ++ [z])).
Proof.
  intros Ha Hp. unfold __truediv__, py_pow_minus_one, fmapM, bind.
  rewrite pow_const, Hp. cbn [ret]. rewrite mul_node_node.
  by rewrite lookup_total_new, lookup_total_app_l.
Qed.

Ltac read_final Hs Hgz :=
  cbn [_backward new_node contrib]; unfold share;
  repeat case_decide; try congruence; try lia;
  rewrite ?Hgz, ?(skeleton_data _ _ _ Hs);
  rewrite ?lookup_total_new;
  cbn [grad data new_node].

(** X10. [z = a - b] on two distinct nodes, neither used below the
    other, builds the two nodes [-b = b * -1] and [z = a + (-b)], so
    [z.data] is [a.data + b.data * -1]; after [z.backward()], with two
    frames above those the graphs below [a] and [b] need and no power
    raising below them, [a.grad] has grown by [1.0] and [b.grad] by
    [-1 * 1.0]. *)
Theorem sub_gradient (limit : nat) (h : heap) (a b : ref) :
  wf h → a < length h → b < length h → a ≠ b →
  unused_below h a b → unused_below h b a →
  fits limit h a → fits limit h b → runs_below h a → runs_below h b →
  ∃ z h1 h2,
    __sub__ a (ONode b) h = (Ok z, h1) ∧
    length h1 = S (S (length h)) ∧
    data (h1 !!! z) = data (h !!! a) + data (h !!! b) * minus_one ∧
    backward (S (S limit)) z h1 = (Ok tt, h2) ∧
    grad (h2 !!! a) = grad (h !!! a) + one ∧
    grad (h2 !!! b) = grad (h !!! b) + minus_one.
Proof.
  intros Hwf Ha Hb Hab Hua Hub Hfa Hfb Hra Hrb.
  pose proof (sub_nodes a b h Ha) as Hsub. cbv zeta in Hsub.
  set (n := new_node (data (h !!! b) * minus_one) _ _ _) in *.
  set (z := new_node (data (h !!! a) + _) _ _ _) in *.
  assert (HwfH : wf ((h ++ [n]) ++ [z])).
  { apply (run_op_wf (F_sub a (ONode b)) h (Ok (length (h ++ [n])))
             ((h ++ [n]) ++ [z]) Hwf); [|exact Hsub].
    intros x Hx. cbn in Hx. set_solver. }
  destruct (two_node_gradients limit h n z a b Hwf HwfH Ha Hb Hab Hua Hub
              eq_refl eq_refl Hfa Hfb Hra Hrb eq_refl eq_refl)
    as (h2 & Hrun & Hs & Hgz & HgL & Hga & Hgb).
  exists (length (h ++ [n])), ((h ++ [n]) ++ [z]), h2.
  assert (HgL' : grad (h2 !!! length h) = one).
  { rewrite HgL. subst z n. read_final Hs Hgz. ring. }
  split_and!; [done| |by rewrite lookup_total_new|done| |].
  - rewrite !length_app. cbn. lia.
  - rewrite Hga. subst z n. read_final Hs Hgz. ring.
  - rewrite Hgb. subst z n. read_final Hs Hgz. rewrite HgL'. ring.
Qed.

(** X11. [z = a / b] on two distinct nodes, neither used below the
    other, when [b.data ** -1] returns [p]: it builds [b ** -1] and
    [z = a * (b ** -1)], so [z.data] is [a.data * p].  The closure of
    [b ** -1] computes [b.data ** (-1 - 1)]; when that returns [d],
    [z.backward()], with two frames above those the graphs below [a] and
    [b] need and no power raising below them, returns, and [a.grad] has
    grown by [p] and [b.grad] by [(-1 * d) * a.data]. *)
Theorem truediv_gradient (limit : nat) (h : heap) (a b : ref) (p d : num) :
  wf h → a < length h → b < length h → a ≠ b →
  unused_below h a b → unused_below h b a →
  fits limit h a → fits limit h b → runs_below h a → runs_below h b →
  data (h !!! b) ** minus_one = Ok p →
  data (h !!! b) ** (minus_one - one) = Ok d →
  ∃ z h1 h2,
    __truediv__ a (ONode b) h = (Ok z, h1) ∧
    length h1 = S (S (length h)) ∧
    data (h1 !!! z) = data (h !!! a) * p ∧
    backward (S (S limit)) z h1 = (Ok tt, h2) ∧
    grad (h2 !!! a) = grad (h !!! a) + p ∧
    grad (h2 !!! b) = grad (h !!! b) + (minus_one * d) * data (h !!! a).
Proof.
  intros Hwf Ha Hb Hab Hua Hub Hfa Hfb Hra Hrb Hp Hd.
  pose proof (truediv_nodes a b h p Ha Hp) as Hdiv. cbv zeta in Hdiv.
  set (n := new_node p _ _ _) in *.
  set (z := new_node (data (h !!! a) * _) _ _ _) in *.
  assert (HwfH : wf ((h ++ [n]) ++ [z])).
  { apply (run_op_wf (F_truediv a (ONode b)) h (Ok (length (h ++ [n])))
             ((h ++ [n]) ++ [z]) Hwf); [|exact Hdiv].
    intros x Hx. cbn in Hx. set_solver. }
  assert (Hda : data (((h ++ [n]) ++ [z]) !!! a) = data (h !!! a)).
  { by rewrite <- app_assoc, lookup_total_app_l. }
  assert (Hdb : data (((h ++ [n]) ++ [z]) !!! b) = data (h !!! b)).
  { by rewrite <- app_assoc, lookup_total_app_l. }
  assert (Hdn : data (((h ++ [n]) ++ [z]) !!! length h) = p).
  { rewrite lookup_total_app_l by (rewrite length_app; cbn; lia).
    by rewrite lookup_total_new. }
  destruct (two_node_gradients limit h n z a b Hwf HwfH Ha Hb Hab Hua Hub
              eq_refl eq_refl Hfa Hfb Hra Hrb)
    as (h2 & Hrun & Hs & Hgz & HgL & Hga & Hgb); [|done|].
  { cbn [n new_node _backward closure_runs]. by rewrite Hdb, Hd. }
  exists (length (h ++ [n])), ((h ++ [n]) ++ [z]), h2.
  assert (HgL' : grad (h2 !!! length h) = data (h !!! a)).
  { rewrite HgL. subst z n. read_final Hs Hgz.
    rewrite ?Hda, ?Hdb, ?Hdn. ring. }
  split_and!; [done| |by rewrite lookup_total_new|done| |].
  - rewrite !length_app. cbn. lia.
  - rewrite Hga. subst z n. read_final Hs Hgz.
    rewrite ?Hda, ?Hdb, ?Hdn. ring.
  - rewrite Hgb. subst z n. read_final Hs Hgz.
    rewrite ?HgL', ?Hda, ?Hdb, ?Hdn, ?Hd. cbn [value_of]. ring.
Qed.

End DerivedGradients.

(** ** Failure and the shape of the arena *)

Section Surface.
Context {N : Num}.
Local Open Scope num_scope.

(** X12. An operation given a third object ([None], say: neither a
    [Value] nor a number, and taking no part in arithmetic) as its
    operand, and [__pow__] given anything but a plain number as the
    exponent, raises: [TypeError] from the arithmetic or the failed
    assertion of [__pow__], both [UnsupportedOperand] errors.  It returns
    the arena as it received it, without a node left behind by an inner
    step. *)
Theorem run_op_fails_cleanly (op : forward_op) (h : heap) :
  well_typed op = false →
  ∃ e, run_op op h = (Raise e, h) ∧ UnsupportedOperand e.
Proof.
  intros Hty.
  destruct op as [d l|a [b|k|]|a [b|k|]|a [b|k|]|a|a|a|a [b|k|]|a [b|k|]];
    try discriminate Hty;
    (eexists; split; [reflexivity|]; first [by left|by right]).
Qed.


End Surface.

(** ** [trace] *)

Section TraceProperties.
Context {N : Num}.

(** [build] and [build_topo] visit the same nodes. *)
Lemma build_visits (h : heap) (fuel : nat) :
  ∀ v vis edges topo,
    (fst <$> build fuel h v (vis, edges)) =
    (fst <$> build_topo fuel h v (vis, topo)).
Proof.
  induction fuel as [|n IH]; intros v vis edges topo; [done|].
  cbn [build build_topo fst snd]. case_decide as Hvis; [done|].
  assert (Hloop : ∀ cs (s : trace_state) (t : topo_state), s.1 = t.1 →
    (fst <$> for_each
               (λ child s', build n h child (s'.1, {[(child, v)]} ∪ s'.2))
               cs s) =
    (fst <$> for_each (build_topo n h) cs t)).
  { induction cs as [|c cs IHcs]; intros s t Hst; cbn [for_each];
      [by cbn; f_equal|].
    destruct t as [tv tt]. cbn [fst] in Hst. subst tv.
    specialize (IH c s.1 ({[(c, v)]} ∪ s.2) tt).
    destruct (build n h c (s.1, {[(c, v)]} ∪ s.2)) as [sa|];
      destruct (build_topo n h c (s.1, tt)) as [ta|]; try discriminate IH;
      [|done].
    apply IHcs. by injection IH. }
  specialize (Hloop (elements (_prev (h !!! v)))
                ({[v]} ∪ vis, edges) ({[v]} ∪ vis, topo) eq_refl).
  destruct (for_each (build_topo n h) _ _) as [t1|];
    destruct (for_each _ _ ({[v]} ∪ vis, edges)) as [s1|];
    try discriminate Hloop; [|done].
  cbn in *. by injection Hloop as ->.
Qed.

(** The edges [build] adds are the operand edges of the nodes it visits
    for the first time. *)
Lemma build_edges (h : heap) (fuel : nat) :
  ∀ v s s', build fuel h v s = Some s' →
    s.1 ⊆ s'.1 ∧
    ∀ c u, (c, u) ∈ s'.2 ↔
           (c, u) ∈ s.2 ∨ (u ∈ s'.1 ∧ (u ∉ s.1) ∧ c ∈ _prev (h !!! u)).
Proof.
  induction fuel as [|n IH]; intros v s s' Hrun; [discriminate|].
  cbn [build] in Hrun. case_decide as Hvis.
  { injection Hrun as <-. split; [done|]. intros c u. naive_solver. }
  assert (Hloop : ∀ cs (s0 s1 : trace_state),
    for_each (λ child s', build n h child (s'.1, {[(child, v)]} ∪ s'.2))
      cs s0 = Some s1 →
    s0.1 ⊆ s1.1 ∧
    ∀ c u, (c, u) ∈ s1.2 ↔
           (c, u) ∈ s0.2 ∨ (u ∈ s1.1 ∧ (u ∉ s0.1) ∧ c ∈ _prev (h !!! u)) ∨
           (u = v ∧ c ∈ cs)).
  { induction cs as [|c0 cs IHcs]; intros s0 s1 Hfor; cbn [for_each] in Hfor.
    - injection Hfor as <-. split; [done|]. intros c u.
      rewrite elem_of_nil. naive_solver.
    - destruct (build n h c0 (s0.1, {[(c0, v)]} ∪ s0.2)) as [sa|] eqn:Hc0;
        [|discriminate].
      destruct (IH _ _ _ Hc0) as [Hsub_a He_a].
      destruct (IHcs _ _ Hfor) as [Hsub_1 He_1].
      cbn [fst snd] in *. split; [set_solver|].
      intros c u. rewrite He_1, He_a, elem_of_cons.
      rewrite elem_of_union, elem_of_singleton.
      pose proof (Hsub_a u) as Ha. pose proof (Hsub_1 u) as H1.
      destruct (decide (u ∈ sa.1)); destruct (decide (u ∈ s0.1));
        naive_solver. }
  destruct (Hloop _ _ _ Hrun) as [Hsub He]. cbn [fst snd] in *.
  split; [set_solver|].
  intros c u. rewrite He, elem_of_elements. split.
  - intros [?|[(? & ? & ?)|[-> ?]]]; [by left|right|right].
    + split_and!; [done|set_solver|done].
    + split_and!; [set_solver|done|done].
  - intros [?|(Hu1 & Hu0 & Hc)]; [by left|right].
    destruct (decide (u = v)) as [->|Hne]; [by right|left].
    split_and!; [done|set_solver|done].
Qed.

(** X23. [trace] and [backward] run out of frames on the same graphs:
    with [limit] frames left, [trace(root)] raises [RecursionError]
    exactly when the traversal of [root.backward()] does. *)
Theorem trace_none (limit : nat) (h : heap) (root : ref) :
  trace limit h root = None ↔ topo_order limit h root = None.
Proof.
  unfold trace, topo_order.
  pose proof (build_visits h limit root ∅ ∅ []) as Hsame.
  destruct (build limit h root (∅, ∅));
    destruct (build_topo limit h root (∅, [])); done.
Qed.

(** X14. [trace(root)] on a well-formed arena whose graph below the root
    fits in the frames that are left returns; [nodes] is the set of the
    nodes reachable from the root, the same nodes [backward] puts in
    [topo], and [edges] holds the pair [(child, v)] exactly for the
    reachable nodes [v] and their operands [child]. *)
Theorem trace_spec (limit : nat) (h : heap) (root : ref) :
  wf h → root < length h → fits limit h root →
  ∃ nodes edges topo,
    trace limit h root = Some (nodes, edges) ∧
    topo_order limit h root = Some topo ∧
    nodes = list_to_set topo ∧
    (∀ u, u ∈ nodes ↔ reachable h root u) ∧
    (∀ c v, (c, v) ∈ edges ↔ reachable h root v ∧ c ∈ _prev (h !!! v)).
Proof.
  intros Hwf Hroot Hfit.
  destruct (topo_order_spec_limit limit h root (wf_closed h Hwf)
              (wf_acyclic h Hwf) Hroot Hfit)
    as (topo & Htopo & _ & Hreach & _).
  unfold topo_order in Htopo.
  destruct (build_topo limit h root (∅, [])) as [[vis topo']|]
    eqn:Hbt; [|discriminate].
  injection Htopo as ->.
  destruct (acyclic_total h (wf_acyclic h Hwf)) as [rank Hrank].
  destruct (build_topo_spec h rank _ Hrank _ _ _ Hbt)
    as [((_ & Hsub & _) & _ & _ & Hpend) _].
  { split_and!; cbn [fst snd]; [constructor|by intros ? ?%elem_of_nil|].
    intros j v c Hj. by rewrite lookup_nil in Hj. }
  { intros p [Hp _]. cbn [fst] in Hp. set_solver. }
  cbn [fst snd] in *.
  assert (Hvis : vis = list_to_set topo).
  { apply set_eq. intros u. rewrite elem_of_list_to_set. split; [|by auto].
    intros Hu. destruct (decide (u ∈ topo)) as [|Hnot]; [done|].
    destruct (Hpend u (conj Hu Hnot)) as [Hempty _]. set_solver. }
  pose proof (build_visits h limit root ∅ ∅ []) as Hsame.
  rewrite Hbt in Hsame. unfold trace.
  destruct (build limit h root (∅, ∅)) as [[nodes edges]|] eqn:Hb;
    [|discriminate].
  cbn in Hsame. injection Hsame as ->.
  exists vis, edges, topo. unfold topo_order. rewrite Hbt.
  assert (Hnodes : ∀ u, u ∈ vis ↔ reachable h root u).
  { intros u. by rewrite Hvis, elem_of_list_to_set. }
  split_and!; [done|done|done|done|].
  intros c v. destruct (build_edges _ _ _ _ _ Hb) as [_ He].
  cbn [fst snd] in He. rewrite He, <- Hnodes. set_solver.
Qed.

End TraceProperties.

(** ** Resetting the gradients before [backward] *)

Section ResetProperties.
Context {N : Num}.
Local Open Scope num_scope.

Add Ring num_ring_reset : num_ring.

Lemma for_each_ext {A S} (f g : A → S → option S) (l : list A) (s : S) :
  (∀ x s, f x s = g x s) → for_each f l s = for_each g l s.
Proof.
  intros Hfg. revert s. induction l as [|x l IH]; intros s; cbn; [done|].
  rewrite Hfg. destruct (g x s); [apply IH|done].
Qed.

(** [build_topo] reads nothing but [_prev]. *)
Lemma build_topo_skeleton (h h' : heap) (fuel : nat) (v : ref)
    (s : topo_state) :
  skeleton h' = skeleton h → build_topo fuel h' v s = build_topo fuel h v s.
Proof.
  intros Hs. revert v s. induction fuel as [|n IH]; intros v s; [done|].
  cbn [build_topo]. rewrite (skeleton_prev _ _ v Hs).
  by rewrite (for_each_ext (build_topo n h') (build_topo n h)).
Qed.

Lemma topo_order_skeleton (limit : nat) (h h' : heap) (root : ref) :
  skeleton h' = skeleton h →
  topo_order limit h' root = topo_order limit h root.
Proof.
  intros Hs. unfold topo_order. by rewrite (build_topo_skeleton h h').
Qed.

Lemma sum_contrib_app (h : heap) (l1 l2 : list ref) (v : ref) :
  sum_contrib h (l1 ++ l2) v = sum_contrib h l1 v + sum_contrib h l2 v.
Proof.
  induction l1 as [|u l1 IH]; cbn; [ring|]. rewrite IH. ring.
Qed.

Lemma safe_order_app (h : heap) (l1 l2 : list ref) :
  safe_order h (l1 ++ l2) → safe_order h l2.
Proof.
  induction l1 as [|u l1 IH]; cbn; [done|]. intros [_ ?]. by apply IH.
Qed.

(** The gradients [backward] leaves on the nodes reachable from the root
    are determined by the graph and by the gradients those nodes had
    before. *)
Lemma backward_agree (h k : heap) (root : ref) :
  wf h → skeleton k = skeleton h → root < length h → runs_below h root →
  (∀ u, reachable h root u → u ≠ root → grad (k !!! u) = grad (h !!! u)) →
  ∃ h' k', backward (S (length h)) root h = (Ok tt, h') ∧
           backward (S (length h)) root k = (Ok tt, k') ∧
           ∀ v, reachable h root v → grad (k' !!! v) = grad (h' !!! v).
Proof.
  intros Hwf Hsk Hroot Hruns Hsame.
  pose proof (wf_skeleton _ _ Hsk Hwf) as Hwfk.
  pose proof (skeleton_length _ _ Hsk) as Hlenk.
  assert (Hrootk : root < length k) by by rewrite Hlenk.
  destruct (topo_order_spec h root (wf_closed h Hwf) (wf_acyclic h Hwf) Hroot)
    as (topo & Htopo & Hnd & Hreach & Hord).
  destruct (backward_sum h root Hwf Hroot Hruns)
    as (topo1 & h' & Htopo1 & _ & _ & Hrun & Hs & Hg).
  rewrite Htopo in Htopo1. injection Htopo1 as <-.
  destruct (backward_sum k root Hwfk Hrootk)
    as (topo2 & k' & Htopo2 & _ & _ & Hrunk & Hsk' & Hgk);
    [by apply (runs_below_skeleton h)|].
  rewrite Hlenk in Htopo2, Hrunk.
  rewrite (topo_order_skeleton _ h k root Hsk), Htopo in Htopo2.
  injection Htopo2 as <-.
  exists h', k'. split_and!; [done|done|].
  assert (Hsafe : safe_order h' (reverse topo)).
  { apply (safe_order_skeleton h); [done|]. by apply safe_order_reverse. }
  assert (Hwf' : wf h') by by apply (wf_skeleton h).
  assert (Hkk : skeleton k' = skeleton h') by congruence.
  assert (Hseed : ∀ v, reachable h root v → seed k root v = seed h root v).
  { intros v Hv. unfold seed. case_decide; [done|by apply Hsame]. }
  assert (Hind : ∀ rest done, reverse topo = done ++ rest →
    (∀ u, u ∈ done → grad (k' !!! u) = grad (h' !!! u)) →
    ∀ u, u ∈ rest → grad (k' !!! u) = grad (h' !!! u)).
  { induction rest as [|v rest IH]; intros done Heq Hdone u Hu.
    { by apply elem_of_nil in Hu. }
    assert (Hv : grad (k' !!! v) = grad (h' !!! v)).
    { assert (Hrv : reachable h root v).
      { apply Hreach. rewrite <- elem_of_reverse, Heq, elem_of_app.
        right. by left. }
      rewrite Hgk, Hg, (Hseed v Hrv), Heq, !sum_contrib_app.
      pose proof Hsafe as Hsuf. rewrite Heq in Hsuf.
      apply safe_order_app in Hsuf. destruct Hsuf as [Hself _].
      rewrite (sum_contrib_zero h' (v :: rest) v Hwf' Hself).
      rewrite (sum_contrib_zero k' (v :: rest) v).
      - by rewrite (sum_contrib_ext h' k' done v Hkk Hdone Hwf').
      - by apply (wf_skeleton h').
      - intros w Hw. rewrite (skeleton_prev _ _ w Hkk). by apply Hself. }
    apply elem_of_cons in Hu as [->|Hu]; [done|].
    apply (IH (done ++ [v])); [by rewrite <- app_assoc| |done].
    intros w [Hw| ->%list_elem_of_singleton]%elem_of_app; [by auto|done]. }
  intros v Hv. apply (Hind (reverse topo) []); [done| |].
  - by intros u ?%elem_of_nil.
  - rewrite elem_of_reverse. by apply Hreach.
Qed.

Lemma skeleton_idemp (h : heap) : skeleton (skeleton h) = skeleton h.
Proof.
  unfold skeleton. rewrite <- list_fmap_compose.
  by apply list_fmap_ext.
Qed.

Lemma skeleton_grad (h : heap) (u : ref) : grad (skeleton h !!! u) = zero.
Proof.
  destruct (decide (u < length h)) as [Hlt|Hge].
  - unfold skeleton.
    by rewrite (list_lookup_total_fmap (with_grad zero) h u) by done.
  - rewrite list_lookup_total_alt, lookup_ge_None_2; [done|].
    unfold skeleton. rewrite length_fmap. lia.
Qed.

Lemma zero_grads_spec (params : list ref) :
  ∀ h, ∃ h1, zero_grads params h = (Ok tt, h1) ∧
             skeleton h1 = skeleton h ∧
             (∀ u, u ∈ params → grad (h1 !!! u) = zero) ∧
             (∀ u, u ∉ params → h1 !! u = h !! u).
Proof.
  induction params as [|p rest IH]; intros h; cbn [zero_grads].
  { exists h. split_and!; [done|done|by intros ? ?%elem_of_nil|done]. }
  unfold bind, set_grad.
  destruct (IH (alter (with_grad zero) p h)) as (h1 & -> & Hs & Hin & Hout).
  exists h1. split_and!; [done| | |].
  - rewrite Hs. by apply skeleton_alter.
  - intros u Hu. destruct (decide (u ∈ rest)) as [|Hnot]; [by auto|].
    apply elem_of_cons in Hu as [->|?]; [|done].
    rewrite list_lookup_total_alt, (Hout p Hnot), <- list_lookup_total_alt.
    rewrite list_lookup_total_alter. case_decide; [done|].
    destruct (decide (p < length h)) as [|Hge]; [naive_solver|].
    by rewrite list_lookup_total_alt, lookup_ge_None_2 by lia.
  - intros u Hu. rewrite not_elem_of_cons in Hu. destruct Hu as [Hne Hu].
    rewrite (Hout u Hu). by rewrite list_lookup_alter_ne.
Qed.

(** X15. Resetting is enough when everything else is fresh: if every
    node reachable from the root, the root aside, is in [params] or still
    has gradient zero, then [for p in params: p.grad = 0.0] followed by
    [root.backward()] leaves on every reachable node the gradient that
    [backward] leaves on the same graph with all gradients zero, whatever
    the parameters had accumulated before.  Both runs return when the
    graph below the root fits in the frames that are left and no power in
    a closure below the root raises. *)
Theorem reset_then_backward (limit : nat) (h : heap) (root : ref)
    (params : list ref) :
  wf h → root < length h → fits limit h root → runs_below h root →
  (∀ u, reachable h root u → u ≠ root →
        u ∈ params ∨ grad (h !!! u) = zero) →
  ∃ h1 h2 k2,
    zero_grads params h = (Ok tt, h1) ∧
    backward limit root h1 = (Ok tt, h2) ∧
    backward limit root (skeleton h) = (Ok tt, k2) ∧
    ∀ v, reachable h root v → grad (h2 !!! v) = grad (k2 !!! v).
Proof.
  intros Hwf Hroot Hfit Hruns Hfresh.
  destruct (zero_grads_spec params h) as (h1 & Hz & Hs1 & Hin & Hout).
  pose proof (skeleton_idemp h) as Hid.
  assert (Hwfk : wf (skeleton h)) by by apply (wf_skeleton h).
  pose proof (skeleton_length _ _ Hid) as Hlenk.
  pose proof (skeleton_length _ _ Hs1) as Hlen1.
  assert (Hrootk : root < length (skeleton h)) by by rewrite Hlenk.
  destruct (backward_agree (skeleton h) h1 root Hwfk)
    as (k2 & h2 & Hk & Hh & Hg);
    [congruence|done|by apply (runs_below_skeleton h)| |].
  { intros u Hu Hne. rewrite skeleton_grad.
    apply (reachable_skeleton (skeleton h) h) in Hu; [|by symmetry].
    destruct (decide (u ∈ params)) as [|Hnot]; [by auto|].
    destruct (Hfresh u Hu Hne) as [|Hzero]; [done|].
    by rewrite list_lookup_total_alt, (Hout u Hnot), <- list_lookup_total_alt. }
  assert (Hb1 : backward limit root h1 =
                backward (S (length (skeleton h))) root h1).
  { rewrite Hlenk, <- Hlen1.
    apply backward_limit;
      [by apply (wf_skeleton h)|by rewrite Hlen1|by apply (fits_skeleton h)]. }
  assert (Hbk : backward limit root (skeleton h) =
                backward (S (length (skeleton h))) root (skeleton h)).
  { apply backward_limit; [done|done|by apply (fits_skeleton h)]. }
  exists h1, h2, k2. rewrite Hb1, Hbk.
  split_and!; [done|done|done|].
  intros v Hv. apply Hg. by apply (reachable_skeleton h).
Qed.

End ResetProperties.

(** ** [Neuron], [Layer] and [MLP] *)

Section NetworkProperties.
Context {N : Num}.
Local Open Scope num_scope.

Add Ring num_ring_network : num_ring.

(** *** Construction *)

Lemma built_nil (rnd : nat → num) (k : nat) (h : heap) :
  built rnd k h [] k h.
Proof.
  split_and!; [done|cbn; lia|]. exists []. rewrite app_nil_r.
  split_and!; [done|done|]. intros j v Hj. by rewrite lookup_nil in Hj.
Qed.

Lemma built_leaf (rnd : nat → num) (k : nat) (h : heap) (l : string) :
  built rnd k h [length h] (S k)
    (h ++ [mkValue (rnd k) zero lambda_None ∅ op_none l]).
Proof.
  split_and!; [done|cbn; lia|]. eexists [_]. split_and!; [done|done|].
  intros [|j] v Hj; [|by destruct j]. injection Hj as <-. cbn.
  by rewrite Nat.add_0_r.
Qed.

Lemma built_app (rnd : nat → num) (k k1 k2 : nat) (h h1 h2 : heap)
    (ps1 ps2 : list ref) :
  built rnd k h ps1 k1 h1 → built rnd k1 h1 ps2 k2 h2 →
  built rnd k h (ps1 ++ ps2) k2 h2.
Proof.
  intros (Hp1 & -> & l1 & -> & Hl1 & Hv1) (Hp2 & -> & l2 & -> & Hl2 & Hv2).
  rewrite length_app in Hp2. split_and!.
  - rewrite length_app, seq_app, <- Hp1. f_equal.
    by rewrite Hl1 in Hp2.
  - rewrite length_app. lia.
  - exists (l1 ++ l2). rewrite app_assoc, !length_app.
    split_and!; [done|lia|].
    intros j v Hj. apply lookup_app_Some in Hj as [Hj|[Hge Hj]]; [by auto|].
    destruct (Hv2 _ _ Hj) as (Hd & ?). split; [|done].
    rewrite Hd. f_equal. lia.
Qed.

Lemma new_weights_built (rnd : nat → num) (nin : nat) :
  ∀ k h, ∃ ws k' h',
    new_weights rnd nin k h = (Ok (ws, k'), h') ∧
    length ws = nin ∧ built rnd k h ws k' h'.
Proof.
  induction nin as [|n IH]; intros k h; cbn [new_weights].
  { exists [], k, h. split_and!; [done|done|apply built_nil]. }
  unfold bind at 1. unfold Value_init.
  destruct (IH (S k) (h ++ [mkValue (rnd k) zero lambda_None ∅ op_none "w"]))
    as (ws & k' & h' & Hrun & Hlen & Hb).
  unfold bind. cbn [list_to_set]. rewrite Hrun.
  exists (length h :: ws), k', h'. split_and!; [done|cbn; lia|].
  apply (built_app _ _ _ _ _ _ _ [length h] ws (built_leaf rnd k h "w") Hb).
Qed.

Lemma Neuron_init_built (rnd : nat → num) (nin k : nat) (h : heap) :
  ∃ n k' h',
    Neuron_init rnd nin k h = (Ok (n, k'), h') ∧
    length (w n) = nin ∧ built rnd k h (Neuron_parameters n) k' h'.
Proof.
  unfold Neuron_init.
  destruct (new_weights_built rnd nin k h) as (ws & k1 & h1 & Hrun & Hlen & Hb).
  unfold bind. rewrite Hrun. unfold Value_init. cbn [list_to_set fst snd].
  eexists _, _, _. split_and!; [done|done|].
  apply (built_app _ _ _ _ _ _ _ ws [length h1] Hb (built_leaf rnd k1 h1 "b")).
Qed.

Lemma new_neurons_built (rnd : nat → num) (nin nout : nat) :
  ∀ k h, ∃ ns k' h',
    new_neurons rnd nin nout k h = (Ok (ns, k'), h') ∧
    length ns = nout ∧ Forall (λ n, length (w n) = nin) ns ∧
    length (extend_all ns) = (S nin * nout)%nat ∧
    built rnd k h (extend_all ns) k' h'.
Proof.
  induction nout as [|m IH]; intros k h; cbn [new_neurons].
  { exists [], k, h. split_and!; [done|done|done|cbn; lia|apply built_nil]. }
  destruct (Neuron_init_built rnd nin k h) as (n & k1 & h1 & Hn & Hw & Hb1).
  destruct (IH k1 h1) as (ns & k2 & h2 & Hns & Hlen & Hall & Hcount & Hb2).
  unfold bind. rewrite Hn. cbn [fst snd]. rewrite Hns.
  exists (n :: ns), k2, h2.
  split_and!; [done|cbn; lia|by constructor| |by eapply built_app].
  cbn [extend_all]. rewrite length_app, Hcount. unfold Neuron_parameters.
  rewrite length_app, Hw. cbn. lia.
Qed.

Lemma new_layers_cons (rnd : nat → num) (nin nout : nat) (rest : list nat)
    (k : nat) :
  new_layers rnd (nin :: nout :: rest) k =
  (let* r := Layer_init rnd nin nout k in
   let* rs := new_layers rnd (nout :: rest) r.2 in
   ret (r.1 :: rs.1, rs.2)).
Proof. reflexivity. Qed.

Lemma new_layers_built (rnd : nat → num) (sz : list nat) :
  ∀ k h, ∃ ls k' h',
    new_layers rnd sz k h = (Ok (ls, k'), h') ∧
    length ls = pred (length sz) ∧
    Forall2 (λ l nout, length (neurons l) = nout) ls (tail sz) ∧
    length (MLP_layers_parameters ls) = param_count sz ∧
    built rnd k h (MLP_layers_parameters ls) k' h'.
Proof.
  induction sz as [|nin rest IH]; intros k h.
  { exists [], k, h. split_and!; [done|done|constructor|done|apply built_nil]. }
  destruct rest as [|nout rest'].
  { exists [], k, h. split_and!; [done|done|constructor|done|apply built_nil]. }
  rewrite new_layers_cons. unfold Layer_init.
  destruct (new_neurons_built rnd nin nout k h)
    as (ns & k1 & h1 & Hns & Hlen & _ & Hcount & Hb1).
  destruct (IH k1 h1) as (ls & k2 & h2 & Hls & Hlen2 & Hall & Hcount2 & Hb2).
  unfold bind. rewrite Hns. cbn [ret fst snd]. rewrite Hls.
  exists (mkLayer ns :: ls), k2, h2.
  split_and!; [done|cbn in *; lia|by constructor| |by eapply built_app].
  cbn [MLP_layers_parameters]. unfold Layer_parameters. cbn [neurons].
  rewrite length_app, Hcount, Hcount2. reflexivity.
Qed.

(** X16. [MLP(nin, nouts)] makes one draw of [random.uniform] and one
    leaf node per parameter, [(sz[i] + 1) * sz[i+1]] of them for each pair
    of consecutive sizes in [sz = [nin] + nouts]; it builds one layer per
    entry of [nouts], with that many neurons; and [parameters()] lists
    exactly the new nodes, each once, in the order they were created.
    Every parameter starts as a leaf with gradient [0.0]. *)
Theorem MLP_init_parameters (rnd : nat → num) (nin : nat)
    (nouts : list nat) (k : nat) (h : heap) :
  ∃ m h',
    MLP_init rnd nin nouts k h =
      (Ok (m, (k + param_count (nin :: nouts))%nat), h') ∧
    Forall2 (λ l nout, length (neurons l) = nout) (layers m) nouts ∧
    MLP_parameters m = seq (length h) (param_count (nin :: nouts)) ∧
    NoDup (MLP_parameters m) ∧
    length h' = (length h + param_count (nin :: nouts))%nat ∧
    (∀ i v, h !! i = Some v → h' !! i = Some v) ∧
    (∀ j, (j < param_count (nin :: nouts))%nat →
       ∃ v, h' !! (length h + j)%nat = Some v ∧
            data v = rnd (k + j)%nat ∧ grad v = zero ∧
            _prev v = ∅ ∧ _backward v = lambda_None).
Proof.
  unfold MLP_init. cbv zeta.
  destruct (new_layers_built rnd (nin :: nouts) k h)
    as (ls & k' & h' & Hrun & _ & Hall & Hcount & Hps & -> & l & -> & Hl & Hv).
  unfold bind. rewrite Hrun. cbn [ret fst snd].
  rewrite Hcount in *.
  exists (mkMLP ls), (h ++ l). unfold MLP_parameters. cbn [layers].
  split_and!; [done|done|done| | | |].
  - rewrite Hps. apply NoDup_seq.
  - rewrite length_app. lia.
  - intros i v Hi. by apply lookup_app_l_Some.
  - intros j Hj. destruct (lookup_lt_is_Some_2 l j) as [v Hjv]; [lia|].
    exists v. split; [|by apply Hv].
    rewrite lookup_app_r by lia. by replace (length h + j - length h)%nat with j by lia.
Qed.

(** *** [__call__] *)

(** X17. [zip] stops at the shorter of its two arguments, so a neuron
    ignores the inputs beyond its number of weights and, given fewer
    inputs than weights, the weights beyond the inputs: in both cases the
    call runs exactly as on the truncated lists. *)
Theorem neuron_ignores_surplus (ws : list ref) (bias : ref)
    (xs : list operand) (more_w : list ref) (more_x : list operand)
    (h : heap) :
  length ws = length xs →
  Neuron_call (mkNeuron ws bias) (PyList (xs ++ more_x)) h =
    Neuron_call (mkNeuron ws bias) (PyList xs) h ∧
  Neuron_call (mkNeuron (ws ++ more_w) bias) (PyList xs) h =
    Neuron_call (mkNeuron ws bias) (PyList xs) h.
Proof.
  intros Hlen. unfold Neuron_call. cbn [w b].
  assert (Hx : zip ws (xs ++ more_x) = zip ws xs).
  { clear -Hlen. revert xs Hlen.
    induction ws as [|w0 ws IH]; intros [|x xs] Hlen; try discriminate;
      [done|].
    cbn. f_equal. apply IH. by injection Hlen. }
  assert (Hw : zip (ws ++ more_w) xs = zip ws xs).
  { clear -Hlen. revert xs Hlen.
    induction ws as [|w0 ws IH]; intros [|x xs] Hlen; try discriminate.
    - by destruct more_w.
    - cbn. f_equal. apply IH. by injection Hlen. }
  by rewrite Hx, Hw.
Qed.

(** X18. A layer of exactly one neuron returns that neuron's output
    itself, not a list; when the next layer has a neuron, that neuron
    calls [zip] on a [Value], so an [MLP] with such a layer anywhere but
    last raises [TypeError], leaving in the arena the nodes the first
    layer built. *)
Theorem single_neuron_layer_breaks_mlp (n1 n2 : Neuron) (ns : list Neuron)
    (rest : list Layer) (x : py_arg) (o : ref) (h h1 : heap) :
  Neuron_call n1 x h = (Ok o, h1) →
  Layer_call (mkLayer [n1]) x h = (Ok (PyValue o), h1) ∧
  MLP_call (mkMLP (mkLayer [n1] :: mkLayer (n2 :: ns) :: rest)) x h =
    (Raise TypeError, h1).
Proof.
  intros Hn1. unfold MLP_call, Layer_call. cbn [layers call_layers].
  unfold Layer_call. cbn [neurons call_neurons].
  unfold bind. rewrite Hn1. cbn [ret]. split; reflexivity.
Qed.

Lemma mul_any (wi : ref) (xi : operand) (h : heap) :
  operand_in h xi →
  __mul__ wi xi h =
  (Ok (length h),
   h ++ [new_node (data (h !!! wi) * operand_value h xi)
           (mul_backward wi xi (length h)) (wi :: operand_refs xi) op_mul]).
Proof.
  destruct xi as [v|k|]; [intros _|intros _|done].
  - apply mul_node_node.
  - apply mul_node_const.
Qed.

Lemma operand_in_app (h l : heap) (o : operand) :
  operand_in h o → operand_in (h ++ l) o.
Proof. destruct o; cbn; [rewrite length_app; lia|done|done]. Qed.

Lemma operand_value_app (h l : heap) (o : operand) :
  operand_in h o → operand_value (h ++ l) o = operand_value h o.
Proof.
  destruct o; cbn; [|done|done]. intros ?. by rewrite lookup_total_app_l.
Qed.

Lemma weighted_sum_app (h l : heap) (pairs : list (ref * operand)) :
  Forall (pair_in h) pairs →
  ∀ s, weighted_sum (h ++ l) pairs s = weighted_sum h pairs s.
Proof.
  induction 1 as [|[wi xi] pairs [Hw Hx] _ IH]; intros s; cbn; [done|].
  cbn in Hw, Hx. rewrite IH, lookup_total_app_l by done.
  by rewrite operand_value_app.
Qed.

(** The running total of [sum]: two nodes per pair. *)
Lemma py_sum_spec (pairs : list (ref * operand)) :
  ∀ h start, wf h → start < length h → Forall (pair_in h) pairs →
  ∃ out l,
    py_sum pairs start h = (Ok out, h ++ l) ∧
    length l = (2 * length pairs)%nat ∧
    wf (h ++ l) ∧ out < length (h ++ l) ∧
    (pairs ≠ [] → S out = length (h ++ l)) ∧
    data ((h ++ l) !!! out) = weighted_sum h pairs (data (h !!! start)).
Proof.
  induction pairs as [|[wi xi] rest IH]; intros h start Hwf Hstart Hall;
    cbn [py_sum].
  { exists start, []. rewrite app_nil_r. by split_and!. }
  apply Forall_cons in Hall as [[Hw Hx] Hall]. cbn in Hw, Hx.
  unfold bind at 1. rewrite (mul_any wi xi h Hx).
  set (p := new_node _ _ _ _).
  assert (Hwf1 : wf (h ++ [p])).
  { apply (run_op_wf (F_mul wi xi) h (Ok (length h)) (h ++ [p]) Hwf).
    - intros a Ha. cbn in Ha. apply elem_of_cons in Ha as [->|Ha]; [done|].
      destruct xi; cbn in *; [|by apply elem_of_nil in Ha..].
      by apply list_elem_of_singleton in Ha as ->.
    - cbn [run_op]. by apply mul_any. }
  unfold bind at 1. rewrite add_node_node.
  set (acc := new_node _ _ _ _).
  assert (Hlen1 : length (h ++ [p]) = S (length h)).
  { rewrite length_app. cbn. lia. }
  assert (Hwf2 : wf ((h ++ [p]) ++ [acc])).
  { apply (run_op_wf (F_add start (ONode (length h))) (h ++ [p])
             (Ok (length (h ++ [p]))) _ Hwf1).
    - intros a Ha. cbn in Ha. rewrite Hlen1. set_solver by lia.
    - cbn [run_op]. by rewrite add_node_node. }
  destruct (IH ((h ++ [p]) ++ [acc]) (length (h ++ [p])) Hwf2)
    as (out & l & Hrun & Hl & Hwf3 & Hout & Hlast & Hdata).
  { rewrite !length_app. cbn. lia. }
  { eapply Forall_impl; [exact Hall|]. intros [w0 x0] [H1 H2]. split.
    - cbn in *. rewrite !length_app. cbn. lia.
    - cbn in *. rewrite <- app_assoc. by apply operand_in_app. }
  exists out, ([p; acc] ++ l).
  assert (Hassoc : h ++ [p; acc] ++ l = ((h ++ [p]) ++ [acc]) ++ l).
  { by rewrite <- !app_assoc. }
  rewrite Hassoc, Hrun. split_and!; [done| |done|done| |].
  - rewrite length_app, Hl. cbn. lia.
  - intros _. destruct rest as [|r rest'].
    + cbn in Hrun. injection Hrun as <- Hnil.
      apply (f_equal length) in Hnil.
      rewrite !length_app in Hnil. cbn in Hnil.
      rewrite !length_app. cbn. lia.
    + by apply Hlast.
  - rewrite Hdata, lookup_total_new. subst acc. cbn [data new_node].
    rewrite lookup_total_new, lookup_total_app_l by done.
    subst p. cbn [data new_node].
    rewrite <- app_assoc. by rewrite weighted_sum_app.
Qed.

(** A neuron called on a list of numbers and nodes of the arena: the
    products and running totals are built, then [tanh] returns a node or
    raises. *)
Lemma neuron_forward_spec (n : Neuron) (xs : list operand) (h : heap) :
  wf h → b n < length h → Forall (λ wi, wi < length h) (w n) →
  Forall (operand_in h) xs →
  ∃ r l,
    Neuron_call n (PyList xs) h = (r, h ++ l) ∧ wf (h ++ l) ∧
    match tanh_of (weighted_sum h (zip (w n) xs) (data (h !!! b n))) with
    | Ok t =>
        r = Ok (length h + 2 * (length (w n) `min` length xs))%nat ∧
        length l = S (2 * (length (w n) `min` length xs)) ∧
        data ((h ++ l) !!!
                (length h + 2 * (length (w n) `min` length xs))%nat) = t
    | Raise e =>
        r = Raise e ∧ length l = (2 * (length (w n) `min` length xs))%nat
    end.
Proof.
  intros Hwf Hb Hw Hx. unfold Neuron_call.
  assert (Hall : Forall (pair_in h) (zip (w n) xs)).
  { clear -Hw Hx. revert xs Hx.
    induction Hw as [|wi ws Hwi _ IH]; intros xs Hx; [constructor|].
    destruct Hx as [|x xs Hx0 Hx]; [constructor|].
    cbn. constructor; [by split|by apply IH]. }
  destruct (py_sum_spec _ h (b n) Hwf Hb Hall)
    as (act & l & Hrun & Hl & Hwf1 & Hact & _ & Hdata).
  rewrite length_zip in Hl.
  unfold bind. rewrite Hrun, tanh_node, Hdata.
  destruct (tanh_of _) as [t|e] eqn:Ht.
  - set (o := new_node _ _ _ _).
    exists (Ok (length (h ++ l))), (l ++ [o]). rewrite app_assoc.
    split_and!; [done| | | |].
    + apply (run_op_wf (F_tanh act) (h ++ l) (Ok (length (h ++ l))) _ Hwf1).
      * intros a Ha. cbn in Ha. by apply list_elem_of_singleton in Ha as ->.
      * cbn [run_op]. by rewrite tanh_node, Hdata, Ht.
    + by rewrite length_app, Hl.
    + rewrite length_app, Hl. cbn. lia.
    + rewrite <- Hl, <- length_app. by rewrite lookup_total_new.
  - exists (Raise e), l. by split_and!.
Qed.

(** X19. A neuron called on a list of numbers and nodes of the arena
    builds a product and a running total per pair of [zip(w, x)],
    [2 * m] nodes for [m = min(len(w), len(x))], and then calls [tanh] on
    [b + w1*x1 + ... + wm*xm], added up from [b] in that order.  When the
    [tanh] formula returns [t], the call returns one more node, the last
    of the arena, with value [t]; when it raises, as [math.exp] does on a
    large activation, the call raises the same exception and leaves the
    [2 * m] nodes behind.  Either way the arena stays well formed and the
    old nodes are untouched. *)
Theorem neuron_forward (n : Neuron) (xs : list operand) (h : heap) :
  wf h → b n < length h → Forall (λ wi, wi < length h) (w n) →
  Forall (operand_in h) xs →
  ∃ r h',
    Neuron_call n (PyList xs) h = (r, h') ∧
    (∀ i v, h !! i = Some v → h' !! i = Some v) ∧
    wf h' ∧
    match tanh_of (weighted_sum h (zip (w n) xs) (data (h !!! b n))) with
    | Ok t =>
        ∃ out, r = Ok out ∧ S out = length h' ∧
          length h' = S (length h + 2 * (length (w n) `min` length xs)) ∧
          data (h' !!! out) = t
    | Raise e =>
        r = Raise e ∧
        length h' = (length h + 2 * (length (w n) `min` length xs))%nat
    end.
Proof.
  intros Hwf Hb Hw Hx.
  destruct (neuron_forward_spec n xs h Hwf Hb Hw Hx)
    as (r & l & Hrun & Hwf' & Hcase).
  exists r, (h ++ l). split_and!; [done| |done|].
  - intros i v Hi. by apply lookup_app_l_Some.
  - destruct (tanh_of _) as [t|e].
    + destruct Hcase as (-> & Hl & Hd). eexists. split; [done|].
      rewrite length_app, Hl. split_and!; [lia|lia|done].
    + destruct Hcase as (-> & Hl). split; [done|].
      rewrite length_app, Hl. lia.
Qed.

End NetworkProperties.

(** ** The parameter update *)

Section UpdateProperties.
Context {N : Num}.
Local Open Scope num_scope.

Add Ring num_ring_update : num_ring.

Lemma data_set_data (h : heap) (p : ref) (lr : num) :
  data (alter (with_data (data (h !!! p) - lr * grad (h !!! p))) p h !!! p) =
  data (h !!! p) - lr * grad (h !!! p).
Proof.
  rewrite list_lookup_total_alter. case_decide as Hp; [done|].
  assert (¬ p < length h) as Hge by naive_solver.
  rewrite list_lookup_total_alt, lookup_ge_None_2 by lia. cbn. ring.
Qed.

Lemma set_data_keeps (h : heap) (p u : ref) (d : num) :
  grad (alter (with_data d) p h !!! u) = grad (h !!! u) ∧
  _prev (alter (with_data d) p h !!! u) = _prev (h !!! u) ∧
  _backward (alter (with_data d) p h !!! u) = _backward (h !!! u).
Proof.
  rewrite list_lookup_total_alter. case_decide as Hp; [|done].
  destruct Hp as [-> _]. done.
Qed.

(** X20. [for p in params: p.data -= learning_rate * p.grad] over a
    list without repetition moves the [data] of every listed node by
    [learning_rate] times its gradient, once, and changes nothing else:
    gradients, operands and closures stay, nodes outside the list are the
    same records, and the arena stays well formed. *)
Theorem update_spec (learning_rate : num) (params : list ref) (h : heap) :
  NoDup params →
  ∃ h1,
    update learning_rate params h = (Ok tt, h1) ∧
    (∀ p, p ∈ params →
       data (h1 !!! p) =
       data (h !!! p) - learning_rate * grad (h !!! p)) ∧
    (∀ u, u ∉ params → h1 !! u = h !! u) ∧
    (∀ u, grad (h1 !!! u) = grad (h !!! u) ∧
          _prev (h1 !!! u) = _prev (h !!! u) ∧
          _backward (h1 !!! u) = _backward (h !!! u)) ∧
    (wf h → wf h1).
Proof.
  intros Hnd. revert h.
  induction params as [|p rest IH]; intros h; cbn [update].
  { exists h. split_and!; [done|by intros ? ?%elem_of_nil|done|done|done]. }
  apply NoDup_cons in Hnd as [Hp Hnd].
  unfold bind, get_data, get_grad, set_data.
  set (h0 := alter (with_data _) p h).
  destruct (IH Hnd h0) as (h1 & -> & Hin & Hout & Hkeep & Hwf).
  exists h1. split_and!; [done| | | |].
  - intros q [->|Hq]%elem_of_cons.
    + rewrite list_lookup_total_alt, (Hout p Hp), <- list_lookup_total_alt.
      apply data_set_data.
    + rewrite (Hin q Hq). assert (q ≠ p) by (by intros ->).
      unfold h0. by rewrite !list_lookup_total_alter_ne.
  - intros u Hu. rewrite not_elem_of_cons in Hu. destruct Hu as [Hne Hu].
    rewrite (Hout u Hu). unfold h0. by rewrite list_lookup_alter_ne.
  - intros u. destruct (Hkeep u) as (-> & -> & ->). apply set_data_keeps.
  - intros Hwfh. apply Hwf. by apply (set_data_wf h p).
Qed.

End UpdateProperties.

(** ** Layers and networks, forward *)

Section LayerProperties.
Context {N : Num}.
Local Open Scope num_scope.





End LayerProperties.

(** ** The gradients of a neuron *)

Section NeuronGradients.
Context {N : Num}.
Local Open Scope num_scope.

Add Ring num_ring_neuron : num_ring.

Lemma chain_cons (wi : ref) (xi : operand) (rest : list (ref * operand))
    (start : ref) (h : heap) :
  (let* act := py_sum ((wi, xi) :: rest) start in tanh act) h =
  match __mul__ wi xi h with
  | (Ok p, h1) =>
      match __add__ start (ONode p) h1 with
      | (Ok acc, h2) => (let* act := py_sum rest acc in tanh act) h2
      | (Raise e, h2) => (Raise e, h2)
      end
  | (Raise e, h1) => (Raise e, h1)
  end.
Proof.
  cbn [py_sum]. unfold bind.
  destruct (__mul__ wi xi h) as [[p|e] h1]; [|done].
  by destruct (__add__ start (ONode p) h1) as [[acc|e] h2].
Qed.

(** The nodes [sum] and [tanh] build on top of a running total [start],
    and what [backward] on the result leaves on [start] and on the
    weights, when [tanh] returns [t] and the closure of [tanh] gets [q]
    for [t ** 2].  The graph below the result takes one frame per pair
    and one for [tanh] on top of the [k] frames of [start]. *)
Lemma neuron_chain (t q : num) (pairs : list (ref * operand)) :
  t ** two = Ok q →
  ∀ h start k,
    wf h → start < length h →
    Forall (λ p, p.1 < length h ∧ ∃ x, p.2 = OConst x) pairs →
    NoDup pairs.*1 → start ∉ pairs.*1 →
    (∀ wi, wi ∈ pairs.*1 → _prev (h !!! wi) = ∅) →
    (∀ wi, wi ∈ pairs.*1 → unused_below h wi start) →
    tanh_of (weighted_sum h pairs (data (h !!! start))) = Ok t →
    runs_below h start → 2 ≤ k → fits k h start →
    ∃ out l hf,
      (let* act := py_sum pairs start in tanh act) h = (Ok out, h ++ l) ∧
      wf (h ++ l) ∧ length h ≤ out ∧ out < length (h ++ l) ∧
      backward (S (length (h ++ l))) out (h ++ l) = (Ok tt, hf) ∧
      grad (hf !!! start) = grad (h !!! start) + (one - q) ∧
      (∀ j wj xj, pairs !! j = Some (wj, OConst xj) →
         grad (hf !!! wj) = grad (h !!! wj) + xj * (one - q)) ∧
      reachable (h ++ l) out start ∧
      (∀ u, reachable (h ++ l) out u →
            length h ≤ u ∨ reachable h start u ∨ u ∈ pairs.*1) ∧
      (∀ u c, length h ≤ u → c ∈ _prev ((h ++ l) !!! u) → c < length h →
              c = start ∨ c ∈ pairs.*1) ∧
      data ((h ++ l) !!! out) = t ∧
      runs_below (h ++ l) out ∧
      fits (k + length pairs + 1) (h ++ l) out.
Proof.
  intros Hq.
  induction pairs as [|[wi xi] rest IH];
    intros h start k Hwf Hstart Hall Hnd Hfresh Hleaf Hunused Ht Hruns Hk Hfit.
  - (* no pair left: [tanh] of the running total *)
    cbn [weighted_sum] in Ht.
    cbn [py_sum]. unfold bind, ret. rewrite tanh_node, Ht.
    set (o := new_node t (tanh_backward start t (length h)) [start] op_tanh).
    assert (Hwf1 : wf (h ++ [o])).
    { apply (run_op_wf (F_tanh start) h (Ok (length h)) _ Hwf).
      - intros a Ha. cbn in Ha. by apply list_elem_of_singleton in Ha as ->.
      - cbn [run_op]. by rewrite tanh_node, Ht. }
    assert (Hruns1 : runs_below (h ++ [o]) (length h)).
    { apply fresh_root_runs; [done|done| |].
      - subst o. cbn [_backward new_node closure_runs]. by rewrite Hq.
      - intros c Hc. cbn in Hc. assert (c = start) as -> by set_solver. done. }
    assert (Hfit1 : fits (S k) (h ++ [o]) (length h)).
    { apply fresh_root_fits; [done|done|].
      intros c Hc. cbn in Hc. assert (c = start) as -> by set_solver. done. }
    assert (Hlen : length (h ++ [o]) = S (length h)).
    { rewrite length_app. cbn. lia. }
    assert (Ho : (h ++ [o]) !!! length h = o) by apply lookup_total_new.
    assert (Hreach : ∀ u, reachable (h ++ [o]) (length h) u →
              u = length h ∨ (u < length h ∧ reachable h start u)).
    { intros u Hu. apply reachable_inv in Hu as [->|(c & Hc & Hr)]; [by left|].
      rewrite Ho in Hc. cbn in Hc. assert (c = start) as -> by set_solver.
      right. destruct (reachable_old h [o] start u Hwf Hstart Hr). done. }
    destruct (backward_single (h ++ [o]) (length h) (length h) start Hwf1)
      as (hf & Hrun & Hs & Hgo & Hg); [lia|done|apply reach_refl|lia| |].
    { intros u Hu Hne Hin. destruct (Hreach u Hu) as [->|[Hlt Hr]]; [done|].
      rewrite lookup_total_app_l in Hin by done.
      by apply (unused_self h start Hwf u). }
    exists (length h), [o], hf.
    split_and!; [done|done|done|lia|done| | | | | |by rewrite Ho|done|].
    + rewrite Hg, Ho. rewrite lookup_total_app_l by done.
      subst o. cbn [_backward new_node contrib data]. unfold share.
      rewrite decide_True by done. rewrite Hq. cbn [value_of].
      rewrite Hgo. ring.
    + intros j wj xj Hj. by rewrite lookup_nil in Hj.
    + eapply reach_step; [apply reach_refl|]. rewrite Ho. cbn. set_solver.
    + intros u Hu. destruct (Hreach u Hu) as [->|[_ Hr]]; [left; lia|].
      right. by left.
    + intros u c Hu Hc Hlt.
      assert (u = length h) as ->.
      { destruct (decide (u < length (h ++ [o]))) as [|Hge]; [lia|].
        rewrite list_lookup_total_alt, lookup_ge_None_2 in Hc by lia.
        cbn in Hc. set_solver. }
      rewrite Ho in Hc. cbn in Hc. left. set_solver.
    + cbn [length]. eapply fits_mono; [|exact Hfit1]. lia.
  - (* one pair: a product, a new running total, then the rest *)
    apply Forall_cons in Hall as [[Hwi [x Hxi]] Hall]. cbn in Hwi, Hxi.
    subst xi. cbn [fmap list_fmap fst] in *.
    cbn [weighted_sum operand_value] in Ht.
    apply NoDup_cons in Hnd as [Hwi_rest Hnd].
    apply not_elem_of_cons in Hfresh as [Hstart_wi Hstart_rest].
    assert (Hrest_lt : ∀ w', w' ∈ rest.*1 → w' < length h).
    { intros w' Hw'. apply list_elem_of_fmap in Hw' as ([w0 x0] & -> & Hin).
      rewrite Forall_forall in Hall. by destruct (Hall _ Hin). }
    rewrite chain_cons, mul_node_const.
    set (p := new_node (data (h !!! wi) * x)
                (mul_backward wi (OConst x) (length h)) [wi] op_mul).
    rewrite add_node_node.
    set (acc := new_node _ (add_backward start (ONode (length h))
                              (length (h ++ [p]))) [start; length h] op_add).
    set (L := length h) in *.
    assert (Hlen1 : length (h ++ [p]) = S L).
    { rewrite length_app. cbn. lia. }
    assert (Hlen2 : length ((h ++ [p]) ++ [acc]) = S (S L)).
    { rewrite length_app, Hlen1. cbn. lia. }
    assert (Hwf1 : wf (h ++ [p])).
    { apply (run_op_wf (F_mul wi (OConst x)) h (Ok L) _ Hwf).
      - intros a Ha. cbn in Ha. by apply list_elem_of_singleton in Ha as ->.
      - cbn [run_op]. by rewrite mul_node_const. }
    assert (Hwf2 : wf ((h ++ [p]) ++ [acc])).
    { apply (run_op_wf (F_add start (ONode L)) (h ++ [p])
               (Ok (length (h ++ [p]))) _ Hwf1).
      - intros a Ha. cbn in Ha. rewrite Hlen1. set_solver by lia.
      - cbn [run_op]. by rewrite add_node_node. }
    set (h2 := (h ++ [p]) ++ [acc]) in *.
    assert (Hold2 : ∀ i, i < L → h2 !!! i = h !!! i).
    { intros i Hi. unfold h2. rewrite <- app_assoc.
      by rewrite lookup_total_app_l. }
    assert (Hp2 : h2 !!! L = p).
    { unfold h2. rewrite lookup_total_app_l by lia. apply lookup_total_new. }
    assert (Hacc2 : h2 !!! S L = acc).
    { unfold h2. rewrite <- Hlen1. apply lookup_total_new. }
    assert (Hleaf_reach : ∀ w' u, w' < L → _prev (h !!! w') = ∅ →
              reachable h2 w' u → u = w').
    { intros w' u Hw' Hprev Hr. unfold h2 in Hr. rewrite <- app_assoc in Hr.
      destruct (reachable_old h _ w' u Hwf Hw' Hr) as [Hr' _].
      apply reachable_inv in Hr' as [->|(c & Hc & _)]; [done|].
      rewrite Hprev in Hc. set_solver. }
    assert (R2 : ∀ u, reachable h2 (S L) u →
              u = S L ∨ u = L ∨ (u < L ∧ (reachable h start u ∨ u = wi))).
    { intros u Hu.
      apply reachable_inv in Hu as [->|(c & Hc & Hr)]; [by left|right].
      rewrite Hacc2 in Hc. cbn in Hc.
      assert (c = start ∨ c = L) as [->| ->] by set_solver.
      - right. unfold h2 in Hr. rewrite <- app_assoc in Hr.
        destruct (reachable_old h _ start u Hwf Hstart Hr). split; [done|].
        by left.
      - apply reachable_inv in Hr as [->|(c & Hc' & Hr)]; [by left|right].
        rewrite Hp2 in Hc'. cbn in Hc'. assert (c = wi) as -> by set_solver.
        apply (Hleaf_reach wi u Hwi) in Hr; [|apply Hleaf; by left].
        subst u. split; [done|by right]. }
    assert (Hp1 : (h ++ [p]) !!! L = p) by apply lookup_total_new.
    assert (HrunsL : runs_below (h ++ [p]) L).
    { apply fresh_root_runs; [done|done|done|].
      intros c Hc. cbn in Hc. assert (c = wi) as -> by set_solver.
      apply leaf_runs; [done|]. apply Hleaf. by left. }
    assert (HfitL : fits 2 (h ++ [p]) L).
    { apply fresh_root_fits; [done|done|].
      intros c Hc. cbn in Hc. assert (c = wi) as -> by set_solver.
      apply leaf_fits; [|lia]. apply Hleaf. by left. }
    assert (Hruns2 : runs_below h2 (S L)).
    { unfold h2. rewrite <- Hlen1. apply fresh_root_runs; [done|done|done|].
      intros c Hc. cbn in Hc.
      assert (c = start ∨ c = L) as [->| ->] by set_solver; [|done].
      by apply runs_below_old. }
    assert (Hfit2 : fits (S k) h2 (S L)).
    { unfold h2. rewrite <- Hlen1. apply fresh_root_fits; [done|done|].
      intros c Hc. cbn in Hc.
      assert (c = start ∨ c = L) as [->| ->] by set_solver.
      - by apply fits_old.
      - by apply (fits_mono _ 2). }
    assert (Hpairs : Forall (pair_in h) rest).
    { eapply Forall_impl; [exact Hall|]. intros [w0 x0] [H1 [x' H2]].
      split; [done|]. cbn in *. by subst x0. }
    assert (Ht2 : tanh_of (weighted_sum h2 rest (data (h2 !!! S L))) = Ok t).
    { rewrite Hacc2. unfold h2. rewrite <- app_assoc.
      rewrite weighted_sum_app by done. subst acc. cbn [data new_node].
      rewrite Hp1, lookup_total_app_l by done. subst p. exact Ht. }
    destruct (IH h2 (S L) (S k) Hwf2) as
      (out & l & hf & Hrun & HwfH & Hout1 & Hout2 & Hback & Hgacc & Hgrest &
       Hracc & C5 & C6 & Hdata & HrunsH & HfitH).
    { lia. }
    { eapply Forall_impl; [exact Hall|]. intros [w0 x0] [H1 H2].
      split; [cbn in *; lia|done]. }
    { done. }
    { intros Hin. apply Hrest_lt in Hin. lia. }
    { intros w' Hw'. rewrite Hold2 by auto. apply Hleaf. by right. }
    { intros w' Hw' u Hu Hin. pose proof (Hrest_lt w' Hw') as Hw'lt.
      destruct (R2 u Hu) as [->|[->|[Hlt [Hr| ->]]]].
      - rewrite Hacc2 in Hin. cbn in Hin. set_solver by lia.
      - rewrite Hp2 in Hin. cbn in Hin. set_solver.
      - rewrite Hold2 in Hin by done.
        refine (Hunused w' _ u Hr Hin). by right.
      - rewrite Hold2, Hleaf in Hin by (done || by left). set_solver. }
    { done. }
    { done. }
    { lia. }
    { done. }
    set (H := h2 ++ l) in *.
    assert (Hassoc : h ++ [p; acc] ++ l = H).
    { unfold H, h2. by rewrite <- !app_assoc. }
    assert (HoldH : ∀ i, i < L → H !!! i = h !!! i).
    { intros i Hi. unfold H. rewrite lookup_total_app_l by lia. by apply Hold2. }
    assert (HpH : H !!! L = p).
    { unfold H. by rewrite lookup_total_app_l by lia. }
    assert (HaccH : H !!! S L = acc).
    { unfold H. by rewrite lookup_total_app_l by lia. }
    assert (RH : ∀ u, reachable H out u →
              S (S L) ≤ u ∨ u = S L ∨ u = L ∨
              (u < L ∧ (reachable h start u ∨ u = wi ∨ u ∈ rest.*1))).
    { intros u Hu. destruct (C5 u Hu) as [?|[Hr|Hin]].
      - left. lia.
      - destruct (R2 u Hr) as [->|[->|[Hlt [?| ->]]]]; naive_solver.
      - do 3 right. split; [by apply Hrest_lt|]. by do 2 right. }
    assert (Pnew : ∀ u c, S (S L) ≤ u → c ∈ _prev (H !!! u) →
              S (S L) ≤ c ∨ c = S L ∨ c ∈ rest.*1).
    { intros u c Hu Hc. destruct (decide (c < length h2)) as [Hlt|Hge].
      - right. apply (C6 u c); [lia|done|done].
      - left. lia. }
    assert (HprevH : ∀ u c, u < L → c ∈ _prev (H !!! u) → c < u).
    { intros u c Hu Hc. rewrite wf_total in HwfH.
      destruct (HwfH u) as [Hlt _]. by apply Hlt. }
    assert (HleafH : ∀ w', w' = wi ∨ w' ∈ rest.*1 → _prev (H !!! w') = ∅).
    { intros w' Hw'.
      assert (w' < L) by (destruct Hw' as [->|?]; [done|by apply Hrest_lt]).
      rewrite HoldH by done. apply Hleaf. destruct Hw' as [->|?];
        [by left|by right]. }
    assert (HrL : reachable H out L).
    { eapply reach_step; [exact Hracc|]. rewrite HaccH. cbn. set_solver. }
    (* the running total [start] is an operand of [acc] only *)
    destruct (backward_single H out (S L) start HwfH Hout2 HrunsH Hracc)
      as (hf1 & Hback1 & _ & _ & Hg_start); [lia| |].
    { intros u Hu Hne Hin.
      destruct (RH u Hu) as [Hnew|[->|[->|[Hlt [Hr|[->|Hw']]]]]]; [|done|..].
      - destruct (Pnew u start Hnew Hin) as [?|[?|?]]; [lia|lia|done].
      - rewrite HpH in Hin. cbn in Hin. set_solver.
      - rewrite HoldH in Hin by done. by apply (unused_self h start Hwf u).
      - rewrite HleafH in Hin by (by left). set_solver.
      - rewrite HleafH in Hin by (by right). set_solver. }
    rewrite Hback in Hback1. injection Hback1 as <-.
    (* the product [p] is an operand of [acc] only *)
    destruct (backward_single H out (S L) L HwfH Hout2 HrunsH Hracc)
      as (hf1 & Hback1 & _ & _ & Hg_p); [lia| |].
    { intros u Hu Hne Hin.
      destruct (RH u Hu) as [Hnew|[->|[->|[Hlt _]]]]; [|done|..].
      - destruct (Pnew u L Hnew Hin) as [?|[?|Hw']]; [lia|lia|].
        apply Hrest_lt in Hw'. lia.
      - rewrite HpH in Hin. cbn in Hin. set_solver by lia.
      - apply HprevH in Hin; [lia|done]. }
    rewrite Hback in Hback1. injection Hback1 as <-.
    (* the weight [wi] is an operand of [p] only *)
    destruct (backward_single H out L wi HwfH Hout2 HrunsH HrL)
      as (hf1 & Hback1 & _ & _ & Hg_wi); [lia| |].
    { intros u Hu Hne Hin.
      destruct (RH u Hu) as [Hnew|[->|[->|[Hlt [Hr|[->|Hw']]]]]]; [| |done|..].
      - destruct (Pnew u wi Hnew Hin) as [?|[?|?]]; [lia|lia|done].
      - rewrite HaccH in Hin. cbn in Hin. set_solver by lia.
      - rewrite HoldH in Hin by done.
        refine (Hunused wi _ u Hr Hin). by left.
      - rewrite HleafH in Hin by (by left). set_solver.
      - rewrite HleafH in Hin by (by right). set_solver. }
    rewrite Hback in Hback1. injection Hback1 as <-.
    assert (Hgacc' : grad (hf !!! S L) = one - q).
    { rewrite Hgacc, Hacc2. subst acc. cbn [grad new_node]. ring. }
    assert (Hgp' : grad (hf !!! L) = one - q).
    { rewrite Hg_p, HaccH, HpH. subst acc p.
      cbn [_backward new_node contrib grad]. unfold share.
      rewrite decide_False by lia. rewrite decide_True by done.
      rewrite Hlen1, Hgacc'. ring. }
    exists out, ([p; acc] ++ l), hf. rewrite Hassoc, Hlen1.
    split_and!; [exact Hrun|done|lia|done|done| | | | | |done|done|].
    + rewrite Hg_start, HaccH, HoldH by done. subst acc.
      cbn [_backward new_node contrib]. unfold share.
      rewrite decide_True by done. rewrite decide_False by lia.
      rewrite Hlen1, Hgacc'. ring.
    + intros [|j] wj xj Hj.
      * injection Hj as <- <-. rewrite Hg_wi, HpH, HoldH by done. subst p.
        cbn [_backward new_node contrib]. unfold share.
        rewrite decide_True by done. rewrite Hgp'. ring.
      * cbn in Hj. rewrite (Hgrest j wj xj Hj). f_equal.
        rewrite Hold2; [done|]. apply Hrest_lt.
        apply list_elem_of_fmap. exists (wj, OConst xj). split; [done|].
        by eapply list_elem_of_lookup_2.
    + eapply reach_step; [exact Hracc|]. rewrite HaccH. cbn. set_solver.
    + intros u Hu.
      destruct (RH u Hu) as [?|[->|[->|[Hlt [Hr|[->|Hw']]]]]];
        [left; lia|left; lia|left; lia|by right; left|
         right; right; by left|right; right; by right].
    + intros u c Hu Hc Hlt.
      destruct (decide (u = L)) as [->|HneL].
      { rewrite HpH in Hc. cbn in Hc. right. apply elem_of_cons. left.
        set_solver. }
      destruct (decide (u = S L)) as [->|HneSL].
      { rewrite HaccH in Hc. cbn in Hc. left. set_solver by lia. }
      destruct (Pnew u c) as [?|[?|?]]; [lia|done|lia|lia|].
      right. apply elem_of_cons. by right.
    + eapply fits_mono; [|exact HfitH]. cbn [length]. lia.
Qed.

Lemma zip_fst_take {A B} (l : list A) (k : list B) :
  (zip l k).*1 = take (length k) l.
Proof.
  revert k. induction l as [|x l IH]; intros [|y k]; cbn; [done..|].
  f_equal. apply IH.
Qed.

(** X21. A neuron called on a list of plain numbers, then [backward] on
    its output, when the bias and the weights are distinct leaves of a
    well-formed arena, [tanh] returns [t] on the activation, the closure
    of [tanh] gets [q] for [t ** 2], and the interpreter has three frames
    more than [zip] makes pairs.  Both runs return, the value of the
    output is [t], the gradient of the bias grows by [1 - q] and the
    gradient of each weight that [zip] pairs with an input [x] grows by
    [x * (1 - q)]. *)
Theorem neuron_gradients (limit : nat) (n : Neuron) (xs : list num)
    (h : heap) (t q : num) :
  wf h → b n < length h → Forall (λ wi, wi < length h) (w n) →
  NoDup (w n) → b n ∉ w n →
  (∀ v, v ∈ b n :: w n → _prev (h !!! v) = ∅) →
  tanh_of (weighted_sum h (zip (w n) (OConst <$> xs)) (data (h !!! b n)))
    = Ok t →
  t ** two = Ok q →
  length (w n) `min` length xs + 3 ≤ limit →
  ∃ out h1 h2,
    Neuron_call n (PyList (OConst <$> xs)) h = (Ok out, h1) ∧
    data (h1 !!! out) = t ∧
    backward limit out h1 = (Ok tt, h2) ∧
    grad (h2 !!! b n) = grad (h !!! b n) + (one - q) ∧
    ∀ j wj xj, w n !! j = Some wj → xs !! j = Some xj →
      grad (h2 !!! wj) = grad (h !!! wj) + xj * (one - q).
Proof.
  intros Hwf Hb Hw Hnd Hbw Hleaf Ht Hq Hlimit. unfold Neuron_call.
  set (pairs := zip (w n) (OConst <$> xs)) in *.
  assert (Hsub : ∀ wi, wi ∈ pairs.*1 → wi ∈ w n).
  { intros wi. unfold pairs. rewrite zip_fst_take. apply subseteq_take. }
  destruct (neuron_chain t q pairs Hq h (b n) 2 Hwf Hb)
    as (out & l & hf & Hrun & Hwf1 & _ & Hout & Hback & Hgb & Hgw & _ & _ &
        _ & Hdata & _ & Hfit).
  - apply Forall_forall. intros [wi xi] Hin. cbn. split.
    + rewrite Forall_forall in Hw. apply Hw, Hsub.
      apply list_elem_of_fmap. by exists (wi, xi).
    + apply elem_of_zip_r in Hin.
      apply list_elem_of_fmap in Hin as (k & -> & _). by exists k.
  - unfold pairs. rewrite zip_fst_take.
    eapply sublist_NoDup; [exact Hnd|]. apply sublist_take.
  - intros Hin. by apply Hbw, Hsub.
  - intros wi Hwi. apply Hleaf. right. by apply Hsub.
  - intros wi Hwi u Hu Hin.
    apply reachable_inv in Hu as [->|(c & Hc & _)].
    + rewrite Hleaf in Hin by (by left). set_solver.
    + rewrite Hleaf in Hc by (by left). set_solver.
  - done.
  - apply leaf_runs; [done|]. apply Hleaf. by left.
  - done.
  - apply leaf_fits; [|lia]. apply Hleaf. by left.
  - exists out, (h ++ l), hf. split_and!; [done|done| |done|].
    + rewrite <- Hback. apply backward_limit; [done|done|].
      eapply fits_mono; [|exact Hfit]. unfold pairs.
      rewrite length_zip, length_fmap. lia.
    + intros j wj xj Hwj Hxj. apply (Hgw j). unfold pairs.
      rewrite lookup_zip_with, Hwj, list_lookup_fmap, Hxj. done.
Qed.

End NeuronGradients.

(** ** The further properties on closed arenas *)

Section ClosedMore.

Import Examples NetworkExamples.

(** *** The partial operations of the reals on the inputs of the
    examples *)

Lemma Int_part_IZR (z : Z) : Int_part (IZR z) = z.
Proof.
  unfold Int_part. rewrite <- (up_tech (IZR z) z); [lia|lra|].
  rewrite plus_IZR. lra.
Qed.

Lemma float_limit_large : (1000 < float_limit)%R.
Proof. apply (IZR_lt 1000). reflexivity. Qed.

Lemma in_range_small (x : R) :
  (Rabs x < float_limit)%R → in_range x = Ok x.
Proof. intros Hx. unfold in_range. by destruct (Rlt_dec _ _). Qed.

Lemma real_pow_IZR (a : R) (z : Z) (p : R) :
  p = powerRZ a z → (a = 0%R → (0 ≤ z)%Z) → (Rabs p < float_limit)%R →
  real_pow a (IZR z) = Ok p.
Proof.
  intros -> Hz Hp. unfold real_pow. rewrite Int_part_IZR.
  destruct (Req_dec_T (IZR z) (IZR z)) as [_|Hne]; [|done].
  destruct (Req_dec_T a 0) as [Ha|Ha].
  - destruct (Rlt_dec (IZR z) 0) as [Hlt|_]; [|done].
    apply (lt_IZR z 0) in Hlt. specialize (Hz Ha). lia.
  - by apply in_range_small.
Qed.

Lemma real_pow_zero_negative (z : Z) :
  (z < 0)%Z → real_pow 0 (IZR z) = Raise ZeroDivisionError.
Proof.
  intros Hz. unfold real_pow. rewrite Int_part_IZR.
  destruct (Req_dec_T (IZR z) (IZR z)) as [_|Hne]; [|done].
  destruct (Req_dec_T 0 0) as [_|Hne]; [|done].
  destruct (Rlt_dec (IZR z) 0) as [_|Hge]; [done|].
  destruct Hge. by apply (IZR_lt z 0).
Qed.

Lemma real_exp_0 : real_exp 0 = Ok 1%R.
Proof.
  unfold real_exp. rewrite exp_0. apply in_range_small.
  pose proof float_limit_large. apply Rabs_def1; lra.
Qed.

Lemma tanh_of_0 (x : R) : x = 0%R → tanh_of (N:=real_num) x = Ok 0%R.
Proof.
  intros ->. unfold tanh_of.
  change (match real_exp ((1 + 1) * 0) with
          | Ok e => real_truediv (e - 1) (e + 1)
          | Raise err => Raise err
          end = Ok 0%R).
  replace ((1 + 1) * 0)%R with 0%R by lra. rewrite real_exp_0.
  change (real_truediv (1 - 1) (1 + 1) = Ok 0%R). unfold real_truediv.
  destruct (Req_dec_T (1 + 1) 0) as [Heq|_]; [lra|]. f_equal. lra.
Qed.

Lemma exp_mult_nat (x : R) (n : nat) :
  Rtrigo_def.exp (INR n * x) = (Rtrigo_def.exp x ^ n)%R.
Proof.
  induction n as [|n IH].
  - cbn. rewrite Rmult_0_l. apply exp_0.
  - rewrite S_INR, Rmult_plus_distr_r, Rmult_1_l, exp_plus, IH. cbn. ring.
Qed.

Lemma exp_2_lower : (5 <= Rtrigo_def.exp 2)%R.
Proof.
  replace 2%R with (INR 4 * (1 / 2))%R by (cbn; lra).
  rewrite exp_mult_nat.
  assert (H : (3 / 2 < Rtrigo_def.exp (1 / 2))%R).
  { replace (3 / 2)%R with (1 + 1 / 2)%R by lra. apply exp_ineq1. lra. }
  apply Rle_trans with ((3 / 2) ^ 4)%R; [cbn; lra|].
  apply pow_incr. lra.
Qed.

Lemma exp_1000_lower : (float_limit <= Rtrigo_def.exp 1000)%R.
Proof.
  assert (H500 : INR 500 = 500%R) by (rewrite INR_IZR_INZ; reflexivity).
  replace 1000%R with (INR 500 * 2)%R by (rewrite H500; lra).
  rewrite exp_mult_nat.
  apply Rle_trans with (5 ^ 500)%R.
  - rewrite pow_IZR. apply IZR_le. by vm_compute.
  - apply pow_incr. split; [lra|apply exp_2_lower].
Qed.

Lemma real_exp_1000 : real_exp 1000 = Raise OverflowError.
Proof.
  unfold real_exp, in_range.
  destruct (Rlt_dec _ _) as [Hlt|_]; [|done].
  pose proof exp_1000_lower. pose proof (exp_pos 1000).
  rewrite Rabs_pos_eq in Hlt; lra.
Qed.

(** The powers, exponentials and [tanh] the examples evaluate. *)

Lemma three_squared : (data (one_leaf !!! 0%nat) ** two)%num = Ok 9%R.
Proof.
  change (real_pow 3 (1 + 1) = Ok 9%R).
  replace (1 + 1)%R with (IZR 2) by lra.
  pose proof float_limit_large.
  apply real_pow_IZR; [unfold powerRZ; simpl; lra|lra|apply Rabs_def1; lra].
Qed.

Lemma three_to_one :
  (data (one_leaf !!! 0%nat) ** (two - one))%num = Ok 3%R.
Proof.
  change (real_pow 3 (1 + 1 - 1) = Ok 3%R).
  replace (1 + 1 - 1)%R with (IZR 1) by lra.
  pose proof float_limit_large.
  apply real_pow_IZR; [unfold powerRZ; simpl; lra|lra|apply Rabs_def1; lra].
Qed.

Lemma four_inverse :
  (data (two_leaves !!! 1%nat) ** minus_one)%num = Ok (1 / 4)%R.
Proof.
  change (real_pow 4 (- (1)) = Ok (1 / 4)%R).
  replace (- (1))%R with (IZR (-1)) by lra.
  pose proof float_limit_large.
  apply real_pow_IZR; [unfold powerRZ; simpl; lra|lra|apply Rabs_def1; lra].
Qed.

Lemma four_inverse_squared :
  (data (two_leaves !!! 1%nat) ** (minus_one - one))%num = Ok (1 / 16)%R.
Proof.
  change (real_pow 4 (- (1) - 1) = Ok (1 / 16)%R).
  replace (- (1) - 1)%R with (IZR (-2)) by lra.
  pose proof float_limit_large.
  apply real_pow_IZR; [unfold powerRZ; simpl; lra|lra|apply Rabs_def1; lra].
Qed.

Lemma zero_squared : (0%R ** two)%num = Ok 0%R.
Proof.
  change (real_pow 0 (1 + 1) = Ok 0%R).
  replace (1 + 1)%R with (IZR 2) by lra.
  pose proof float_limit_large.
  apply real_pow_IZR; [unfold powerRZ; simpl; lra|lia|apply Rabs_def1; lra].
Qed.

Lemma exp_of_zero : math_exp (data (zero_leaf !!! 0%nat)) = Ok 1%R.
Proof. apply real_exp_0. Qed.

Lemma tanh_of_zero : tanh_of (data (zero_leaf !!! 0%nat)) = Ok 0%R.
Proof. by apply tanh_of_0. Qed.

(** The neuron of the example computes [-6 + 3 * 2 = 0] and [tanh(0)]. *)
Lemma neuron_activation :
  tanh_of (weighted_sum neuron_leaves (zip (w one_weight) x_in)
             (data (neuron_leaves !!! b one_weight))) = Ok 0%R.
Proof. apply tanh_of_0. cbn. lra. Qed.

(** *** The properties on the example arenas *)

Lemma zero_leaf_wf : wf zero_leaf.
Proof.
  intros [|i] v Hv; [|by destruct i].
  injection Hv as <-. split; [set_solver|by left].
Qed.

Lemma two_leaves_wf : wf two_leaves.
Proof.
  intros [|[|i]] v Hv; [| |by destruct i]; injection Hv as <-;
    (split; [set_solver|by left]).
Qed.

Lemma two_leaves_unused (v a : ref) : unused_below two_leaves v a.
Proof. intros [|[|u]] _; cbn; set_solver. Qed.

Lemma two_leaves_leaf (v : ref) : _prev (two_leaves !!! v) = ∅.
Proof. by destruct v as [|[|v]]. Qed.

Lemma two_leaves_fits (v : ref) : fits 999 two_leaves v.
Proof. apply leaf_fits; [apply two_leaves_leaf|lia]. Qed.

Lemma two_leaves_runs (v : ref) : runs_below two_leaves v.
Proof. apply leaf_runs; [apply two_leaves_wf|apply two_leaves_leaf]. Qed.

Lemma neuron_leaves_wf : wf neuron_leaves.
Proof.
  intros [|[|i]] v Hv; [| |by destruct i]; injection Hv as <-;
    (split; [set_solver|by left]).
Qed.

Lemma neuron_leaves_leaf (v : ref) : _prev (neuron_leaves !!! v) = ∅.
Proof. by destruct v as [|[|v]]. Qed.

Lemma stale_chain_heap_wf : wf stale_chain_heap.
Proof.
  intros [|[|[|i]]] v Hv; [| | |by destruct i]; injection Hv as <-; cbn.
  - split; [set_solver|by left].
  - split; [|right; split_and!; [done|done|set_solver]].
    intros c ->%elem_of_singleton. lia.
  - split; [|right; split_and!; [done|done|set_solver]].
    intros c ->%elem_of_singleton. lia.
Qed.

Lemma stale_chain_fresh (u : ref) :
  reachable stale_chain_heap 2 u → u ≠ 2 →
  u ∈ [0] ∨ grad (stale_chain_heap !!! u) = 0%R.
Proof.
  intros _ _. destruct u as [|[|[|u]]]; [left; by left|by right..].
Qed.

Lemma stale_chain_fits : fits 1000 stale_chain_heap 2.
Proof.
  apply (fits_mono _ 3); [lia|apply wf_fits, stale_chain_heap_wf].
Qed.

Lemma stale_chain_runs (v : ref) : runs_below stale_chain_heap v.
Proof. intros u _. by destruct u as [|[|[|u]]]. Qed.

Lemma chain_y_reachable : reachable chain_heap 2 1.
Proof. apply (reach_step _ _ 2); [apply reach_refl|cbn; set_solver]. Qed.

Lemma chain_x_consumed_by_y (u : ref) :
  reachable chain_heap 2 u → u ≠ 1 → 0 ∉ _prev (chain_heap !!! u).
Proof.
  intros _ Hne. destruct u as [|[|[|u]]]; cbn; [set_solver|done|set_solver..].
Qed.

Lemma backward_adjoint_witness :
  ∃ topo h',
    topo_order 1000 chain_heap 2 = Some topo ∧
    backward 1000 2 chain_heap = (Ok tt, h') ∧
    ∀ v, grad (h' !!! v) =
         accumulate_all h' (reverse topo) v (seed chain_heap 2 v).
Proof.
  apply (backward_adjoint 1000 chain_heap 2);
    [apply chain_heap_wf|cbn; lia|apply chain_fits; lia|apply chain_runs].
Defined.

Lemma backward_chain_rule_witness :
  ∃ h', backward 1000 2 chain_heap = (Ok tt, h') ∧
        grad (h' !!! 0%nat) =
          accumulate (_backward (chain_heap !!! 1%nat)) h' 0
            (grad (chain_heap !!! 0%nat)).
Proof.
  apply (backward_chain_rule 1000 chain_heap 2 1 0);
    [apply chain_heap_wf|cbn; lia|apply chain_fits; lia|apply chain_runs|
     apply chain_y_reachable|lia|apply chain_x_consumed_by_y].
Defined.

Lemma backward_touches_witness :
  let r := (backward 1000 1 chain_heap).1 in
  let h' := (backward 1000 1 chain_heap).2 in
  length h' = length chain_heap ∧
  (∀ i, with_grad 0%R (h' !!! i) = with_grad 0%R (chain_heap !!! i)) ∧
  (∀ i, ¬ reachable chain_heap 1 i → h' !! i = chain_heap !! i) ∧
  (topo_order 1000 chain_heap 1 = None →
   r = Raise RecursionError ∧ h' = chain_heap).
Proof.
  intros r h'.
  apply (backward_touches_reachable_gradients_only 1000 chain_heap 1 r h');
    [apply chain_heap_wf|reflexivity].
Defined.

Lemma add_gradient_witness :
  ∃ z h1 h2,
    __add__ 0 (ONode 1) two_leaves = (Ok z, h1) ∧
    data (h1 !!! z) =
      (data (two_leaves !!! 0%nat) + data (two_leaves !!! 1%nat))%num ∧
    backward 1000 z h1 = (Ok tt, h2) ∧
    grad (h2 !!! z) = 1%R ∧
    grad (h2 !!! 0%nat) = (grad (two_leaves !!! 0%nat) + 1)%R ∧
    grad (h2 !!! 1%nat) = (grad (two_leaves !!! 1%nat) + 1)%R.
Proof.
  apply (add_gradient 999 two_leaves 0 1);
    [apply two_leaves_wf|cbn; lia|cbn; lia|lia|
     apply two_leaves_unused|apply two_leaves_unused|
     apply two_leaves_fits|apply two_leaves_fits|
     apply two_leaves_runs|apply two_leaves_runs].
Defined.

Lemma mul_gradient_witness :
  ∃ z h1 h2,
    __mul__ 0 (ONode 1) two_leaves = (Ok z, h1) ∧
    data (h1 !!! z) =
      (data (two_leaves !!! 0%nat) * data (two_leaves !!! 1%nat))%num ∧
    backward 1000 z h1 = (Ok tt, h2) ∧
    grad (h2 !!! z) = 1%R ∧
    grad (h2 !!! 0%nat) =
      (grad (two_leaves !!! 0%nat) + data (two_leaves !!! 1%nat))%num ∧
    grad (h2 !!! 1%nat) =
      (grad (two_leaves !!! 1%nat) + data (two_leaves !!! 0%nat))%num.
Proof.
  apply (mul_gradient 999 two_leaves 0 1);
    [apply two_leaves_wf|cbn; lia|cbn; lia|lia|
     apply two_leaves_unused|apply two_leaves_unused|
     apply two_leaves_fits|apply two_leaves_fits|
     apply two_leaves_runs|apply two_leaves_runs].
Defined.

Lemma const_operand_gradient_witness :
  (∃ z h1 h2,
     __add__ 0 (OConst 5%R) one_leaf = (Ok z, h1) ∧
     data (h1 !!! z) = (data (one_leaf !!! 0%nat) + 5)%R ∧
     _prev (h1 !!! z) = {[0]} ∧
     backward 1000 z h1 = (Ok tt, h2) ∧
     grad (h2 !!! 0%nat) = (grad (one_leaf !!! 0%nat) + 1)%R) ∧
  (∃ z h1 h2,
     __mul__ 0 (OConst 5%R) one_leaf = (Ok z, h1) ∧
     data (h1 !!! z) = (data (one_leaf !!! 0%nat) * 5)%R ∧
     _prev (h1 !!! z) = {[0]} ∧
     backward 1000 z h1 = (Ok tt, h2) ∧
     grad (h2 !!! 0%nat) = (grad (one_leaf !!! 0%nat) + 5)%R).
Proof.
  apply (const_operand_gradient 999 one_leaf 0 5%R);
    [apply one_leaf_wf|cbn; lia|apply leaf_fits; [reflexivity|lia]|
     apply leaf_runs; [apply one_leaf_wf|reflexivity]].
Defined.

Lemma pow_gradient_witness :
  ∃ z h1 r h2,
    __pow__ 0 (OConst two) one_leaf = (Ok z, h1) ∧
    data (h1 !!! z) = 9%R ∧
    backward 1000 z h1 = (r, h2) ∧
    grad (h2 !!! z) = 1%R ∧
    match (data (one_leaf !!! 0%nat) ** (two - one))%num with
    | Ok d =>
        r = Ok tt ∧
        grad (h2 !!! 0%nat) = (grad (one_leaf !!! 0%nat) + two * d)%num
    | Raise e =>
        r = Raise e ∧ grad (h2 !!! 0%nat) = grad (one_leaf !!! 0%nat)
    end.
Proof.
  apply (pow_gradient 999 one_leaf 0 two 9%R);
    [apply one_leaf_wf|cbn; lia|apply leaf_fits; [reflexivity|lia]|
     apply leaf_runs; [apply one_leaf_wf|reflexivity]|apply three_squared].
Defined.

Lemma exp_gradient_witness :
  ∃ z h1 h2,
    exp 0 zero_leaf = (Ok z, h1) ∧
    data (h1 !!! z) = 1%R ∧
    backward 1000 z h1 = (Ok tt, h2) ∧
    grad (h2 !!! 0%nat) = (grad (zero_leaf !!! 0%nat) + 1)%R.
Proof.
  apply (exp_gradient 999 zero_leaf 0 1%R);
    [apply zero_leaf_wf|cbn; lia|apply leaf_fits; [reflexivity|lia]|
     apply leaf_runs; [apply zero_leaf_wf|reflexivity]|apply exp_of_zero].
Defined.

Lemma tanh_gradient_witness :
  ∃ z h1 r h2,
    tanh 0 zero_leaf = (Ok z, h1) ∧
    data (h1 !!! z) = 0%R ∧
    backward 1000 z h1 = (r, h2) ∧
    grad (h2 !!! z) = 1%R ∧
    match (0%R ** two)%num with
    | Ok p =>
        r = Ok tt ∧
        grad (h2 !!! 0%nat) = (grad (zero_leaf !!! 0%nat) + (1 - p))%R
    | Raise e =>
        r = Raise e ∧ grad (h2 !!! 0%nat) = grad (zero_leaf !!! 0%nat)
    end.
Proof.
  apply (tanh_gradient 999 zero_leaf 0 0%R);
    [apply zero_leaf_wf|cbn; lia|apply leaf_fits; [reflexivity|lia]|
     apply leaf_runs; [apply zero_leaf_wf|reflexivity]|apply tanh_of_zero].
Defined.

Lemma sub_gradient_witness :
  ∃ z h1 h2,
    __sub__ 0 (ONode 1) two_leaves = (Ok z, h1) ∧
    length h1 = S (S (length two_leaves)) ∧
    data (h1 !!! z) =
      (data (two_leaves !!! 0%nat) +
       data (two_leaves !!! 1%nat) * minus_one)%num ∧
    backward 1000 z h1 = (Ok tt, h2) ∧
    grad (h2 !!! 0%nat) = (grad (two_leaves !!! 0%nat) + one)%num ∧
    grad (h2 !!! 1%nat) = (grad (two_leaves !!! 1%nat) + minus_one)%num.
Proof.
  apply (sub_gradient 998 two_leaves 0 1);
    [apply two_leaves_wf|cbn; lia|cbn; lia|lia|
     apply two_leaves_unused|apply two_leaves_unused|
     apply leaf_fits; [apply two_leaves_leaf|lia]|
     apply leaf_fits; [apply two_leaves_leaf|lia]|
     apply two_leaves_runs|apply two_leaves_runs].
Defined.

Lemma truediv_gradient_witness :
  ∃ z h1 h2,
    __truediv__ 0 (ONode 1) two_leaves = (Ok z, h1) ∧
    length h1 = S (S (length two_leaves)) ∧
    data (h1 !!! z) = (data (two_leaves !!! 0%nat) * (1 / 4))%R ∧
    backward 1000 z h1 = (Ok tt, h2) ∧
    grad (h2 !!! 0%nat) = (grad (two_leaves !!! 0%nat) + 1 / 4)%R ∧
    grad (h2 !!! 1%nat) =
      (grad (two_leaves !!! 1%nat) +
       (minus_one * (1 / 16)%R) * data (two_leaves !!! 0%nat))%num.
Proof.
  apply (truediv_gradient 998 two_leaves 0 1 (1 / 4)%R (1 / 16)%R);
    [apply two_leaves_wf|cbn; lia|cbn; lia|lia|
     apply two_leaves_unused|apply two_leaves_unused|
     apply leaf_fits; [apply two_leaves_leaf|lia]|
     apply leaf_fits; [apply two_leaves_leaf|lia]|
     apply two_leaves_runs|apply two_leaves_runs|
     apply four_inverse|apply four_inverse_squared].
Defined.

Lemma run_op_fails_cleanly_witness :
  ∃ e, run_op (F_add 0 OOther) one_leaf = (Raise e, one_leaf) ∧
       UnsupportedOperand e.
Proof. apply (run_op_fails_cleanly (F_add 0 OOther) one_leaf). reflexivity.
Defined.


Lemma trace_spec_witness :
  ∃ nodes edges topo,
    trace 1000 chain_heap 2 = Some (nodes, edges) ∧
    topo_order 1000 chain_heap 2 = Some topo ∧
    nodes = list_to_set topo ∧
    (∀ u, u ∈ nodes ↔ reachable chain_heap 2 u) ∧
    (∀ c v, (c, v) ∈ edges ↔
            reachable chain_heap 2 v ∧ c ∈ _prev (chain_heap !!! v)).
Proof.
  apply (trace_spec 1000 chain_heap 2);
    [apply chain_heap_wf|cbn; lia|apply chain_fits; lia].
Defined.

Lemma reset_then_backward_witness :
  ∃ h1 h2 k2,
    zero_grads [0] stale_chain_heap = (Ok tt, h1) ∧
    backward 1000 2 h1 = (Ok tt, h2) ∧
    backward 1000 2 (skeleton stale_chain_heap) = (Ok tt, k2) ∧
    ∀ v, reachable stale_chain_heap 2 v → grad (h2 !!! v) = grad (k2 !!! v).
Proof.
  apply (reset_then_backward 1000 stale_chain_heap 2 [0]);
    [apply stale_chain_heap_wf|cbn; lia|apply stale_chain_fits|
     apply stale_chain_runs|apply stale_chain_fresh].
Defined.

(** Without the reset the stale gradient stays in the result: [x.grad]
    ends at [20], with the reset at [10]. *)
Example stale_gradient_shows :
  grad ((backward 1000 2 stale_chain_heap).2 !!! 0) = 20%R ∧
  grad ((bind (zero_grads [0]) (λ _, backward 1000 2) stale_chain_heap).2
          !!! 0) = 10%R.
Proof. split; vm_compute; lra. Qed.

Lemma neuron_ignores_surplus_witness :
  Neuron_call (mkNeuron [0] 1) (PyList (x_in ++ x_more))
      neuron_leaves =
    Neuron_call (mkNeuron [0] 1) (PyList x_in) neuron_leaves ∧
  Neuron_call (mkNeuron ([0] ++ [1]) 1) (PyList x_in) neuron_leaves =
    Neuron_call (mkNeuron [0] 1) (PyList x_in) neuron_leaves.
Proof.
  apply (neuron_ignores_surplus [0] 1 x_in [1] x_more neuron_leaves).
  reflexivity.
Defined.

(** The neuron of the example returns object [4], the node of [tanh]. *)
Lemma neuron_example_runs :
  ∃ h1, Neuron_call one_weight (PyList x_in) neuron_leaves = (Ok 4, h1).
Proof.
  destruct (neuron_forward_spec one_weight x_in neuron_leaves)
    as (r & l & Hrun & _ & Hcase);
    [apply neuron_leaves_wf|cbn; lia|repeat constructor|
     unfold x_in; repeat constructor|].
  rewrite neuron_activation in Hcase. destruct Hcase as (-> & _).
  by exists (neuron_leaves ++ l).
Qed.

Lemma single_neuron_layer_witness :
  ∃ h1,
    Layer_call (mkLayer [one_weight]) (PyList x_in) neuron_leaves =
      (Ok (PyValue 4), h1) ∧
    MLP_call (mkMLP [mkLayer [one_weight]; mkLayer [one_weight]])
        (PyList x_in) neuron_leaves =
      (Raise TypeError, h1).
Proof.
  destruct neuron_example_runs as [h1 Hrun]. exists h1.
  apply (single_neuron_layer_breaks_mlp one_weight one_weight [] []
           (PyList x_in) 4 neuron_leaves h1 Hrun).
Defined.

Lemma neuron_forward_witness :
  ∃ r h',
    Neuron_call one_weight (PyList x_in) neuron_leaves = (r, h') ∧
    (∀ i v, neuron_leaves !! i = Some v → h' !! i = Some v) ∧
    wf h' ∧
    match tanh_of (weighted_sum neuron_leaves (zip (w one_weight) x_in)
                     (data (neuron_leaves !!! b one_weight))) with
    | Ok t =>
        ∃ out, r = Ok out ∧ S out = length h' ∧
          length h' =
            S (length neuron_leaves +
               2 * (length (w one_weight) `min` length x_in)) ∧
          data (h' !!! out) = t
    | Raise e =>
        r = Raise e ∧
        length h' =
          (length neuron_leaves +
           2 * (length (w one_weight) `min` length x_in))%nat
    end.
Proof.
  apply (neuron_forward one_weight x_in neuron_leaves);
    [apply neuron_leaves_wf|cbn; lia|repeat constructor|
     unfold x_in; repeat constructor].
Defined.

Lemma update_spec_witness :
  ∃ h1,
    update (N:=real_num) 1%R [0] stale_chain_heap = (Ok tt, h1) ∧
    (∀ p, p ∈ [0] →
       data (h1 !!! p) =
       (data (stale_chain_heap !!! p) -
        1 * grad (stale_chain_heap !!! p))%R) ∧
    (∀ u, u ∉ [0] → h1 !! u = stale_chain_heap !! u) ∧
    (∀ u, grad (h1 !!! u) = grad (stale_chain_heap !!! u) ∧
          _prev (h1 !!! u) = _prev (stale_chain_heap !!! u) ∧
          _backward (h1 !!! u) = _backward (stale_chain_heap !!! u)) ∧
    (wf stale_chain_heap → wf h1).
Proof.
  apply (update_spec (N:=real_num) 1%R [0] stale_chain_heap).
  apply NoDup_singleton.
Defined.

Lemma neuron_gradients_witness :
  ∃ out h1 h2,
    Neuron_call one_weight (PyList (OConst <$> [2%R])) neuron_leaves =
      (Ok out, h1) ∧
    data (h1 !!! out) = 0%R ∧
    backward 1000 out h1 = (Ok tt, h2) ∧
    grad (h2 !!! b one_weight) =
      (grad (neuron_leaves !!! b one_weight) + (1 - 0))%R ∧
    ∀ j wj xj, w one_weight !! j = Some wj → [2%R] !! j = Some xj →
      grad (h2 !!! wj) = (grad (neuron_leaves !!! wj) + xj * (1 - 0))%R.
Proof.
  apply (neuron_gradients (N:=real_num) 1000 one_weight [2%R] neuron_leaves
           0%R 0%R);
    [apply neuron_leaves_wf|cbn; lia|repeat constructor|apply NoDup_singleton|
     |intros v _; apply neuron_leaves_leaf|apply neuron_activation|
     apply zero_squared|cbn; lia].
  cbn. intros Hin. apply list_elem_of_singleton in Hin. discriminate.
Defined.


(** [MLP(3, [4, 4, 1])], the network of the notebook, has 41
    parameters. *)
Example notebook_mlp_parameters : param_count [3; 4; 4; 1] = 41.
Proof. reflexivity. Qed.

(** *** Arithmetic that raises *)

Lemma zero_to_minus_one :
  real_pow 0 (-1) = Raise ZeroDivisionError.
Proof. by apply (real_pow_zero_negative (-1)). Qed.

(** [Value(0.0) ** -1] raises [ZeroDivisionError] and creates nothing. *)
Example pow_of_zero_raises :
  __pow__ 0 (OConst (-1)%R) zero_leaf = (Raise ZeroDivisionError, zero_leaf).
Proof.
  rewrite pow_const.
  change (pow (Num:=real_num) (data (zero_leaf !!! 0%nat)) (-1)%R)
    with (real_pow 0 (-1)).
  by rewrite zero_to_minus_one.
Qed.

(** [Value(3.0) / 0.0] raises [ZeroDivisionError]: it is
    [self * other**-1]. *)
Example truediv_by_zero_raises :
  __truediv__ 0 (OConst 0%R) one_leaf = (Raise ZeroDivisionError, one_leaf).
Proof.
  unfold __truediv__, py_pow_minus_one, fmapM, bind, lift.
  change (pow (Num:=real_num) 0%R minus_one) with (real_pow 0 (- (1))).
  replace (- (1))%R with (-1)%R by lra.
  by rewrite zero_to_minus_one.
Qed.

(** [Value(1000.0).exp()] raises [OverflowError]. *)
Example exp_overflows :
  exp 0 large_leaf = (Raise OverflowError, large_leaf).
Proof.
  rewrite exp_node.
  change (math_exp _) with (real_exp 1000).
  by rewrite real_exp_1000.
Qed.

(** The forward pass of [a = Value(0.0); x = a ** 0; y = x * x] returns,
    [0.0 ** 0] being [1.0]. *)
Example zero_power_builds :
  (let* x := __pow__ 0 (OConst 0%R) in __mul__ x (ONode x)) zero_leaf =
  (Ok 2, zero_power_heap).
Proof.
  unfold bind. rewrite pow_const.
  change (pow (Num:=real_num) (data (zero_leaf !!! 0%nat)) 0%R)
    with (real_pow 0 (IZR 0)).
  pose proof float_limit_large.
  rewrite (real_pow_IZR 0 0 1);
    [|unfold powerRZ; simpl; lra|lia|apply Rabs_def1; lra].
  rewrite mul_node_node. unfold zero_power_heap, zero_leaf, new_node.
  cbn. repeat f_equal; first [lra | set_solver].
Qed.

(** [y.backward()] then raises [ZeroDivisionError] in the closure of
    [x], which evaluates [0.0 ** -1]; [y.grad] and [x.grad] are written
    by then, [a.grad] is not. *)
Example zero_power_backward_raises :
  ∃ h', backward 1000 2 zero_power_heap = (Raise ZeroDivisionError, h') ∧
        grad (h' !!! 2) = 1%R ∧ grad (h' !!! 1) = (0 + 1 * 1 + 1 * 1)%R ∧
        grad (h' !!! 0) = 0%R.
Proof.
  unfold backward.
  assert (Htopo : topo_order 1000 zero_power_heap 2 = Some [0; 1; 2])
    by (by vm_compute).
  rewrite Htopo. cbn. unfold bind, with_grad. cbn. unfold bind, lift. cbn.
  replace (0 - 1)%R with (-1)%R by lra.
  rewrite zero_to_minus_one. cbn.
  eexists. split; [reflexivity|]. cbn. split_and!; lra.
Qed.

End ClosedMore.
